(** * VintedScraper: the request pipeline, the session cookie and the
      query normaliser of [src/handlers/VintedHandler.ts]

    The development follows the class [VintedScraper]: its private fields
    [#proxyHandler] and [#sessionCookie] are the mutable state; the
    methods [#getQueryParameters], [#fetchSessionCookie], [#request],
    [search] and [boostItem] are translated one by one.  The collaborators
    the class imports ([fetch], [HttpsProxyAgent], [ProxyHandler],
    [JSON.parse]) are parameters of the stateful part. *)

From Stdlib Require Import String Ascii.
From Stdlib Require Import List NArith ZArith Bool Lia.
From Stdlib Require Import Permutation.
From Stdlib Require DecimalString DecimalZ.
Import ListNotations.

(** ** ECMAScript strings

    A string value is a finite sequence of 16-bit code units. *)

Definition jsstring := list N.

(** A string literal of the source: each character of the (ASCII) literal
    is one code unit. *)
Definition lit (s : string) : jsstring :=
  map N_of_ascii (list_ascii_of_string s).

Arguments lit s%_string.

(** [a === b] on two strings. *)
Fixpoint streq (a b : jsstring) : bool :=
  match a, b with
  | [], [] => true
  | x :: a', y :: b' => N.eqb x y && streq a' b'
  | _, _ => false
  end.

(** [s.startsWith(p)]: the building block of the searching operations. *)
Fixpoint startsWith (s p : jsstring) {struct p} : bool :=
  match p, s with
  | [], _ => true
  | x :: p', y :: s' => N.eqb x y && startsWith s' p'
  | _ :: _, [] => false
  end.

(** [s.includes(p)]. *)
Fixpoint includes (s p : jsstring) : bool :=
  startsWith s p ||
  match s with
  | [] => false
  | _ :: t => includes t p
  end.

(** [s.split(sep)] for a non-empty separator [sep]: the text is scanned
    from the left; [skip] counts the code units of a separator that was
    just recognised and is still to be stepped over, [cur] is the segment
    being read (reversed). *)
Fixpoint split_scan (sep : jsstring) (skip : nat) (cur : jsstring)
         (s : jsstring) : list jsstring :=
  match s with
  | [] => [rev cur]
  | c :: t =>
    match skip with
    | S k => split_scan sep k cur t
    | O =>
      if startsWith s sep
      then rev cur :: split_scan sep (length sep - 1) [] t
      else split_scan sep 0 (c :: cur) t
    end
  end.

Definition split (s sep : jsstring) : list jsstring := split_scan sep 0 [] s.

(** [s.replaceAll(pat, rep)] for a non-empty pattern [pat] and a
    replacement [rep] without [$]: every occurrence met when scanning from
    the left is replaced, and the scan resumes after it. *)
Fixpoint replaceAll_scan (pat rep : jsstring) (skip : nat) (s : jsstring)
  : jsstring :=
  match s with
  | [] => []
  | c :: t =>
    match skip with
    | S k => replaceAll_scan pat rep k t
    | O =>
      if startsWith s pat
      then rep ++ replaceAll_scan pat rep (length pat - 1) t
      else c :: replaceAll_scan pat rep 0 t
    end
  end.

Definition replaceAll (s pat rep : jsstring) : jsstring :=
  replaceAll_scan pat rep 0 s.

(** [xs[i]] on an array of strings, with [None] for [undefined]. *)
Definition at_index (xs : list jsstring) (i : nat) : option jsstring :=
  nth_error xs i.

(** The part of [s] before the first occurrence of [sep] (all of [s]
    when there is none), and the part after it. *)
Fixpoint before (s sep : jsstring) {struct s} : jsstring :=
  if startsWith s sep then []
  else match s with
       | [] => []
       | c :: t => c :: before t sep
       end.

Fixpoint after (s sep : jsstring) {struct s} : option jsstring :=
  if startsWith s sep then Some (skipn (length sep) s)
  else match s with
       | [] => None
       | _ :: t => after t sep
       end.

(** ** Exceptions and results

    The handler only ever throws [new Error(message)]; the other
    exceptions come from the language ([TypeError] for a property of
    [undefined] or [null], or for creating a property on a primitive in
    strict code), from [JSON.parse] ([SyntaxError]) and from [decodeURI]
    ([URIError]).  Whatever a collaborator throws ([getProxy],
    [HttpsProxyAgent], [fetch]) is kept apart as [Foreign]. *)

Inductive exn : Type :=
| Error (message : jsstring)
| TypeError
| SyntaxError
| URIError
| Foreign (what : jsstring).

Inductive outcome (A : Type) : Type :=
| Ok (a : A)
| Throw (e : exn).

Arguments Ok {A} a.
Arguments Throw {A} e.

(** What a call to a collaborator comes to. *)
Inductive reply (A : Type) : Type :=
| Returned (a : A)
| Failed (what : jsstring).

Arguments Returned {A} a.
Arguments Failed {A} what.

Definition outcome_of_reply {A} (r : reply A) : outcome A :=
  match r with
  | Returned a => Ok a
  | Failed what => Throw (Foreign what)
  end.

(** ** [decodeURI]

    ECMA-262, [Decode] with the reserved set of [decodeURI]: an escape
    [%XX] of a code unit below 128 is replaced by that code unit unless
    it is reserved, in which case the escape is kept as written; escapes
    of a multi-byte UTF-8 sequence are replaced by the UTF-16 code units
    of the code point; any malformed escape is a [URIError]. *)

Definition hexDigit (c : N) : option N :=
  (if (48 <=? c) && (c <=? 57) then Some (c - 48)
   else if (65 <=? c) && (c <=? 70) then Some (c - 55)
   else if (97 <=? c) && (c <=? 102) then Some (c - 87)
   else None)%N.

Definition uriReserved : jsstring := lit ";/?:@&=+$,#".

Definition validCodePoint (cp least : N) : bool :=
  ((least <=? cp) && (cp <=? 1114111)
   && negb ((55296 <=? cp) && (cp <=? 57343)))%N.

Definition utf16Encode (cp : N) : jsstring :=
  (if cp <? 65536 then [cp]
   else [55296 + (cp - 65536) / 1024; 56320 + (cp - 65536) mod 1024])%N.

(** [pend] is [None] outside a multi-byte sequence and
    [Some (k, acc, least)] inside one: [k] continuation bytes are still
    expected, [acc] holds the bits read so far and [least] is the
    smallest code point this sequence length may encode. *)
Fixpoint decode (pend : option (nat * N * N)) (s : jsstring)
  : option jsstring :=
  match s with
  | [] => match pend with None => Some [] | Some _ => None end
  | c :: t =>
    if negb (c =? 37) then
      match pend with
      | None => option_map (cons c) (decode None t)
      | Some _ => None
      end
    else
      match t with
      | h1 :: h2 :: t' =>
        match hexDigit h1, hexDigit h2 with
        | Some a, Some b =>
          let B := 16 * a + b in
          match pend with
          | None =>
            if B <? 128 then
              option_map
                (app (if existsb (N.eqb B) uriReserved then [c; h1; h2] else [B]))
                (decode None t')
            else if B <? 192 then None
            else if B <? 224 then decode (Some (1%nat, B - 192, 128)) t'
            else if B <? 240 then decode (Some (2%nat, B - 224, 2048)) t'
            else if B <? 248 then decode (Some (3%nat, B - 240, 65536)) t'
            else None
          | Some (k, acc, least) =>
            if (128 <=? B) && (B <? 192) then
              let acc' := acc * 64 + (B - 128) in
              match k with
              | O => None
              | S O =>
                if validCodePoint acc' least
                then option_map (app (utf16Encode acc')) (decode None t')
                else None
              | S k' => decode (Some (k', acc', least)) t'
              end
            else None
          end
        | _, _ => None
        end
      | _ => None
      end
  end%N.

Definition decodeURI (uri : jsstring) : option jsstring := decode None uri.

(** ** The pattern of [#getQueryParameters]

    [/^https:\/\/(www.)?vinted\.([a-z]+)\/(vetements|catalog)\?[^\s]+/]
    without flags: the dot of [(www.)] is a wildcard for any code unit
    that is not a line terminator, [\s] is the white space and line
    terminator class, and the pattern is anchored at the start only. *)

Definition isLineTerminator (c : N) : bool :=
  ((c =? 10) || (c =? 13) || (c =? 8232) || (c =? 8233))%N.

Definition isWhiteSpace (c : N) : bool :=
  (((9 <=? c) && (c <=? 13)) || (c =? 32) || (c =? 160) || (c =? 5760)
   || ((8192 <=? c) && (c <=? 8202)) || (c =? 8232) || (c =? 8233)
   || (c =? 8239) || (c =? 8287) || (c =? 12288) || (c =? 65279))%N.

Definition isLowerAZ (c : N) : bool := ((97 <=? c) && (c <=? 122))%N.

Fixpoint stripPrefix (s p : jsstring) {struct p} : option jsstring :=
  match p, s with
  | [], _ => Some s
  | x :: p', y :: s' => if N.eqb x y then stripPrefix s' p' else None
  | _ :: _, [] => None
  end.

Fixpoint dropWhile (f : N -> bool) (s : jsstring) : jsstring :=
  match s with
  | [] => []
  | c :: t => if f c then dropWhile f t else s
  end.

(** [\?[^\s]+] *)
Definition matchQuery (s : jsstring) : bool :=
  match stripPrefix s (lit "?") with
  | Some (c :: _) => negb (isWhiteSpace c)
  | _ => false
  end.

(** [(vetements|catalog)\?[^\s]+] *)
Definition matchPath (s : jsstring) : bool :=
  match stripPrefix s (lit "vetements") with
  | Some r => matchQuery r
  | None =>
    match stripPrefix s (lit "catalog") with
    | Some r => matchQuery r
    | None => false
    end
  end.

(** [vinted\.([a-z]+)\/(vetements|catalog)\?[^\s]+] *)
Definition matchHost (s : jsstring) : bool :=
  match stripPrefix s (lit "vinted.") with
  | Some (c :: r) =>
    isLowerAZ c &&
    match stripPrefix (dropWhile isLowerAZ r) (lit "/") with
    | Some p => matchPath p
    | None => false
    end
  | _ => false
  end.

(** The whole pattern: [URI.match(...)] is not [null]. *)
Definition matchesVintedURI (URI : jsstring) : bool :=
  match stripPrefix URI (lit "https://") with
  | Some r =>
    matchHost r ||
    match stripPrefix r (lit "www") with
    | Some (c :: r') => negb (isLineTerminator c) && matchHost r'
    | _ => false
    end
  | None => false
  end.

(** The pattern as the specification words it, read on the text as given:
    [https], an optional [www.] prefix, host [vinted.<tld>], path
    [vetements] or [catalog], then [?] and a non-empty query. *)
Definition specifiedPattern (u : jsstring) : bool :=
  match stripPrefix u (lit "https://") with
  | Some r =>
    match stripPrefix (match stripPrefix r (lit "www.") with
                       | Some r' => r'
                       | None => r
                       end) (lit "vinted.") with
    | Some (c :: t) =>
      isLowerAZ c &&
      match stripPrefix (dropWhile isLowerAZ t) (lit "/") with
      | Some p =>
        match stripPrefix p (lit "vetements?"), stripPrefix p (lit "catalog?") with
        | Some (_ :: _), _ => true
        | _, Some (_ :: _) => true
        | _, _ => false
        end
      | None => false
      end
    | _ => false
    end
  | None => false
  end.


(** ** The object literal [paramsObject]

    An ordinary object with string values: its own properties in order of
    creation, on top of what every object literal inherits from
    [Object.prototype]. *)

Definition object := list (jsstring * jsstring).

Fixpoint ownProperty (o : object) (k : jsstring) : option jsstring :=
  match o with
  | [] => None
  | (k', v) :: r => if streq k' k then Some v else ownProperty r k
  end.

(** What reading [o[k]] yields: [undefined], a string, or a value
    inherited from [Object.prototype] (a built-in function, or the
    prototype itself through the accessor [__proto__]), of which only the
    string conversion matters here. *)
Inductive propertyValue : Type :=
| Undefined
| Str (s : jsstring)
| Builtin (text : jsstring).

(** The methods of [Object.prototype], with the name each function has. *)
Definition prototypeMethod (k : jsstring) : option jsstring :=
  if streq k (lit "constructor") then Some (lit "Object")
  else if existsb (streq k)
            [lit "__defineGetter__"; lit "__defineSetter__";
             lit "hasOwnProperty"; lit "__lookupGetter__";
             lit "__lookupSetter__"; lit "isPrototypeOf";
             lit "propertyIsEnumerable"; lit "toString"; lit "valueOf";
             lit "toLocaleString"]
       then Some k
       else None.

(** [String(f)] for a built-in function named [name], as Node.js prints it. *)
Definition nativeSource (name : jsstring) : jsstring :=
  lit "function " ++ name ++ lit "() { [native code] }".

Definition getProperty (o : object) (k : jsstring) : propertyValue :=
  match ownProperty o k with
  | Some v => Str v
  | None =>
    if streq k (lit "__proto__") then Builtin (lit "[object Object]")
    else match prototypeMethod k with
         | Some name => Builtin (nativeSource name)
         | None => Undefined
         end
  end.

(** [if (o[k])]: [undefined] and the empty string are falsy. *)
Definition truthy (v : propertyValue) : bool :=
  match v with
  | Undefined => false
  | Str [] => false
  | Str (_ :: _) => true
  | Builtin _ => true
  end.

(** The string a template or a [+=] makes of the value. *)
Definition toString (v : propertyValue) : jsstring :=
  match v with
  | Undefined => lit "undefined"
  | Str s => s
  | Builtin text => text
  end.

Fixpoint replaceOwn (o : object) (k v : jsstring) : object :=
  match o with
  | [] => []
  | (k', v') :: r =>
    if streq k' k then (k', v) :: r else (k', v') :: replaceOwn r k v
  end.

(** [o[k] = v] for a string [v]: an own property keeps its place, a new
    one is created last; the inherited setter [__proto__] ignores a
    string. *)
Definition setProperty (o : object) (k v : jsstring) : object :=
  match ownProperty o k with
  | Some _ => replaceOwn o k v
  | None => if streq k (lit "__proto__") then o else o ++ [(k, v)]
  end.

(** [Object.keys(o)]: the array indices in ascending numeric order, then
    the other keys in order of creation. *)
Definition isDigit (c : N) : bool := ((48 <=? c) && (c <=? 57))%N.

Fixpoint digitsValue (acc : N) (s : jsstring) : option N :=
  match s with
  | [] => Some acc
  | c :: t => if isDigit c then digitsValue (acc * 10 + (c - 48))%N t else None
  end.

Definition arrayIndex (k : jsstring) : option N :=
  match k with
  | [] => None
  | c :: t =>
    if (c =? 48)%N && negb (match t with [] => true | _ => false end) then None
    else match digitsValue 0 k with
         | Some n => if (n <=? 4294967294)%N then Some n else None
         | None => None
         end
  end.

Fixpoint insertIndex (n : N) (k : jsstring) (l : list (N * jsstring))
  : list (N * jsstring) :=
  match l with
  | [] => [(n, k)]
  | (m, k') :: r =>
    if (n <? m)%N then (n, k) :: l else (m, k') :: insertIndex n k r
  end.

Definition indexKeys (o : object) : list (N * jsstring) :=
  fold_right
    (fun kv acc =>
       match arrayIndex (fst kv) with
       | Some n => insertIndex n (fst kv) acc
       | None => acc
       end) [] o.

Definition Object_keys (o : object) : list jsstring :=
  map snd (indexKeys o)
  ++ filter (fun k => match arrayIndex k with Some _ => false | None => true end)
            (map fst o).

(** ** [#getQueryParameters] *)

(** [param.split("=").length !== 2] *)
Definition malformed (param : jsstring) : bool :=
  negb (length (split param (lit "=")) =? 2)%nat.

(** The body of [params.forEach(param => ...)]; a [throw] in the callback
    ends the iteration. *)
Fixpoint organize (params : list jsstring) (paramsObject : object)
  : outcome object :=
  match params with
  | [] => Ok paramsObject
  | param :: rest =>
    if malformed param
    then Throw (Error (lit "Invalid URI parameters: " ++ param))
    else
      let key := nth 0 (split param (lit "=")) [] in
      let value := nth 1 (split param (lit "=")) [] in
      organize rest
        (if truthy (getProperty paramsObject key)
         then setProperty paramsObject key
                (toString (getProperty paramsObject key) ++ lit "," ++ value)
         else setProperty paramsObject key value)
  end.

(** The body of [Object.keys(paramsObject).forEach(paramObject => ...)]. *)
Fixpoint formatParams (keys : list jsstring) (paramsObject : object)
         (finalParams : jsstring) : jsstring :=
  match keys with
  | [] => finalParams
  | paramObject :: rest =>
    formatParams rest paramsObject
      (if negb (streq paramObject (lit "time"))
       then
         if negb (streq finalParams [])
         then finalParams ++ lit "&" ++ paramObject ++ lit "="
                ++ toString (getProperty paramsObject paramObject)
         else finalParams ++ paramObject ++ lit "="
                ++ toString (getProperty paramsObject paramObject)
       else finalParams)
  end.

(** The three substitutions applied to the raw query string. *)
Definition pluralize (query : jsstring) : jsstring :=
  replaceAll
    (replaceAll
       (replaceAll query (lit "catalog[]") (lit "catalog_id[]"))
       (lit "status[]") (lit "status_id[]"))
    (lit "[]") (lit "s").

Definition getQueryParameters (url : jsstring) : outcome jsstring :=
  match decodeURI url with
  | None => Throw URIError
  | Some URI =>
    if negb (matchesVintedURI URI)
    then Throw (Error (lit "Invalid URI format"))
    else if negb (length (split URI (lit "?")) =? 2)%nat
    then Throw (Error (lit "Invalid URI parameters"))
    else
      let queryString := pluralize (nth 1 (split URI (lit "?")) []) in
      let params := split queryString (lit "&") in
      match organize params [] with
      | Throw e => Throw e
      | Ok paramsObject =>
        Ok (formatParams (Object_keys paramsObject) paramsObject [])
      end
  end.

(** ** Values produced by [JSON.parse]

    A number keeps its source text: the handler never inspects one.  An
    array carries, besides its elements, the named properties assigned to
    it afterwards. *)

#[warnings="-register-all"]
Inductive jsvalue : Type :=
| JNull
| JBool (b : bool)
| JNumber (text : jsstring)
| JString (s : jsstring)
| JArray (elements : list jsvalue) (props : list (jsstring * jsvalue))
| JObject (members : list (jsstring * jsvalue)).

Fixpoint member (ms : list (jsstring * jsvalue)) (k : jsstring)
  : option jsvalue :=
  match ms with
  | [] => None
  | (k', v) :: r => if streq k' k then Some v else member r k
  end.

(** Defining property [k]: an existing one keeps its place and takes the
    new value, a new one comes last. *)
Fixpoint define (ms : list (jsstring * jsvalue)) (k : jsstring) (v : jsvalue)
  : list (jsstring * jsvalue) :=
  match ms with
  | [] => [(k, v)]
  | (k', v') :: r =>
    if streq k' k then (k', v) :: r else (k', v') :: define r k v
  end.

(** [json.message_code]: a [TypeError] on [null], [undefined] (here
    [None]) on the other primitives and on an object without the
    property. *)
Definition get_message_code (json : jsvalue) : outcome (option jsvalue) :=
  match json with
  | JNull => Throw TypeError
  | JBool _ | JNumber _ | JString _ => Ok None
  | JArray _ props => Ok (member props (lit "message_code"))
  | JObject members => Ok (member members (lit "message_code"))
  end.

(** [json.proxy = proxy]: the module is strict code, so the assignment
    throws on a primitive as it does on [null]. *)
Definition set_proxy (json : jsvalue) (proxy : jsstring) : outcome jsvalue :=
  match json with
  | JNull | JBool _ | JNumber _ | JString _ => Throw TypeError
  | JArray elements props =>
    Ok (JArray elements (define props (lit "proxy") (JString proxy)))
  | JObject members => Ok (JObject (define members (lit "proxy") (JString proxy)))
  end.

(** [v === "..."] for a value read from a property. *)
Definition strictEquals (v : option jsvalue) (s : jsstring) : bool :=
  match v with
  | Some (JString s') => streq s' s
  | _ => false
  end.

(** [typeof json === "object" && json !== null] *)
Definition isObject (json : jsvalue) : bool :=
  match json with
  | JArray _ _ | JObject _ => true
  | _ => false
  end.

(** ** The transport *)

Record Request : Type := mkRequest {
  url : jsstring;                (* first argument of [fetch] *)
  cookie : option jsstring;      (* [headers.cookie], when given *)
  agent : option jsstring        (* the proxy of [HttpsProxyAgent(proxy)] *)
}.

Record Response : Type := mkResponse {
  set_cookie : option jsstring;  (* [res.headers.get("set-cookie")] *)
  text : jsstring                (* [await res.text()] *)
}.

(** What a call [fetch(url, { headers, agent })] comes to. *)
Inductive Delivery : Type :=
| Raised (what : jsstring)    (* [HttpsProxyAgent] or [fetch] threw: nothing sent *)
| Rejected (what : jsstring)  (* the promise, or that of [res.text()], rejects *)
| Responded (res : Response).

Inductive event : Type :=
| GetProxy (result : reply jsstring)
| Fetch (req : Request) (d : Delivery).

(** [proxy !== "" ? HttpsProxyAgent(proxy) : undefined] *)
Definition agentFor (proxy : jsstring) : option jsstring :=
  if negb (streq proxy []) then Some proxy else None.

(** [!this.#sessionCookie]: no cookie yet, or an empty one. *)
Definition noSession (c : option jsstring) : bool :=
  match c with
  | None => true
  | Some [] => true
  | Some (_ :: _) => false
  end.

(** [`${this.#sessionCookie}`] *)
Definition cookieText (c : option jsstring) : jsstring :=
  match c with
  | Some t => t
  | None => lit "undefined"
  end.

(** ** Reading a journal (latest event first) *)

(** Every [fetch] comes right after a successful [getProxy()] of its own
    and goes through the proxy obtained there. *)
Inductive fresh_proxies : list event -> Prop :=
| fresh_nil : fresh_proxies []
| fresh_failed (what : jsstring) (l : list event) :
    fresh_proxies l -> fresh_proxies (GetProxy (Failed what) :: l)
| fresh_fetch (req : Request) (d : Delivery) (proxy : jsstring) (l : list event) :
    agent req = agentFor proxy ->
    fresh_proxies l ->
    fresh_proxies (Fetch req d :: GetProxy (Returned proxy) :: l).

(** The request goes through [proxy]: through no proxy at all when it is
    the empty string. *)
Definition through (proxy : jsstring) (req : Request) : Prop :=
  match proxy with
  | [] => agent req = None
  | _ :: _ => agent req = Some proxy
  end.

(** Every [fetch] comes right after a successful [getProxy()] of its own
    and goes through what it returned. *)
Inductive own_proxies : list event -> Prop :=
| own_nil : own_proxies []
| own_failed (what : jsstring) (l : list event) :
    own_proxies l -> own_proxies (GetProxy (Failed what) :: l)
| own_fetch (req : Request) (d : Delivery) (proxy : jsstring) (l : list event) :
    through proxy req ->
    own_proxies l ->
    own_proxies (Fetch req d :: GetProxy (Returned proxy) :: l).

(** No proxy source was asked and every [fetch] went without a proxy. *)
Definition direct (l : list event) : Prop :=
  Forall (fun e => match e with
                   | Fetch req _ => agent req = None
                   | GetProxy _ => False
                   end) l.

(** The requests that left: a [fetch] that did not throw on the spot. *)
Definition dispatched (l : list event) : nat :=
  length (filter (fun e => match e with
                           | Fetch _ (Raised _) => false
                           | Fetch _ _ => true
                           | GetProxy _ => false
                           end) l).

(** The attempts that failed on the spot: [getProxy()] threw, or
    [HttpsProxyAgent] or [fetch] did. *)
Definition failures (l : list event) : nat :=
  length (filter (fun e => match e with
                           | Fetch _ (Raised _) => true
                           | GetProxy (Failed _) => true
                           | _ => false
                           end) l).

(** Every [fetch] went to [target] and carried no cookie. *)
Definition unauthenticated (target : jsstring) (l : list event) : Prop :=
  Forall (fun e => match e with
                   | Fetch req _ => url req = target /\ cookie req = None
                   | GetProxy _ => True
                   end) l.


(** The errors by which [#request] turns a response down. *)
Definition isClassificationFailure (e : exn) : bool :=
  match e with
  | SyntaxError => true
  | Error message =>
    streq message (lit "Request rate limit exceeded")
    || streq message (lit "Bad Gateway")
    || streq message (lit "not_found")
  | _ => false
  end.

(** The cookie value as the specification words it: what follows the
    cookie segment in the header, up to the next [;]. *)
Definition specifiedCookieValue (header : jsstring) : option jsstring :=
  option_map (fun rest => before rest (lit ";"))
             (after header (lit "_vinted_fr_session=")).

(** The classification of a response body as the specification words it
    (section 4.2, step 5), for a parser [parse]. *)
Inductive classification : Type :=
| RateLimited
| GatewayError
| MalformedJson
| StaleToken
| NotFound
| Success (payload : jsvalue).

(** The status field of steps e and f: the [message_code] of the parsed
    object, if it has one. *)
Definition status (obj : jsvalue) : option jsvalue :=
  match obj with
  | JObject members => member members (lit "message_code")
  | JArray _ props => member props (lit "message_code")
  | _ => None
  end.

Definition classify (parse : jsstring -> option jsvalue) (body : jsstring)
  : classification :=
  if includes body (lit "Request rate limit exceeded") then RateLimited
  else if includes body (lit "<") then GatewayError
  else match parse body with
       | None => MalformedJson
       | Some obj =>
         if strictEquals (status obj) (lit "invalid_authentication_token")
         then StaleToken
         else if strictEquals (status obj) (lit "not_found") then NotFound
         else Success obj
       end.

(** Step d: the parsed object with the proxy used, if any, noted on it. *)
Definition annotated (proxy : jsstring) (obj : jsvalue) : jsvalue :=
  if negb (streq proxy []) then
    match obj with
    | JObject members => JObject (define members (lit "proxy") (JString proxy))
    | JArray elements props =>
      JArray elements (define props (lit "proxy") (JString proxy))
    | other => other
    end
  else obj.

(** The collaborators of the class: the state of the network and of the
    imported [ProxyHandler], what [getProxy()] and [fetch] do with them,
    and [JSON.parse]. *)
Class Collaborators : Type := {
  World : Type;
  ProxyHandler : Type;
  getProxy : ProxyHandler -> reply jsstring * ProxyHandler;
  fetch : Request -> World -> Delivery * World;
  JSON_parse : jsstring -> option jsvalue
}.

Section Handler.

Context {node : Collaborators}.

(** An instance of the class: its two private fields, the network it
    talks to, and a journal (latest first) of the calls it made to its
    collaborators. *)
Record VintedScraper : Type := mkScraper {
  proxyHandler : option ProxyHandler;
  sessionCookie : option jsstring;
  world : World;
  journal : list event
}.

(** What a stretch of the journal looks like, with and without a proxy
    source. *)
Definition shaped (h : option ProxyHandler) (l : list event) : Prop :=
  match h with
  | Some _ => fresh_proxies l
  | None => direct l
  end.

(** A method body: it returns or throws, and leaves a new state. *)
Definition Step (A : Type) : Type := VintedScraper -> outcome A * VintedScraper.

(** A method with a recursion or a loop, run to a given depth: [None]
    when the depth does not suffice. *)
Definition Run (A : Type) : Type :=
  VintedScraper -> option (outcome A * VintedScraper).

Definition ret {A} (a : A) : Step A := fun st => (Ok a, st).
Definition throw {A} (e : exn) : Step A := fun st => (Throw e, st).
Definition bind {A B} (m : Step A) (k : A -> Step B) : Step B :=
  fun st =>
    match m st with
    | (Ok a, st') => k a st'
    | (Throw e, st') => (Throw e, st')
    end.
Definition andThen {A B} (m : Step A) (k : A -> Run B) : Run B :=
  fun st =>
    match m st with
    | (Ok a, st') => k a st'
    | (Throw e, st') => Some (Throw e, st')
    end.
Definition finish {A} (m : Step A) : Run A := fun st => Some (m st).
Definition lift {A} (o : outcome A) : Step A := fun st => (o, st).

Notation "x <- m ;; k" := (bind m (fun x => k))
  (at level 61, m at next level, right associativity).
Notation "x <-- m ;; k" := (andThen m (fun x => k))
  (at level 61, m at next level, right associativity).

(** [let proxy = ""; if (this.#proxyHandler) proxy = this.#proxyHandler.getProxy();] *)
Definition obtainProxy : Step jsstring :=
  fun st =>
    match proxyHandler st with
    | None => (Ok [], st)
    | Some h =>
      let (r, h') := getProxy h in
      (outcome_of_reply r,
       {| proxyHandler := Some h'; sessionCookie := sessionCookie st;
          world := world st; journal := GetProxy r :: journal st |})
    end.

Definition call_fetch (req : Request) (st : VintedScraper)
  : Delivery * VintedScraper :=
  let (d, w') := fetch req (world st) in
  (d, {| proxyHandler := proxyHandler st; sessionCookie := sessionCookie st;
         world := w'; journal := Fetch req d :: journal st |}).

(** [await fetch(...)] followed by [await res.text()]. *)
Definition await_fetch (req : Request) : Step Response :=
  fun st =>
    match call_fetch req st with
    | (Raised what, st') => (Throw (Foreign what), st')
    | (Rejected what, st') => (Throw (Foreign what), st')
    | (Responded res, st') => (Ok res, st')
    end.

(** [fetch(...)] without [await]: only a synchronous throw is seen. *)
Definition dispatch (req : Request) : Step unit :=
  fun st =>
    match call_fetch req st with
    | (Raised what, st') => (Throw (Foreign what), st')
    | (_, st') => (Ok tt, st')
    end.

(** [this.#sessionCookie = c] *)
Definition withSessionCookie (st : VintedScraper) (c : jsstring)
  : VintedScraper :=
  {| proxyHandler := proxyHandler st; sessionCookie := Some c;
     world := world st; journal := journal st |}.

Definition setSessionCookie (c : jsstring) : Step unit :=
  fun st => (Ok tt, withSessionCookie st c).

(** [#fetchSessionCookie] *)
Definition fetchSessionCookie : Step unit :=
  proxy <- obtainProxy ;;
  res <- await_fetch {| url := lit "https://vinted.de"; cookie := None;
                        agent := agentFor proxy |} ;;
  match set_cookie res with
  | None => throw (Error (lit "Cannot fetch cookie"))
  | Some header =>
    if negb (includes header (lit "_vinted_fr_session"))
    then throw (Error (lit "Cannot fetch cookie"))
    else
      match at_index (split header (lit "_vinted_fr_session=")) 1 with
      | None => throw TypeError
      | Some segment => setSessionCookie (nth 0 (split segment (lit ";")) [])
      end
  end.

(** [if (!this.#sessionCookie) await this.#fetchSessionCookie();] *)
Definition ensureSession : Step unit :=
  fun st =>
    if noSession (sessionCookie st) then fetchSessionCookie st else (Ok tt, st).

Definition readSessionCookie : Step (option jsstring) :=
  fun st => (Ok (sessionCookie st), st).

(** [#request]; [fuel] bounds the depth of the recursion. *)
Fixpoint request (fuel : nat) (target : jsstring) : Run jsvalue :=
  match fuel with
  | O => fun _ => None
  | S fuel' =>
    _ <-- ensureSession ;;
    proxy <-- obtainProxy ;;
    token <-- readSessionCookie ;;
    res <-- await_fetch
              {| url := target;
                 cookie := Some (lit "_vinted_fr_session=" ++ cookieText token);
                 agent := agentFor proxy |} ;;
    if includes (text res) (lit "Request rate limit exceeded")
    then finish (throw (Error (lit "Request rate limit exceeded")))
    else if includes (text res) (lit "<")
    then finish (throw (Error (lit "Bad Gateway")))
    else
      match JSON_parse (text res) with
      | None => finish (throw SyntaxError)
      | Some parsed =>
        json <-- (if negb (streq proxy []) then lift (set_proxy parsed proxy)
                  else ret parsed) ;;
        message_code <-- lift (get_message_code json) ;;
        if strictEquals message_code (lit "invalid_authentication_token")
        then _ <-- fetchSessionCookie ;; request fuel' target
        else if strictEquals message_code (lit "not_found")
        then finish (throw (Error (lit "not_found")))
        else finish (ret json)
      end
  end.

(** One pass through the body of [#request], up to the recursive call:
    it returns the payload, or has renewed the session cookie and is to
    be taken again. *)
Inductive pass : Type :=
| Return (json : jsvalue)
| Retry.

Definition attempt (target : jsstring) : Step pass :=
  _ <- ensureSession ;;
  proxy <- obtainProxy ;;
  token <- readSessionCookie ;;
  res <- await_fetch
           {| url := target;
              cookie := Some (lit "_vinted_fr_session=" ++ cookieText token);
              agent := agentFor proxy |} ;;
  if includes (text res) (lit "Request rate limit exceeded")
  then throw (Error (lit "Request rate limit exceeded"))
  else if includes (text res) (lit "<")
  then throw (Error (lit "Bad Gateway"))
  else
    match JSON_parse (text res) with
    | None => throw SyntaxError
    | Some parsed =>
      json <- (if negb (streq proxy []) then lift (set_proxy parsed proxy)
               else ret parsed) ;;
      message_code <- lift (get_message_code json) ;;
      if strictEquals message_code (lit "invalid_authentication_token")
      then _ <- fetchSessionCookie ;; ret Retry
      else if strictEquals message_code (lit "not_found")
      then throw (Error (lit "not_found"))
      else ret (Return json)
    end.

(** [k] passes in a row that each end in a renewal. *)
Fixpoint retries (k : nat) (target : jsstring) (st : VintedScraper)
  : option VintedScraper :=
  match k with
  | O => Some st
  | S k' =>
    match attempt target st with
    | (Ok Retry, st') => retries k' target st'
    | _ => None
    end
  end.

(** [search] *)
Definition search (fuel : nat) (source : jsstring) : Run jsvalue :=
  fun st =>
    match getQueryParameters source with
    | Throw e => Some (Throw e, st)
    | Ok queryString =>
      request fuel
        (lit "https://www.vinted.be/api/v2/catalog/items?" ++ queryString) st
    end.

(** The [try] block of [boostItem]. *)
Definition boostOnce (target : jsstring) : Step unit :=
  proxy <- obtainProxy ;;
  dispatch {| url := target; cookie := None; agent := agentFor proxy |}.

(** The loop of [boostItem], entered with the counter at [i]; [views] is
    an integral count.  The [catch] block takes one off the counter
    before the loop adds one. *)
Fixpoint boostLoop (fuel : nat) (target : jsstring) (views i : Z)
  : Run unit :=
  match fuel with
  | O => fun _ => None
  | S fuel' =>
    if (i <? views)%Z then
      fun st =>
        match boostOnce target st with
        | (Ok _, st') => boostLoop fuel' target views (i + 1)%Z st'
        | (Throw _, st') => boostLoop fuel' target views (i - 1 + 1)%Z st'
        end
    else finish (ret tt)
  end.

(** [boostItem] *)
Definition boostItem (fuel : nat) (target : jsstring) (views : Z) : Run unit :=
  boostLoop fuel target views 0%Z.

End Handler.

(** ** A reading of [JSON.parse]

    The grammar of ECMA-404, by recursive descent.  The theorems on the
    handler hold for any parser; this one instantiates them. *)

Module JSON.

Fixpoint skipWS (s : jsstring) : jsstring :=
  match s with
  | c :: t =>
    if ((c =? 9) || (c =? 10) || (c =? 13) || (c =? 32))%N then skipWS t else s
  | [] => []
  end.

Definition escape (c : N) : option N :=
  (if c =? 34 then Some 34 else if c =? 92 then Some 92
   else if c =? 47 then Some 47 else if c =? 98 then Some 8
   else if c =? 102 then Some 12 else if c =? 110 then Some 10
   else if c =? 114 then Some 13 else if c =? 116 then Some 9
   else None)%N.

(** The characters of a string, after its opening quote. *)
Fixpoint parseString (s : jsstring) (acc : jsstring)
  : option (jsstring * jsstring) :=
  match s with
  | [] => None
  | c :: t =>
    if (c =? 34)%N then Some (rev acc, t)
    else if (c =? 92)%N then
      match t with
      | e :: t' =>
        if (e =? 117)%N then
          match t' with
          | h1 :: h2 :: h3 :: h4 :: t'' =>
            match hexDigit h1, hexDigit h2, hexDigit h3, hexDigit h4 with
            | Some a, Some b, Some c', Some d =>
              parseString t'' ((4096 * a + 256 * b + 16 * c' + d)%N :: acc)
            | _, _, _, _ => None
            end
          | _ => None
          end
        else
          match escape e with
          | Some x => parseString t' (x :: acc)
          | None => None
          end
      | [] => None
      end
    else if (c <? 32)%N then None
    else parseString t (c :: acc)
  end.

Fixpoint span (f : N -> bool) (s : jsstring) : jsstring * jsstring :=
  match s with
  | c :: t => if f c then let (a, b) := span f t in (c :: a, b) else ([], s)
  | [] => ([], [])
  end.

(** At least one digit. *)
Definition digits (s : jsstring) : option (jsstring * jsstring) :=
  match span isDigit s with
  | ([], _) => None
  | (ds, r) => Some (ds, r)
  end.

Definition parseNumber (s : jsstring) : option (jsstring * jsstring) :=
  let (sign, s1) :=
      match s with
      | 45%N :: t => ([45%N], t)
      | _ => ([], s)
      end in
  match s1 with
  | c :: t =>
    match (if (c =? 48)%N then Some ([c], t) else digits s1) with
    | None => None
    | Some (int, s2) =>
      match
        (match s2 with
         | 46%N :: t2 =>
           match digits t2 with
           | Some (ds, r) => Some (46%N :: ds, r)
           | None => None
           end
         | _ => Some ([], s2)
         end) with
      | None => None
      | Some (frac, s3) =>
        match s3 with
        | e :: t3 =>
          if ((e =? 101) || (e =? 69))%N then
            let (esign, t4) :=
                match t3 with
                | x :: t4 =>
                  if ((x =? 43) || (x =? 45))%N then ([x], t4) else ([], t3)
                | [] => ([], t3)
                end in
            match digits t4 with
            | Some (ds, r) => Some (sign ++ int ++ frac ++ e :: esign ++ ds, r)
            | None => None
            end
          else Some (sign ++ int ++ frac, s3)
        | [] => Some (sign ++ int ++ frac, s3)
        end
      end
    end
  | [] => None
  end.

Fixpoint parseValue (fuel : nat) (s : jsstring) : option (jsvalue * jsstring) :=
  match fuel with
  | O => None
  | S f =>
    match skipWS s with
    | [] => None
    | c :: t =>
      if (c =? 34)%N then
        match parseString t [] with
        | Some (str, r) => Some (JString str, r)
        | None => None
        end
      else if (c =? 91)%N then
        match skipWS t with
        | 93%N :: r => Some (JArray [] [], r)
        | _ => parseElements f t []
        end
      else if (c =? 123)%N then
        match skipWS t with
        | 125%N :: r => Some (JObject [], r)
        | _ => parseMembers f t []
        end
      else
        match stripPrefix (c :: t) (lit "null"), stripPrefix (c :: t) (lit "true"),
              stripPrefix (c :: t) (lit "false") with
        | Some r, _, _ => Some (JNull, r)
        | _, Some r, _ => Some (JBool true, r)
        | _, _, Some r => Some (JBool false, r)
        | None, None, None =>
          match parseNumber (c :: t) with
          | Some (n, r) => Some (JNumber n, r)
          | None => None
          end
        end
    end
  end
with parseElements (fuel : nat) (s : jsstring) (acc : list jsvalue)
  : option (jsvalue * jsstring) :=
  match fuel with
  | O => None
  | S f =>
    match parseValue f s with
    | Some (v, r) =>
      match skipWS r with
      | 44%N :: r' => parseElements f r' (v :: acc)
      | 93%N :: r' => Some (JArray (rev (v :: acc)) [], r')
      | _ => None
      end
    | None => None
    end
  end
with parseMembers (fuel : nat) (s : jsstring) (acc : list (jsstring * jsvalue))
  : option (jsvalue * jsstring) :=
  match fuel with
  | O => None
  | S f =>
    match skipWS s with
    | 34%N :: t =>
      match parseString t [] with
      | Some (k, r) =>
        match skipWS r with
        | 58%N :: r' =>
          match parseValue f r' with
          | Some (v, r'') =>
            match skipWS r'' with
            | 44%N :: r3 => parseMembers f r3 (define acc k v)
            | 125%N :: r3 => Some (JObject (define acc k v), r3)
            | _ => None
            end
          | None => None
          end
        | _ => None
        end
      | None => None
      end
    | _ => None
    end
  end.

Definition parse (text : jsstring) : option jsvalue :=
  match parseValue (2 * length text + 2) text with
  | Some (v, r) =>
    match skipWS r with
    | [] => Some v
    | _ :: _ => None
    end
  | None => None
  end.

End JSON.

(** ** Scripted collaborators

    Concrete networks and proxy sources on which the handler can be run. *)

Module Script.

(** A JSON text written with ['] for the quotation mark. *)
Definition json (s : string) : jsstring :=
  map (fun c => if (c =? 39)%N then 34%N else c) (lit s).

Arguments json s%_string.

(** A network that delivers the scripted results in order, whatever is
    asked, and resets the connection when the script is over. *)
Definition deliver (req : Request) (w : list Delivery)
  : Delivery * list Delivery :=
  match w with
  | d :: rest => (d, rest)
  | [] => (Rejected (lit "ECONNRESET"), [])
  end.

(** A proxy source that hands out its proxies in rotation. *)
Definition rotate (h : list jsstring) : reply jsstring * list jsstring :=
  match h with
  | p :: rest => (Returned p, rest ++ [p])
  | [] => (Failed (lit "no proxy"), [])
  end.

Definition scripted : Collaborators :=
  {| World := list Delivery; ProxyHandler := list jsstring;
     getProxy := rotate; fetch := deliver; JSON_parse := JSON.parse |}.

Definition start (h : option (list jsstring)) (c : option jsstring)
           (w : list Delivery) : @VintedScraper scripted :=
  @mkScraper scripted h c w [].

Definition body (t : jsstring) : Delivery :=
  Responded {| set_cookie := None; text := t |}.

Definition cookies (h : jsstring) : Delivery :=
  Responded {| set_cookie := Some h; text := [] |}.

Definition stale : Delivery :=
  body (json "{'message_code':'invalid_authentication_token'}").

(** A server that never accepts a token: every request with a cookie is
    answered with the sentinel, every request without one with a new
    session cookie. *)
Definition reject (req : Request) (w : unit) : Delivery * unit :=
  match cookie req with
  | Some _ => (stale, tt)
  | None => (cookies (lit "_vinted_fr_session=abc; path=/"), tt)
  end.

Definition rejecting : Collaborators :=
  {| World := unit; ProxyHandler := list jsstring;
     getProxy := rotate; fetch := reject; JSON_parse := JSON.parse |}.

(** The number of requests for a session cookie in a journal. *)
Definition acquisitions (j : list event) : nat :=
  length (filter (fun e => match e with
                           | Fetch req _ =>
                             match cookie req with None => true | Some _ => false end
                           | GetProxy _ => false
                           end) j).

(** The number of authenticated requests in a journal. *)
Definition attempts (j : list event) : nat :=
  length (filter (fun e => match e with
                           | Fetch req _ =>
                             match cookie req with None => false | Some _ => true end
                           | GetProxy _ => false
                           end) j).

(** The endpoint asked for in the scenarios. *)
Definition endpoint : jsstring := lit "https://www.vinted.be/api/v2/users/1".

(** A payload, and the object it parses to. *)
Definition payload : jsstring := json "{'id':1}".
Definition parsedPayload : jsvalue := JObject [(lit "id", JNumber (lit "1"))].

(** A token is held and the site refuses it twice before it answers. *)
Definition refusedTwice : @VintedScraper scripted :=
  start None (Some (lit "T0"))
        [stale; cookies (lit "_vinted_fr_session=T1; path=/");
         stale; cookies (lit "_vinted_fr_session=T2; path=/");
         body payload].

(** A token is held, two proxies rotate, and the site refuses the token
    once. *)
Definition refusedOnce : @VintedScraper scripted :=
  start (Some [lit "http://p1:80"; lit "http://p2:80"; lit "http://p3:80"])
        (Some (lit "T0"))
        [stale; cookies (lit "lang=fr; path=/, _vinted_fr_session=T1; path=/");
         body payload].

(** A token is held, the site refuses it once, and after the renewal
    answers that there is no such resource. *)
Definition refusedThenMissing : @VintedScraper scripted :=
  start None (Some (lit "T0"))
        [stale; cookies (lit "_vinted_fr_session=T1; path=/");
         body (json "{'message_code':'not_found'}")].

(** Collaborators that never fail: one proxy, and a site that answers
    every request. *)
Definition steady : Collaborators :=
  {| World := unit; ProxyHandler := unit;
     getProxy := fun h => (Returned (lit "http://p1:80"), h);
     fetch := fun _ w => (body payload, w);
     JSON_parse := JSON.parse |}.

Definition calm : @VintedScraper steady := @mkScraper steady (Some tt) None tt [].

(** A network on which starting a request fails every other time. *)
Definition flaky : @VintedScraper scripted :=
  start (Some [lit "http://p1:80"]) None
        [Raised (lit "ERR_INVALID_URL"); body payload;
         Raised (lit "ERR_INVALID_URL"); body payload; body payload].

(** A token is held and the site answers once, with the given body. *)
Definition answered (h : option (list jsstring)) (b : jsstring)
  : @VintedScraper scripted :=
  start h (Some (lit "T0")) [body b].

(** No token is held and the site answers with the given [set-cookie]. *)
Definition greeted (c : option jsstring) (header : option jsstring)
  : @VintedScraper scripted :=
  start None c [Responded {| set_cookie := header; text := [] |}].

End Script.

(** ** The rest of the class: the constructor and the two identifier
       endpoints *)

(** The decimal digits of an integer, with a minus sign when negative. *)
Definition decimal (id : Z) : jsstring :=
  lit (DecimalString.NilZero.string_of_int (Z.to_int id)).

(** The Number nearest to the positive integer [m], ties to even: the
    integer itself up to 53 bits, else its leading 53 bits rounded; [None]
    when the result is beyond the largest Number. *)
Definition roundToNumber (m : Z) : option Z :=
  let bits := (Z.log2 m + 1)%Z in
  if (bits <=? 53)%Z then Some m
  else
    let e := (bits - 53)%Z in
    let q := Z.shiftr m e in
    let r := (m - Z.shiftl q e)%Z in
    let half := Z.shiftl 1 (e - 1) in
    let q' := if (half <? r)%Z || ((r =? half)%Z && Z.odd q) then (q + 1)%Z else q in
    let v := Z.shiftl q' e in
    if (2 ^ 1024 <=? v)%Z then None else Some v.

(** The digits [s] and the position [n] of the decimal point for the
    Number [x], above 2^53: the fewest digits [k] such that [s * 10^(n-k)]
    is a number nearest to which is [x], and among those the closest to
    [x], the even one on a tie. *)
Definition candidate (x : Z) (d k : nat) : option (Z * nat) :=
  let p := (10 ^ Z.of_nat (d - k))%Z in
  let lo := (x / p)%Z in
  let hi := (lo + 1)%Z in
  let fits (s : Z) :=
      match roundToNumber (s * p) with
      | Some y => (y =? x)%Z
      | None => false
      end in
  let low := (lo, d) in
  let high := if (hi =? 10 ^ Z.of_nat k)%Z then (1%Z, S d) else (hi, d) in
  match fits lo, fits hi with
  | true, true =>
    let below := (x - lo * p)%Z in
    let above := (hi * p - x)%Z in
    if (below <? above)%Z then Some low
    else if (above <? below)%Z then Some high
    else if Z.even lo then Some low else Some high
  | true, false => Some low
  | false, true => Some high
  | false, false => None
  end.

Fixpoint shortest (x : Z) (d : nat) (ks : list nat) : Z * nat :=
  match ks with
  | [] => (x, d)
  | k :: rest =>
    match candidate x d k with
    | Some found => found
    | None => shortest x d rest
    end
  end.

(** Number::toString for the digits [s] with the decimal point after [n]
    places, [n] being at least the number of digits. *)
Definition render (s : Z) (n : nat) : jsstring :=
  let digits := decimal s in
  if (n <=? 21)%nat then digits ++ repeat 48%N (n - length digits)
  else
    match digits with
    | [] => []
    | c :: [] => c :: lit "e+" ++ decimal (Z.of_nat (n - 1))
    | c :: rest => c :: lit "." ++ rest ++ lit "e+" ++ decimal (Z.of_nat (n - 1))
    end.

(** [`${id}`] for an argument that denotes the integer [id]: the Number
    nearest to it, printed as Number::toString prints it. *)
Definition numberToString (id : Z) : jsstring :=
  if (Z.abs id <=? 9007199254740992)%Z then decimal id
  else
    (if (id <? 0)%Z then lit "-" else [])
      ++ match roundToNumber (Z.abs id) with
         | None => lit "Infinity"
         | Some x =>
           let d := length (decimal x) in
           let (s, n) := shortest x d (seq 1 d) in
           render s n
         end.

(** [parts.join(sep)]. *)
Fixpoint join (sep : jsstring) (parts : list jsstring) : jsstring :=
  match parts with
  | [] => []
  | [p] => p
  | p :: rest => p ++ sep ++ join sep rest
  end.

(** A key or a value that holds neither [&] nor [=]. *)
Definition plain (s : jsstring) : Prop :=
  forall x, In x s -> x <> 38%N /\ x <> 61%N.

(** [`${key}=${value}`] *)
Definition parameter (kv : jsstring * jsstring) : jsstring :=
  fst kv ++ lit "=" ++ snd kv.

(** The invariant of the object under construction: its keys are pairwise
    distinct, and neither keys nor values hold a separator. *)
Definition tidy (o : object) : Prop :=
  NoDup (map fst o) /\ Forall (fun kv => plain (fst kv) /\ plain (snd kv)) o.

(** [paramObject !== "time"] *)
Definition listed (k : jsstring) : bool := negb (streq k (lit "time")).

(** A key of the object with the text its value is rendered as. *)
Definition entry (o : object) (k : jsstring) : jsstring * jsstring :=
  (k, toString (getProperty o k)).

(** [param.split("=")[0]] *)
Definition keyOf (param : jsstring) : jsstring :=
  nth 0 (split param (lit "=")) [].

(** The keys met so far, in order of first appearance, after meeting
    [keys]. *)
Fixpoint firsts (seen keys : list jsstring) : list jsstring :=
  match keys with
  | [] => seen
  | k :: rest =>
    firsts (if existsb (fun k' => streq k' k) seen then seen else seen ++ [k])
           rest
  end.

(** [(param.split("=")[0], param.split("=")[1])] *)
Definition pairOf (param : jsstring) : jsstring * jsstring :=
  (keyOf param, nth 1 (split param (lit "=")) []).

(** A key that is neither an array index nor the name of something every
    object inherits. *)
Definition ordinary (k : jsstring) : bool :=
  match arrayIndex k, getProperty [] k with
  | None, Undefined => true
  | _, _ => false
  end.

(** The merge as the specification words it, with the one amendment that
    the values of a key count from its first non-empty one on: the values
    of each key, in the order met, joined by commas; the keys in the order
    of their first appearance. *)
Definition valuesOf (k : jsstring) (pairs : list (jsstring * jsstring))
  : list jsstring :=
  map snd (filter (fun kv => streq (fst kv) k) pairs).

Fixpoint skipEmpty (values : list jsstring) : list jsstring :=
  match values with
  | [] :: rest => skipEmpty rest
  | _ => values
  end.

Definition merged (values : list jsstring) : jsstring :=
  join (lit ",") (skipEmpty values).

Definition specifiedMerge (pairs : list (jsstring * jsstring))
  : list (jsstring * jsstring) :=
  map (fun k => (k, merged (valuesOf k pairs))) (firsts [] (map fst pairs)).

(** The result as the specification words it: the merged parameters
    other than [time], each as [key=value], joined by [&]. *)
Definition specifiedQuery (pairs : list (jsstring * jsstring)) : jsstring :=
  join (lit "&")
       (map parameter (filter (fun kv => listed (fst kv)) (specifiedMerge pairs))).

(** What [#fetchSessionCookie] stores on a response, if it stores
    anything. *)
Definition extractCookie (res : Response) : option jsstring :=
  match set_cookie res with
  | Some header =>
    if includes header (lit "_vinted_fr_session") then
      match at_index (split header (lit "_vinted_fr_session=")) 1 with
      | Some segment => Some (nth 0 (split segment (lit ";")) [])
      | None => None
      end
    else None
  | None => None
  end.

(** Replaying a stretch of journal, oldest event first, from the token
    [held] at its start: every request without a cookie goes to the site's
    root and, when answered, may renew the token; every request with a
    cookie goes to [target] and carries a token that is held at that
    moment.  The result is the token held at the end, or [None] if some
    event is not of this kind. *)
Fixpoint tokenTrace (target : jsstring) (held : option jsstring)
         (chronicle : list event) : option (option jsstring) :=
  match chronicle with
  | [] => Some held
  | GetProxy _ :: rest => tokenTrace target held rest
  | Fetch req d :: rest =>
    match cookie req with
    | None =>
      if streq (url req) (lit "https://vinted.de") then
        tokenTrace target
                   (match d with
                    | Responded res =>
                      match extractCookie res with
                      | Some token => Some token
                      | None => held
                      end
                    | _ => held
                    end) rest
      else None
    | Some c =>
      match held with
      | Some token =>
        if streq (url req) target
           && streq c (lit "_vinted_fr_session=" ++ token)
        then tokenTrace target held rest
        else None
      | None => None
      end
    end
  end.

(** The same for a stretch of journal as it is kept, latest event
    first. *)
Definition replays (target : jsstring) (held : option jsstring)
           (new : list event) (held' : option jsstring) : Prop :=
  tokenTrace target held (rev new) = Some held'.

(** The first request of a chronicle (oldest event first). *)
Fixpoint firstFetch (chronicle : list event) : option (Request * Delivery) :=
  match chronicle with
  | [] => None
  | Fetch req d :: _ => Some (req, d)
  | GetProxy _ :: rest => firstFetch rest
  end.

(** [json[k]] for a name [k] that is not an array index: a named property
    of a parsed object or array. *)
Definition ownMember (json : jsvalue) (k : jsstring) : option jsvalue :=
  match json with
  | JObject members => member members k
  | JArray _ props => member props k
  | _ => None
  end.

(** The elements of a parsed array. *)
Definition elementsOf (json : jsvalue) : list jsvalue :=
  match json with
  | JArray elements _ => elements
  | _ => []
  end.

(** The error an event ended in, when a collaborator failed there. *)
Definition raisedBy (e : event) : option jsstring :=
  match e with
  | GetProxy (Failed what) => Some what
  | Fetch _ (Raised what) => Some what
  | Fetch _ (Rejected what) => Some what
  | _ => None
  end.

(** No collaborator failed. *)
Definition quiet (l : list event) : Prop :=
  Forall (fun e => raisedBy e = None) l.

(** A stretch of journal (latest first) that goes with the outcome [o]:
    when [o] is the error of a collaborator, the latest event is the call
    that raised it and no earlier call failed; otherwise no call failed
    at all. *)
Definition ending {A} (o : outcome A) (new : list event) : Prop :=
  match o with
  | Throw (Foreign what) =>
    exists e rest, new = e :: rest /\ raisedBy e = Some what /\ quiet rest
  | _ => quiet new
  end.

Section Facade.

Context {node : Collaborators}.

(** The constructor: a proxy handler is made when an array of proxies is
    given, by [newProxyHandler] (the constructor of the imported
    [ProxyHandler]); no session cookie is held. *)
Definition construct (newProxyHandler : list jsstring -> ProxyHandler)
           (proxies : option (list jsstring)) (w : World) : VintedScraper :=
  {| proxyHandler := option_map newProxyHandler proxies;
     sessionCookie := None; world := w; journal := [] |}.

(** [fetchUser] *)
Definition fetchUser (fuel : nat) (id : Z) : Run jsvalue :=
  request fuel (lit "https://www.vinted.be/api/v2/users/" ++ numberToString id).

(** [fetchItem] *)
Definition fetchItem (fuel : nat) (id : Z) : Run jsvalue :=
  request fuel (lit "https://www.vinted.de/api/v2/items/" ++ numberToString id).

(** From [st] to [st'] the journal has grown by events that replay from
    the token of [st] to that of [st']. *)
Definition advances (target : jsstring) (st st' : VintedScraper) : Prop :=
  exists new,
    journal st' = new ++ journal st
    /\ replays target (sessionCookie st) new (sessionCookie st').

(** From [st] to [st'] the journal has grown by a stretch that goes with
    the outcome [o]. *)
Definition concludes {A} (o : outcome A) (st st' : VintedScraper) : Prop :=
  exists new, journal st' = new ++ journal st /\ ending o new.

End Facade.

(** Scenarios for the properties of the rest of the class. *)
Module Scenes.

Import Script.

(** An instance made with an empty array of proxies, on a network that
    would answer. *)
Definition unprovided : @VintedScraper scripted :=
  construct (node := scripted) (fun proxies => proxies) (Some [])
            [body payload; body payload].

(** A new instance without proxies; the site hands out a token and then
    answers. *)
Definition newcomer : @VintedScraper scripted :=
  construct (node := scripted) (fun proxies => proxies) None
            [cookies (lit "_vinted_fr_session=T1; path=/"); body payload].

(** A new instance with two proxies, on the same network. *)
Definition proxied : @VintedScraper scripted :=
  construct (node := scripted) (fun proxies => proxies)
            (Some [lit "http://p1:80"; lit "http://p2:80"])
            [cookies (lit "_vinted_fr_session=T1; path=/"); body payload].

End Scenes.

(** * Properties *)

(** ** The definitions on small inputs *)

Example split_on_every_separator :
  split (lit "a=b=c") (lit "=") = [lit "a"; lit "b"; lit "c"]
  /\ split (lit "a&&") (lit "&") = [lit "a"; []; []]
  /\ split [] (lit "&") = [[]]
  /\ split (lit "x_vinted_fr_session=T; y") (lit "_vinted_fr_session=")
     = [lit "x"; lit "T; y"].
Proof. repeat split. Qed.

Example replaceAll_resumes_after_the_match :
  replaceAll (lit "aaa") (lit "aa") (lit "b") = lit "ba"
  /\ replaceAll (lit "size[]=1&size[]=2") (lit "[]") (lit "s")
     = lit "sizes=1&sizes=2".
Proof. repeat split. Qed.

Example decodeURI_keeps_reserved_escapes :
  decodeURI (lit "%41%3F%e2%82%ac") = Some (lit "A%3F" ++ [8364%N])
  /\ decodeURI (lit "%F0%9F%98%80") = Some [55357%N; 56832%N]
  /\ decodeURI (lit "%C0%80") = None
  /\ decodeURI (lit "%ED%A0%80") = None
  /\ decodeURI (lit "100%") = None.
Proof. repeat split. Qed.

Example pattern_on_small_inputs :
  matchesVintedURI (lit "https://www.vinted.be/catalog?x=1") = true
  /\ matchesVintedURI (lit "https://vinted.fr/vetements?brand[]=5") = true
  /\ matchesVintedURI (lit "http://www.vinted.be/catalog?x=1") = false
  /\ matchesVintedURI (lit "https://www.vinted.be/catalog?") = false
  /\ matchesVintedURI (lit "https://www.vinted.be/catalog? x") = false
  /\ matchesVintedURI (lit "https://www.vinted.co.uk/catalog?x=1") = false
  /\ matchesVintedURI (lit "https://www.vinted.be/items?x=1") = false.
Proof. repeat split. Qed.

Example keys_in_property_order :
  Object_keys [(lit "b", lit "1"); (lit "10", lit "x"); (lit "2", lit "y");
               (lit "01", lit "z")]
  = [lit "2"; lit "10"; lit "b"; lit "01"].
Proof. reflexivity. Qed.

Example normalize_on_small_inputs :
  getQueryParameters (lit "https://www.vinted.be/catalog?b=1&2=x&1=y")
  = Ok (lit "1=y&2=x&b=1")
  /\ getQueryParameters (lit "https://www.vinted.be/catalog?a=&a=3&a=4")
     = Ok (lit "a=3,4")
  /\ getQueryParameters (lit "https://www.vinted.be/catalog?time=1")
     = Ok []
  /\ getQueryParameters (lit "https://www.vinted.be/catalog?a=1&a")
     = Throw (Error (lit "Invalid URI parameters: a")).
Proof. repeat split; vm_compute; reflexivity. Qed.

Example parse_on_small_inputs :
  JSON.parse (Script.json "{'a':[1,-2.5e3,null,true],'a':'x\u0041'}")
  = Some (JObject [(lit "a", JString (lit "xA"))])
  /\ JSON.parse (lit " [ ] ") = Some (JArray [] [])
  /\ JSON.parse (lit "null") = Some JNull
  /\ JSON.parse (lit "01") = None
  /\ JSON.parse (lit "[1,]") = None
  /\ JSON.parse (Script.json "{'a':1} x") = None
  /\ JSON.parse [] = None.
Proof. repeat split; vm_compute; reflexivity. Qed.

(** ** Strings *)

Lemma streq_eq (a b : jsstring) : streq a b = true <-> a = b.
Proof.
  revert b; induction a as [|x a IH]; intros [|y b]; simpl; split;
    try discriminate; try reflexivity.
  - intros H. apply andb_prop in H as [Hx Hab].
    apply N.eqb_eq in Hx. apply IH in Hab. congruence.
  - intros H. injection H as -> ->. rewrite N.eqb_refl. simpl. now apply IH.
Qed.

Lemma streq_refl (a : jsstring) : streq a a = true.
Proof. now apply streq_eq. Qed.

Lemma streq_neq (a b : jsstring) : streq a b = false <-> a <> b.
Proof.
  split.
  - intros H E. apply streq_eq in E. congruence.
  - intros H. destruct (streq a b) eqn:E; [|reflexivity].
    apply streq_eq in E. contradiction.
Qed.

Lemma startsWith_length (s p : jsstring) :
  startsWith s p = true -> (length p <= length s)%nat.
Proof.
  revert s; induction p as [|x p IH]; intros [|y s]; simpl; try lia; try discriminate.
  intros H. apply andb_prop in H as [_ H]. apply IH in H. lia.
Qed.

Lemma startsWith_split (s p : jsstring) :
  startsWith s p = true -> s = p ++ skipn (length p) s.
Proof.
  revert s; induction p as [|x p IH]; intros [|y s]; simpl; try discriminate;
    try reflexivity.
  intros H. apply andb_prop in H as [Hx H]. apply N.eqb_eq in Hx. subst y.
  f_equal. now apply IH.
Qed.


(** [after] finds an occurrence, and [before] is what precedes it. *)
Lemma after_before (s sep rest : jsstring) :
  after s sep = Some rest -> s = before s sep ++ sep ++ rest.
Proof.
  induction s as [|c t IH]; simpl.
  - destruct (startsWith [] sep) eqn:E; [|discriminate].
    intros H. injection H as <-. now apply startsWith_split in E.
  - destruct (startsWith (c :: t) sep) eqn:E.
    + intros H. injection H as <-. now apply startsWith_split in E.
    + intros H. simpl. f_equal. now apply IH.
Qed.

Lemma includes_after (s sep : jsstring) :
  includes s sep = true <-> after s sep <> None.
Proof.
  induction s as [|c t IH]; simpl.
  - destruct (startsWith [] sep); simpl; split; congruence.
  - destruct (startsWith (c :: t) sep); simpl; [split; congruence | exact IH].
Qed.

Lemma before_no_separator (s sep : jsstring) :
  after s sep = None -> before s sep = s.
Proof.
  induction s as [|c t IH]; simpl.
  - now destruct (startsWith [] sep).
  - destruct (startsWith (c :: t) sep); [discriminate|].
    intros H. f_equal. now apply IH.
Qed.

(** Stepping over [k] code units, then scanning. *)
Lemma split_scan_skip (sep : jsstring) (k : nat) :
  forall (s cur : jsstring), (k <= length s)%nat ->
    split_scan sep k cur s = split_scan sep 0 cur (skipn k s).
Proof.
  induction k as [|k IH]; intros s cur Hk; [reflexivity|].
  destruct s as [|c t]; simpl in *; [lia|]. apply IH. lia.
Qed.

(** [split] cuts at the first separator and goes on with the rest. *)
Lemma split_scan_first (sep : jsstring) :
  sep <> [] ->
  forall (s cur : jsstring),
    split_scan sep 0 cur s =
    match after s sep with
    | None => [rev cur ++ s]
    | Some rest => (rev cur ++ before s sep) :: split_scan sep 0 [] rest
    end.
Proof.
  intros Hsep. induction s as [|c t IH]; intros cur.
  - destruct sep as [|x sep]; [contradiction|]. simpl. now rewrite app_nil_r.
  - cbn [split_scan after before].
    destruct (startsWith (c :: t) sep) eqn:E.
    + rewrite app_nil_r. f_equal.
      pose proof (startsWith_length _ _ E) as Hlen.
      destruct sep as [|x sep]; [contradiction|]. simpl in Hlen.
      rewrite split_scan_skip by (simpl; lia).
      simpl. now rewrite Nat.sub_0_r.
    + rewrite IH. simpl. destruct (after t sep); now rewrite <- app_assoc.
Qed.

Lemma split_first (s sep : jsstring) :
  sep <> [] ->
  split s sep =
  match after s sep with
  | None => [s]
  | Some rest => before s sep :: split rest sep
  end.
Proof. intros H. unfold split. now rewrite split_scan_first. Qed.

Lemma split_head (s sep : jsstring) :
  sep <> [] -> nth 0 (split s sep) [] = before s sep.
Proof.
  intros H. rewrite split_first by assumption.
  destruct (after s sep) eqn:E; [reflexivity|].
  simpl. symmetry. now apply before_no_separator.
Qed.

Lemma split_second (s sep : jsstring) :
  sep <> [] ->
  at_index (split s sep) 1 =
  option_map (fun rest => before rest sep) (after s sep).
Proof.
  intros H. rewrite split_first by assumption.
  destruct (after s sep) as [rest|] eqn:E; [|reflexivity].
  simpl. rewrite <- split_head by assumption.
  unfold at_index. destruct (split rest sep) eqn:E2; [|reflexivity].
  rewrite split_first in E2 by assumption. now destruct (after rest sep).
Qed.

Lemma startsWith_prefix (s p q : jsstring) :
  startsWith s (p ++ q) = true -> startsWith s p = true.
Proof.
  revert s; induction p as [|x p IH]; intros s; simpl; [reflexivity|].
  destruct s as [|y s]; [discriminate|].
  intros H. apply andb_prop in H as [Hx H]. rewrite Hx. simpl. now apply IH.
Qed.

Lemma includes_prefix (s p q : jsstring) :
  includes s (p ++ q) = true -> includes s p = true.
Proof.
  induction s as [|c t IH]; cbn [includes]; intros H;
    apply orb_true_iff in H as [H|H].
  - apply startsWith_prefix in H. now rewrite H.
  - discriminate.
  - apply startsWith_prefix in H. now rewrite H.
  - apply IH in H. rewrite H. apply orb_true_r.
Qed.

(** ** Parsed values *)

Lemma member_define_other (ms : list (jsstring * jsvalue)) (k k' : jsstring)
      (v : jsvalue) :
  streq k k' = false -> member (define ms k v) k' = member ms k'.
Proof.
  intros Hk. induction ms as [|[k0 v0] r IH]; simpl.
  - now rewrite Hk.
  - destruct (streq k0 k) eqn:E0; simpl.
    + apply streq_eq in E0. subst k0. now rewrite Hk.
    + now rewrite IH.
Qed.

Lemma set_proxy_object (proxy : jsstring) (obj : jsvalue) :
  isObject obj = true ->
  (if negb (streq proxy []) then set_proxy obj proxy else Ok obj)
  = Ok (annotated proxy obj).
Proof.
  unfold annotated. destruct obj; try discriminate; intros _;
    now destruct (negb (streq proxy [])).
Qed.

Lemma set_proxy_annotated (proxy : jsstring) (obj json : jsvalue) :
  (if negb (streq proxy []) then set_proxy obj proxy else Ok obj) = Ok json ->
  json = annotated proxy obj.
Proof.
  unfold annotated. destruct (negb (streq proxy [])).
  - destruct obj; simpl; congruence.
  - congruence.
Qed.

Lemma status_annotated (proxy : jsstring) (obj : jsvalue) :
  isObject obj = true ->
  get_message_code (annotated proxy obj) = Ok (status obj).
Proof.
  unfold annotated.
  destruct obj; try discriminate; intros _;
    destruct (negb (streq proxy [])); simpl; try reflexivity;
    now rewrite member_define_other.
Qed.

Lemma status_object (obj : jsvalue) (s : jsstring) :
  strictEquals (status obj) s = true -> isObject obj = true.
Proof. destruct obj; simpl; try discriminate; reflexivity. Qed.

(** ** The steps of the handler *)

Section HandlerFacts.

Context {node : Collaborators}.

Ltac unfold_steps :=
  unfold andThen, bind, finish, throw, ret, lift, readSessionCookie,
    await_fetch, dispatch, setSessionCookie in *.

Ltac case_step :=
  match goal with
  | |- context [match ?x with _ => _ end] =>
    lazymatch x with
    | context [match _ with _ => _ end] => fail
    | _ => destruct x eqn:?
    end
  | |- context [if ?x then _ else _] =>
    lazymatch x with
    | context [match _ with _ => _ end] => fail
    | context [if _ then _ else _] => fail
    | _ => destruct x eqn:?
    end
  end.

(** A call of [#request] is one pass, followed when the pass ended in a
    renewal by another call. *)
Lemma request_attempt (fuel : nat) (target : jsstring) (st : VintedScraper) :
  request (S fuel) target st =
  match attempt target st with
  | (Ok (Return json), st') => Some (Ok json, st')
  | (Ok Retry, st') => request fuel target st'
  | (Throw e, st') => Some (Throw e, st')
  end.
Proof.
  cbn [request]. unfold attempt. unfold_steps.
  repeat (case_step; try reflexivity).
Qed.

(** What the steps leave untouched. *)
Lemma obtainProxy_frame (st st' : VintedScraper) (o : outcome jsstring) :
  obtainProxy st = (o, st') ->
  sessionCookie st' = sessionCookie st /\ world st' = world st.
Proof.
  unfold obtainProxy. destruct (proxyHandler st).
  - destruct (getProxy p). intros H. injection H as <- <-. now split.
  - intros H. injection H as <- <-. now split.
Qed.

Lemma call_fetch_frame (req : Request) (st st' : VintedScraper) (d : Delivery) :
  call_fetch req st = (d, st') ->
  sessionCookie st' = sessionCookie st /\
  proxyHandler st' = proxyHandler st /\
  journal st' = Fetch req d :: journal st.
Proof.
  unfold call_fetch. destruct (fetch req (world st)).
  intros H. injection H as <- <-. now repeat split.
Qed.

(** The outcomes of [#fetchSessionCookie] once the site has answered. *)
Lemma fetchSessionCookie_cases (st st1 st2 : VintedScraper)
      (proxy : jsstring) (res : Response) :
  obtainProxy st = (Ok proxy, st1) ->
  call_fetch {| url := lit "https://vinted.de"; cookie := None;
                agent := agentFor proxy |} st1 = (Responded res, st2) ->
  fetchSessionCookie st =
  match set_cookie res with
  | None => (Throw (Error (lit "Cannot fetch cookie")), st2)
  | Some header =>
    if includes header (lit "_vinted_fr_session") then
      match after header (lit "_vinted_fr_session=") with
      | Some rest =>
        (Ok tt,
         withSessionCookie st2
           (before (before rest (lit "_vinted_fr_session=")) (lit ";")))
      | None => (Throw TypeError, st2)
      end
    else (Throw (Error (lit "Cannot fetch cookie")), st2)
  end.
Proof.
  intros Hp Hf. unfold fetchSessionCookie. unfold_steps.
  rewrite Hp, Hf. destruct (set_cookie res) as [header|]; [|reflexivity].
  destruct (includes header (lit "_vinted_fr_session")); [|reflexivity].
  rewrite split_second by discriminate.
  destruct (after header (lit "_vinted_fr_session=")) as [rest|];
    cbn [negb option_map]; [|reflexivity].
  now rewrite split_head by discriminate.
Qed.

Lemma ensureSession_held (st : VintedScraper) :
  noSession (sessionCookie st) = false -> ensureSession st = (Ok tt, st).
Proof. unfold ensureSession. now intros ->. Qed.

Lemma status_plain (obj : jsvalue) :
  isObject obj = true -> get_message_code obj = Ok (status obj).
Proof. destruct obj; try discriminate; reflexivity. Qed.

(** One pass, once the site has answered: the classification of the
    body decides. *)
Lemma attempt_classified (target : jsstring) (st st1 st2 st3 : VintedScraper)
      (proxy : jsstring) (res : Response) :
  ensureSession st = (Ok tt, st1) ->
  obtainProxy st1 = (Ok proxy, st2) ->
  call_fetch
    {| url := target;
       cookie := Some (lit "_vinted_fr_session=" ++ cookieText (sessionCookie st2));
       agent := agentFor proxy |} st2 = (Responded res, st3) ->
  (forall parsed, JSON_parse (text res) = Some parsed -> isObject parsed = true) ->
  attempt target st =
  match classify JSON_parse (text res) with
  | RateLimited => (Throw (Error (lit "Request rate limit exceeded")), st3)
  | GatewayError => (Throw (Error (lit "Bad Gateway")), st3)
  | MalformedJson => (Throw SyntaxError, st3)
  | StaleToken =>
    match fetchSessionCookie st3 with
    | (Ok _, st4) => (Ok Retry, st4)
    | (Throw e, st4) => (Throw e, st4)
    end
  | NotFound => (Throw (Error (lit "not_found")), st3)
  | Success obj => (Ok (Return (annotated proxy obj)), st3)
  end.
Proof.
  intros He Hp Hf Hobj. unfold attempt, classify. unfold_steps.
  rewrite He, Hp, Hf.
  destruct (includes (text res) (lit "Request rate limit exceeded"));
    [reflexivity|].
  destruct (includes (text res) (lit "<")); [reflexivity|].
  destruct (JSON_parse (text res)) as [parsed|]; [|reflexivity].
  specialize (Hobj parsed eq_refl).
  pose proof (set_proxy_object proxy parsed Hobj) as Hs.
  pose proof (status_annotated proxy parsed Hobj) as Hm.
  destruct (negb (streq proxy []));
    [rewrite Hs | injection Hs as Hs; rewrite <- Hs in Hm];
    rewrite Hm;
    (destruct (strictEquals (status parsed) (lit "invalid_authentication_token"));
     [ destruct (fetchSessionCookie st3) as [[[]|e] st4]; reflexivity
     | destruct (strictEquals (status parsed) (lit "not_found"));
       congruence ]).
Qed.

(** C2. The body of a response is classified in this order, whatever it
    parses to: the rate limit message first, whatever else the body
    holds; then a [<] anywhere in it; then a body that does not parse;
    then the sentinel of a stale token, which renews the cookie and takes
    the call again; then the sentinel [not_found]; and any other parsed
    object is returned, with the proxy noted on it when one was used. *)
Theorem request_classifies (fuel : nat) (target : jsstring)
        (st st1 st2 st3 : VintedScraper) (proxy : jsstring) (res : Response) :
  ensureSession st = (Ok tt, st1) ->
  obtainProxy st1 = (Ok proxy, st2) ->
  call_fetch
    {| url := target;
       cookie := Some (lit "_vinted_fr_session=" ++ cookieText (sessionCookie st2));
       agent := agentFor proxy |} st2 = (Responded res, st3) ->
  match classify JSON_parse (text res) with
  | RateLimited =>
    request (S fuel) target st
    = Some (Throw (Error (lit "Request rate limit exceeded")), st3)
  | GatewayError =>
    request (S fuel) target st = Some (Throw (Error (lit "Bad Gateway")), st3)
  | MalformedJson =>
    request (S fuel) target st = Some (Throw SyntaxError, st3)
  | StaleToken =>
    request (S fuel) target st
    = match fetchSessionCookie st3 with
      | (Ok _, st4) => request fuel target st4
      | (Throw e, st4) => Some (Throw e, st4)
      end
  | NotFound =>
    request (S fuel) target st = Some (Throw (Error (lit "not_found")), st3)
  | Success obj =>
    isObject obj = true ->
    request (S fuel) target st = Some (Ok (annotated proxy obj), st3)
  end.
Proof.
  intros He Hp Hf.
  assert (Hearly :
            forall message json,
              includes (text res) (lit "Request rate limit exceeded")
              || includes (text res) (lit "<") = true ->
              message = (if includes (text res) (lit "Request rate limit exceeded")
                         then lit "Request rate limit exceeded"
                         else lit "Bad Gateway") ->
              JSON_parse (text res) = Some json ->
              request (S fuel) target st = Some (Throw (Error message), st3)).
  { intros message json Hin -> _. rewrite request_attempt. unfold attempt.
    unfold_steps. rewrite He, Hp, Hf.
    destruct (includes (text res) (lit "Request rate limit exceeded"));
      [reflexivity|].
    cbn [orb] in Hin. now rewrite Hin. }
  destruct (JSON_parse (text res)) as [parsed|] eqn:Hparse.
  - destruct (isObject parsed) eqn:Hobj.
    + assert (Hall : forall p, JSON_parse (text res) = Some p -> isObject p = true)
        by (intros p H; rewrite Hparse in H; now injection H as <-).
      rewrite request_attempt,
        (attempt_classified target st st1 st2 st3 proxy res He Hp Hf Hall).
      destruct (classify JSON_parse (text res)); try reflexivity.
      now destruct (fetchSessionCookie st3) as [[[]|e] st4].
    + unfold classify. rewrite Hparse.
      destruct (includes (text res) (lit "Request rate limit exceeded")) eqn:Er.
      * apply (Hearly _ parsed); reflexivity.
      * destruct (includes (text res) (lit "<")) eqn:El.
        -- apply (Hearly _ parsed); reflexivity.
        -- destruct parsed; try discriminate Hobj; cbn [status strictEquals];
             intros H; discriminate H.
  - assert (Hall : forall p, JSON_parse (text res) = Some p -> isObject p = true)
      by (intros p H; rewrite Hparse in H; discriminate H).
    rewrite request_attempt,
      (attempt_classified target st st1 st2 st3 proxy res He Hp Hf Hall).
    destruct (classify JSON_parse (text res)); try reflexivity.
    now destruct (fetchSessionCookie st3) as [[[]|e] st4].
Qed.


Lemma fetchSessionCookie_stores (st st1 st2 : VintedScraper)
      (proxy : jsstring) (res : Response) :
  obtainProxy st = (Ok proxy, st1) ->
  call_fetch {| url := lit "https://vinted.de"; cookie := None;
                agent := agentFor proxy |} st1 = (Responded res, st2) ->
  forall header rest,
    set_cookie res = Some header ->
    after header (lit "_vinted_fr_session=") = Some rest ->
    fetchSessionCookie st =
    (Ok tt,
     withSessionCookie st2
       (before (before rest (lit "_vinted_fr_session=")) (lit ";"))).
Proof.
  intros Hp Hf header rest Hh Hrest.
  rewrite (fetchSessionCookie_cases st st1 st2 proxy res Hp Hf), Hh.
  assert (Hin : includes header (lit "_vinted_fr_session") = true).
  { apply (includes_prefix header (lit "_vinted_fr_session") (lit "=")).
    change (lit "_vinted_fr_session" ++ lit "=")
      with (lit "_vinted_fr_session=").
    apply includes_after. congruence. }
  now rewrite Hin, Hrest.
Qed.

(** C7, as the code has it. Once the site has answered, the acquisition
    fails with the error "Cannot fetch cookie" exactly when the [set-cookie] header
    is absent or does not contain the cookie name; and when the header
    contains [_vinted_fr_session=], it stores, in place of whatever was
    held, the text that follows the first [_vinted_fr_session=] up to
    the next [;] or the next [_vinted_fr_session=], whichever comes
    first, or up to the end of the header. *)
Theorem session_acquisition (st st1 st2 : VintedScraper) (proxy : jsstring)
        (res : Response) :
  obtainProxy st = (Ok proxy, st1) ->
  call_fetch {| url := lit "https://vinted.de"; cookie := None;
                agent := agentFor proxy |} st1 = (Responded res, st2) ->
  (fst (fetchSessionCookie st) = Throw (Error (lit "Cannot fetch cookie")) <->
   match set_cookie res with
   | None => True
   | Some header => includes header (lit "_vinted_fr_session") = false
   end)
  /\
  (forall header rest,
      set_cookie res = Some header ->
      after header (lit "_vinted_fr_session=") = Some rest ->
      fetchSessionCookie st =
      (Ok tt,
       withSessionCookie st2
         (before (before rest (lit "_vinted_fr_session=")) (lit ";")))).
Proof.
  intros Hp Hf. rewrite (fetchSessionCookie_cases st st1 st2 proxy res Hp Hf). split.
  - destruct (set_cookie res) as [header|]; [|now split].
    destruct (includes header (lit "_vinted_fr_session")).
    + destruct (after header (lit "_vinted_fr_session=")); simpl;
        split; discriminate.
    + now split.
  - rewrite <- (fetchSessionCookie_cases st st1 st2 proxy res Hp Hf).
    now apply (fetchSessionCookie_stores st st1 st2 proxy res).
Qed.

(** ** Retries *)

(** C1, as the code has it. Every pass that ends on the sentinel of a
    stale token renews the cookie and is followed by another full pass, without any
    bound: after [k] such passes in a row the call goes on as a fresh
    call would from the state reached, and it has not returned yet;
    nothing in the handler raises an error of its own for a token
    refused twice. *)
Theorem stale_token_retry_unbounded (k fuel : nat) (target : jsstring)
        (st st' : VintedScraper) :
  retries k target st = Some st' ->
  request (k + fuel) target st = request fuel target st' /\
  request k target st = None.
Proof.
  revert st. induction k as [|k IH]; intros st Hk.
  - injection Hk as <-. now split.
  - cbn [retries] in Hk.
    destruct (attempt target st) as [[[json|]|e] st1] eqn:Ha; try discriminate.
    destruct (IH st1 Hk) as [IH1 IH2].
    split.
    + cbn [Nat.add]. now rewrite request_attempt, Ha.
    + now rewrite request_attempt, Ha.
Qed.

(** ** Journals *)

Lemma fresh_proxies_app (l1 l2 : list event) :
  fresh_proxies l1 -> fresh_proxies l2 -> fresh_proxies (l1 ++ l2).
Proof.
  induction 1 as [|what l H IH|req d proxy l Ha H IH]; intros H2; simpl.
  - assumption.
  - constructor. now apply IH.
  - constructor; [assumption | now apply IH].
Qed.

Lemma shaped_nil (h : option ProxyHandler) : shaped h [].
Proof. destruct h; simpl; [constructor | apply Forall_nil]. Qed.

Lemma shaped_app (h : option ProxyHandler) (l1 l2 : list event) :
  shaped h l1 -> shaped h l2 -> shaped h (l1 ++ l2).
Proof.
  destruct h; simpl.
  - apply fresh_proxies_app.
  - intros H1 H2. apply Forall_app. now split.
Qed.

(** The step [obtainProxy] followed by a [fetch] through the proxy. *)
Lemma obtainProxy_cases (st st' : VintedScraper) (o : outcome jsstring) :
  obtainProxy st = (o, st') ->
  sessionCookie st' = sessionCookie st /\
  match proxyHandler st with
  | None => o = Ok [] /\ st' = st
  | Some _ =>
    exists r, o = outcome_of_reply r /\
              journal st' = GetProxy r :: journal st /\
              proxyHandler st' <> None
  end.
Proof.
  unfold obtainProxy. destruct (proxyHandler st) as [h|].
  - destruct (getProxy h) as [r h']. intros H. injection H as <- <-.
    split; [reflexivity|]. exists r. now repeat split.
  - intros H. injection H as <- <-. now repeat split.
Qed.

Lemma proxied_fetch (st s1 s2 : VintedScraper) (proxy : jsstring)
      (req : Request) (d : Delivery) :
  obtainProxy st = (Ok proxy, s1) ->
  call_fetch req s1 = (d, s2) ->
  agent req = agentFor proxy ->
  sessionCookie s2 = sessionCookie st /\
  (proxyHandler st = None <-> proxyHandler s2 = None) /\
  exists new,
    journal s2 = Fetch req d :: new ++ journal st /\
    shaped (proxyHandler st) (Fetch req d :: new) /\
    match proxyHandler st with
    | Some _ => new = [GetProxy (Returned proxy)]
    | None => proxy = [] /\ new = []
    end.
Proof.
  intros Hp Hf Ha.
  apply obtainProxy_cases in Hp as [Hc Hp].
  apply call_fetch_frame in Hf as (Hc' & Hh & Hj).
  split; [congruence|]. rewrite Hh, Hj.
  destruct (proxyHandler st) as [h|] eqn:Eh.
  - destruct Hp as (r & Hr & Hj1 & Hne).
    destruct r as [p|what]; [|discriminate]. injection Hr as <-.
    split; [split; [discriminate | intros E; contradiction] | ].
    exists [GetProxy (Returned proxy)]. rewrite Hj1.
    split; [reflexivity|]. split; [|reflexivity].
    simpl. constructor; [assumption | constructor].
  - destruct Hp as [Ho ->]. injection Ho as ->.
    split; [now split|]. exists [].
    split; [reflexivity|]. split; [|now split].
    simpl. apply Forall_cons; [exact Ha | apply Forall_nil].
Qed.

Lemma obtainProxy_failed (st s1 : VintedScraper) (e : exn) :
  obtainProxy st = (Throw e, s1) ->
  isClassificationFailure e = false /\
  (proxyHandler st = None <-> proxyHandler s1 = None) /\
  exists new, journal s1 = new ++ journal st /\ shaped (proxyHandler st) new.
Proof.
  intros Hp. apply obtainProxy_cases in Hp as [Hc Hp].
  destruct (proxyHandler st) as [h|] eqn:Eh.
  - destruct Hp as (r & Hr & Hj1 & Hne).
    destruct r as [p|what]; [discriminate|]. injection Hr as ->.
    split; [reflexivity|].
    split; [split; [discriminate | intros E; contradiction] | ].
    exists [GetProxy (Failed what)]. split; [assumption|].
    simpl. repeat constructor.
  - destruct Hp as [Ho _]. discriminate.
Qed.

(** What [#fetchSessionCookie] does to the state, whatever its result. *)
Lemma fetchSessionCookie_effect (st st' : VintedScraper) (o : outcome unit) :
  fetchSessionCookie st = (o, st') ->
  (proxyHandler st = None <-> proxyHandler st' = None) /\
  (exists new, journal st' = new ++ journal st /\ shaped (proxyHandler st) new) /\
  match o with
  | Ok _ => exists token, sessionCookie st' = Some token
  | Throw e => isClassificationFailure e = false
  end.
Proof.
  unfold fetchSessionCookie. unfold_steps.
  destruct (obtainProxy st) as [[proxy|e] s1] eqn:Hp.
  - destruct (call_fetch {| url := lit "https://vinted.de"; cookie := None;
                            agent := agentFor proxy |} s1) as [d s2] eqn:Hf.
    destruct (proxied_fetch _ _ _ _ _ _ Hp Hf eq_refl) as (Hc & Hh & new & Hj & Hs & _).
    assert (Hnew : exists new0, journal s2 = new0 ++ journal st /\
                                shaped (proxyHandler st) new0)
      by (eexists (_ :: _); split; [exact Hj | exact Hs]).
    destruct d as [what|what|res].
    + intros H. injection H as <- <-. now split; [|split].
    + intros H. injection H as <- <-. now split; [|split].
    + destruct (set_cookie res) as [header|].
      * destruct (negb (includes header (lit "_vinted_fr_session"))).
        -- intros H. injection H as <- <-. now split; [|split].
        -- destruct (at_index (split header (lit "_vinted_fr_session=")) 1).
           ++ intros H. injection H as <- <-.
              split; [exact Hh|]. split; [exact Hnew|]. now eexists.
           ++ intros H. injection H as <- <-. now split; [|split].
      * intros H. injection H as <- <-. now split; [|split].
  - intros H. injection H as <- <-.
    destruct (obtainProxy_failed _ _ _ Hp) as (He & Hh & Hnew).
    now split; [|split].
Qed.

Lemma ensureSession_effect (st st' : VintedScraper) (o : outcome unit) :
  ensureSession st = (o, st') ->
  (proxyHandler st = None <-> proxyHandler st' = None) /\
  (exists new, journal st' = new ++ journal st /\ shaped (proxyHandler st) new) /\
  match o with
  | Ok _ => exists token, sessionCookie st' = Some token
  | Throw e => isClassificationFailure e = false
  end.
Proof.
  unfold ensureSession. destruct (noSession (sessionCookie st)) eqn:En.
  - apply fetchSessionCookie_effect.
  - intros H. injection H as <- <-.
    split; [reflexivity|]. split; [exists []; split; [reflexivity | apply shaped_nil] | ].
    destruct (sessionCookie st) as [token|]; [now eexists | discriminate].
Qed.

Lemma shaped_same (h h' : option ProxyHandler) (l : list event) :
  (h = None <-> h' = None) -> shaped h l -> shaped h' l.
Proof.
  destruct h, h'; simpl; intros [H1 H2]; try easy.
  - now specialize (H2 eq_refl).
  - now specialize (H1 eq_refl).
Qed.

(** What one pass does to the state, and what its result tells. *)
Lemma attempt_effect (target : jsstring) (st st' : VintedScraper)
      (o : outcome pass) :
  attempt target st = (o, st') ->
  (proxyHandler st = None <-> proxyHandler st' = None) /\
  exists new,
    journal st' = new ++ journal st /\
    shaped (proxyHandler st) new /\
    match o with
    | Ok (Return json) =>
      exists req res rest proxy parsed,
        new = Fetch req (Responded res) :: rest /\
        url req = target /\
        JSON_parse (text res) = Some parsed /\
        json = annotated proxy parsed /\
        match proxyHandler st with
        | Some _ => exists rest', rest = GetProxy (Returned proxy) :: rest'
        | None => proxy = []
        end
    | Ok Retry => True
    | Throw e =>
      isClassificationFailure e = true ->
      exists req res rest token,
        new = Fetch req (Responded res) :: rest /\
        url req = target /\
        sessionCookie st' = Some token /\
        cookie req = Some (lit "_vinted_fr_session=" ++ token)
    end.
Proof.
  unfold attempt. unfold_steps. unfold Step.
  destruct (ensureSession st) as [[[]|e0] s1] eqn:He;
    destruct (ensureSession_effect _ _ _ He) as (Hh0 & (new0 & Hj0 & Hs0) & Ho0).
  2:{ intros H. injection H as <- <-. split; [exact Hh0|].
      exists new0. split; [exact Hj0|]. split; [exact Hs0|]. congruence. }
  destruct Ho0 as [token Htok].
  destruct (obtainProxy s1) as [[proxy|e1] s2] eqn:Hp.
  2:{ intros H. injection H as <- <-.
      destruct (obtainProxy_failed _ _ _ Hp) as (He1 & Hh1 & new1 & Hj1 & Hs1).
      split; [tauto|]. exists (new1 ++ new0).
      split; [rewrite Hj1, Hj0; apply app_assoc|].
      split; [|congruence].
      apply shaped_app; [|exact Hs0].
      apply (shaped_same (proxyHandler s1)); [tauto | exact Hs1]. }
  match goal with
  | |- context [call_fetch ?r s2] => set (req := r)
  end.
  destruct (call_fetch req s2) as [d s3] eqn:Hf.
  destruct (proxied_fetch s1 s2 s3 proxy req d Hp Hf eq_refl)
    as (Hc & Hh1 & new1 & Hj1 & Hs1 & Hform).
  assert (Hh : proxyHandler st = None <-> proxyHandler s3 = None) by tauto.
  assert (Hj : journal s3 = (Fetch req d :: new1 ++ new0) ++ journal st).
  { rewrite Hj1, Hj0. simpl. now rewrite app_assoc. }
  assert (Hs : shaped (proxyHandler st) (Fetch req d :: new1 ++ new0)).
  { change (shaped (proxyHandler st) ((Fetch req d :: new1) ++ new0)).
    apply shaped_app; [|exact Hs0].
    apply (shaped_same (proxyHandler s1)); [tauto | exact Hs1]. }
  assert (Hcookie : cookie req = Some (lit "_vinted_fr_session=" ++ token)).
  { subst req. cbn [cookie].
    destruct (obtainProxy_frame _ _ _ Hp) as [Hc2 _]. now rewrite Hc2, Htok. }
  assert (Htoken : sessionCookie s3 = Some token) by congruence.
  assert (Hrest : match proxyHandler st with
                  | Some _ => exists rest', new1 ++ new0 = GetProxy (Returned proxy) :: rest'
                  | None => proxy = []
                  end).
  { destruct (proxyHandler st) eqn:E0, (proxyHandler s1) eqn:E1;
      try (exfalso; intuition congruence).
    - subst new1. now eexists.
    - tauto. }
  clear He Hp Hf Hh0 Hj0 Hs0 Hh1 Hj1 Hs1 Hform Hc Htok.
  assert (Hterminal :
            forall e,
              (proxyHandler st = None <-> proxyHandler s3 = None) /\
              exists new,
                journal s3 = new ++ journal st /\
                shaped (proxyHandler st) new /\
                (isClassificationFailure e = true ->
                 forall res, d = Responded res ->
                 exists req0 res0 rest token0,
                   new = Fetch req0 (Responded res0) :: rest /\
                   url req0 = target /\
                   sessionCookie s3 = Some token0 /\
                   cookie req0 = Some (lit "_vinted_fr_session=" ++ token0))).
  { intros e. split; [exact Hh|]. eexists. split; [exact Hj|].
    split; [exact Hs|]. intros _ res ->.
    exists req, res, (new1 ++ new0), token. now repeat split. }
  destruct d as [what|what|res].
  - intros H. injection H as <- <-.
    destruct (Hterminal (Foreign what)) as (H1 & new & H2 & H3 & _).
    split; [exact H1|]. exists new. now repeat split.
  - intros H. injection H as <- <-.
    destruct (Hterminal (Foreign what)) as (H1 & new & H2 & H3 & _).
    split; [exact H1|]. exists new. now repeat split.
  - assert (Hthrow :
              forall e, (Throw e, s3) = (o, st') ->
              (forall e', e = e' -> isClassificationFailure e' = true -> True) ->
              (proxyHandler st = None <-> proxyHandler st' = None) /\
              exists new,
                journal st' = new ++ journal st /\
                shaped (proxyHandler st) new /\
                match o with
                | Ok (Return json) =>
                  exists req res rest proxy parsed,
                  new = Fetch req (Responded res) :: rest /\
                  url req = target /\
                  JSON_parse (text res) = Some parsed /\
                  json = annotated proxy parsed /\
                  match proxyHandler st with
                  | Some _ => exists rest', rest = GetProxy (Returned proxy) :: rest'
                  | None => proxy = []
                  end
                | Ok Retry => True
                | Throw e =>
                  isClassificationFailure e = true ->
                  exists req res rest token,
                  new = Fetch req (Responded res) :: rest /\
                  url req = target /\
                  sessionCookie st' = Some token /\
                  cookie req = Some (lit "_vinted_fr_session=" ++ token)
                end).
    { intros e H _. injection H as <- <-.
      destruct (Hterminal e) as (H1 & new & H2 & H3 & H4).
      split; [exact H1|]. exists new. split; [exact H2|]. split; [exact H3|].
      intros Hcf. exact (H4 Hcf res eq_refl). }
    destruct (includes (text res) (lit "Request rate limit exceeded"));
      [intros H; now apply (Hthrow _ H)|].
    destruct (includes (text res) (lit "<"));
      [intros H; now apply (Hthrow _ H)|].
    destruct (JSON_parse (text res)) as [parsed|] eqn:Hparse;
      [|intros H; now apply (Hthrow _ H)].
    destruct (if negb (streq proxy []) then set_proxy parsed proxy else Ok parsed)
      as [json|e2] eqn:Hset.
    + assert (Hstep : (if negb (streq proxy [])
                       then fun st0 : VintedScraper => (set_proxy parsed proxy, st0)
                       else fun st0 : VintedScraper => (Ok parsed, st0)) s3
                      = (Ok json, s3))
        by (destruct (negb (streq proxy [])); now rewrite Hset).
      rewrite Hstep. clear Hstep.
      apply set_proxy_annotated in Hset.
      destruct (get_message_code json) as [message_code|e3];
        [|intros H; now apply (Hthrow _ H)].
      destruct (strictEquals message_code (lit "invalid_authentication_token")).
      * destruct (fetchSessionCookie s3) as [[[]|e4] s4] eqn:Hrenew;
          destruct (fetchSessionCookie_effect _ _ _ Hrenew)
          as (Hh4 & (new4 & Hj4 & Hs4) & Ho4);
          intros H; injection H as <- <-;
            (split; [tauto|]);
            exists (new4 ++ Fetch req (Responded res) :: new1 ++ new0);
            (split; [rewrite Hj4, Hj; now rewrite <- app_assoc|]);
            (split; [apply shaped_app;
                     [apply (shaped_same (proxyHandler s3)); [tauto | exact Hs4]
                     | exact Hs]|]);
            [exact I | congruence].
      * destruct (strictEquals message_code (lit "not_found"));
          [intros H; now apply (Hthrow _ H)|].
        intros H. injection H as <- <-.
        split; [exact Hh|]. eexists. split; [exact Hj|]. split; [exact Hs|].
        exists req, res, (new1 ++ new0), proxy, parsed. now repeat split.
    + assert (Hstep : (if negb (streq proxy [])
                       then fun st0 : VintedScraper => (set_proxy parsed proxy, st0)
                       else fun st0 : VintedScraper => (Ok parsed, st0)) s3
                      = (Throw e2, s3))
        by (destruct (negb (streq proxy [])); now rewrite Hset).
      rewrite Hstep. intros H. now apply (Hthrow _ H).
Qed.

(** C9. When a call of [#request] ends on a classification failure (rate
    limit, gateway, malformed JSON, not found), the last thing it did
    was the GET of that attempt, and the session cookie it holds is the
    one this GET carried: nothing has touched the cookie since the GET
    was issued. *)
Theorem classification_failure_keeps_token (fuel : nat) (target : jsstring)
        (st st' : VintedScraper) (e : exn) :
  request fuel target st = Some (Throw e, st') ->
  isClassificationFailure e = true ->
  exists req res rest token,
    journal st' = Fetch req (Responded res) :: rest /\
    url req = target /\
    sessionCookie st' = Some token /\
    cookie req = Some (lit "_vinted_fr_session=" ++ token).
Proof.
  revert st. induction fuel as [|fuel IH]; intros st H Hcf; [discriminate|].
  rewrite request_attempt in H.
  destruct (attempt target st) as [[[json|]|e0] s1] eqn:Ha.
  - discriminate.
  - now apply (IH s1).
  - injection H as -> ->.
    destruct (attempt_effect _ _ _ _ Ha) as (_ & new & Hj & _ & Hthrow).
    destruct (Hthrow Hcf) as (req & res & rest & token & -> & Hu & Ht & Hc).
    exists req, res, (rest ++ journal st), token. now repeat split.
Qed.

(** The payload returned is the parse of the last answer, with the proxy
    the last attempt obtained noted on it. *)
Lemma payload_of_last_attempt (fuel : nat) (target : jsstring)
        (st st' : VintedScraper) (json : jsvalue) :
  request fuel target st = Some (Ok json, st') ->
  exists new,
    journal st' = new ++ journal st /\
    match proxyHandler st with
    | Some _ =>
      fresh_proxies new /\
      exists req res proxy rest parsed,
        new = Fetch req (Responded res) :: GetProxy (Returned proxy) :: rest /\
        url req = target /\
        agent req = agentFor proxy /\
        JSON_parse (text res) = Some parsed /\
        json = annotated proxy parsed
    | None =>
      direct new /\
      exists req res rest,
        new = Fetch req (Responded res) :: rest /\
        url req = target /\
        agent req = None /\
        JSON_parse (text res) = Some json
    end.
Proof.
  revert st. induction fuel as [|fuel IH]; intros st H; [discriminate|].
  rewrite request_attempt in H.
  destruct (attempt target st) as [[[json0|]|e0] s1] eqn:Ha; [| |discriminate];
    destruct (attempt_effect _ _ _ _ Ha) as (Hh & new & Hj & Hs & Hret).
  - injection H as -> ->.
    destruct Hret as (req & res & rest & proxy & parsed & -> & Hu & Hp & -> & Hrest).
    exists (Fetch req (Responded res) :: rest). split; [exact Hj|].
    destruct (proxyHandler st); simpl in Hs.
    + split; [exact Hs|]. destruct Hrest as [rest' ->].
      exists req, res, proxy, rest', parsed.
      inversion Hs; subst. now repeat split.
    + split; [exact Hs|]. subst proxy.
      exists req, res, rest. inversion Hs; subst. now repeat split.
  - destruct (IH s1 H) as (new' & Hj' & Hlast).
    exists (new' ++ new). split; [rewrite Hj', Hj; apply app_assoc|].
    destruct (proxyHandler st) eqn:E0, (proxyHandler s1) eqn:E1;
      try (exfalso; intuition congruence); simpl in Hs.
    + destruct Hlast as (Hf & req & res & proxy & rest & parsed & -> & Hrest).
      split; [now apply fresh_proxies_app|].
      exists req, res, proxy, (rest ++ new), parsed. now split.
    + destruct Hlast as (Hd & req & res & rest & -> & Hrest).
      split; [apply Forall_app; now split|].
      exists req, res, (rest ++ new). now split.
Qed.

Lemma classify_stale_object (body : jsstring) :
  classify JSON_parse body = StaleToken ->
  forall parsed, JSON_parse body = Some parsed -> isObject parsed = true.
Proof.
  unfold classify.
  destruct (includes body (lit "Request rate limit exceeded")); [discriminate|].
  destruct (includes body (lit "<")); [discriminate|].
  destruct (JSON_parse body) as [obj|]; [|discriminate].
  destruct (strictEquals (status obj) (lit "invalid_authentication_token")) eqn:E.
  - intros _ parsed H. injection H as <-. now apply status_object in E.
  - now destruct (strictEquals (status obj) (lit "not_found")).
Qed.

Lemma classify_success_parsed (body : jsstring) (obj : jsvalue) :
  classify JSON_parse body = Success obj -> JSON_parse body = Some obj.
Proof.
  unfold classify.
  destruct (includes body (lit "Request rate limit exceeded")); [discriminate|].
  destruct (includes body (lit "<")); [discriminate|].
  destruct (JSON_parse body) as [obj'|]; [|discriminate].
  destruct (strictEquals (status obj') (lit "invalid_authentication_token"));
    [discriminate|].
  destruct (strictEquals (status obj') (lit "not_found")); congruence.
Qed.

(** C5. A first response that carries the sentinel of a stale token
    and a second one, after the renewal, that is a success payload: the
    call returns that payload; the renewal is run although a token is
    held, it replaces that token by the one extracted from the site's
    answer, and the second attempt carries the new one. *)
Theorem stale_then_success (fuel : nat) (target : jsstring)
        (st s0 s1 s2 s3 s4 s5 s6 : VintedScraper)
        (token header rest : jsstring) (p1 p2 p3 : jsstring)
        (r1 rc r2 : Response) (obj : jsvalue) :
  let renewed := before (before rest (lit "_vinted_fr_session=")) (lit ";") in
  ensureSession st = (Ok tt, s0) ->
  sessionCookie s0 = Some token ->
  obtainProxy s0 = (Ok p1, s1) ->
  call_fetch {| url := target;
                cookie := Some (lit "_vinted_fr_session=" ++ token);
                agent := agentFor p1 |} s1 = (Responded r1, s2) ->
  classify JSON_parse (text r1) = StaleToken ->
  obtainProxy s2 = (Ok p2, s3) ->
  call_fetch {| url := lit "https://vinted.de"; cookie := None;
                agent := agentFor p2 |} s3 = (Responded rc, s4) ->
  set_cookie rc = Some header ->
  after header (lit "_vinted_fr_session=") = Some rest ->
  renewed <> [] ->
  obtainProxy (withSessionCookie s4 renewed) = (Ok p3, s5) ->
  call_fetch {| url := target;
                cookie := Some (lit "_vinted_fr_session=" ++ renewed);
                agent := agentFor p3 |} s5 = (Responded r2, s6) ->
  classify JSON_parse (text r2) = Success obj ->
  isObject obj = true ->
  request (S (S fuel)) target st = Some (Ok (annotated p3 obj), s6) /\
  sessionCookie s2 = Some token /\
  fetchSessionCookie s2 = (Ok tt, withSessionCookie s4 renewed) /\
  sessionCookie s6 = Some renewed.
Proof.
  intros renewed He Htok Hp1 Hf1 Hc1 Hp2 Hfc Hh Hrest Hrn Hp3 Hf2 Hc2 Hobj.
  assert (Hrenew : fetchSessionCookie s2 = (Ok tt, withSessionCookie s4 renewed)).
  { exact (fetchSessionCookie_stores s2 s3 s4 p2 rc Hp2 Hfc header rest Hh Hrest). }
  destruct (obtainProxy_frame _ _ _ Hp1) as [Hk1 _].
  destruct (call_fetch_frame _ _ _ _ Hf1) as (Hk2 & _ & _).
  destruct (obtainProxy_frame _ _ _ Hp3) as [Hk5 _].
  destruct (call_fetch_frame _ _ _ _ Hf2) as (Hk6 & _ & _).
  assert (Hheld : ensureSession (withSessionCookie s4 renewed)
                  = (Ok tt, withSessionCookie s4 renewed)).
  { apply ensureSession_held. cbn [withSessionCookie sessionCookie].
    now destruct renewed. }
  split; [|split; [congruence | split; [exact Hrenew | ] ] ].
  - rewrite request_attempt.
    rewrite (attempt_classified target st s0 s1 s2 p1 r1 He Hp1).
    + rewrite Hc1, Hrenew. rewrite request_attempt.
      rewrite (attempt_classified target (withSessionCookie s4 renewed)
                 (withSessionCookie s4 renewed) s5 s6 p3 r2 Hheld Hp3).
      * now rewrite Hc2.
      * now rewrite Hk5.
      * intros parsed Hparsed. apply classify_success_parsed in Hc2. congruence.
    + now rewrite Hk1, Htok.
    + now apply classify_stale_object.
  - rewrite Hk6, Hk5. reflexivity.
Qed.

(** ** [boostItem] *)

Lemma dispatched_app (l1 l2 : list event) :
  dispatched (l1 ++ l2) = (dispatched l1 + dispatched l2)%nat.
Proof. unfold dispatched. now rewrite filter_app, length_app. Qed.

Lemma failures_app (l1 l2 : list event) :
  failures (l1 ++ l2) = (failures l1 + failures l2)%nat.
Proof. unfold failures. now rewrite filter_app, length_app. Qed.

(** One turn of the [try] block: a request left, or the attempt failed
    on the spot and nothing left. *)
Lemma boostOnce_effect (target : jsstring) (st st' : VintedScraper)
      (o : outcome unit) :
  boostOnce target st = (o, st') ->
  exists new,
    journal st' = new ++ journal st /\
    unauthenticated target new /\
    match o with
    | Ok _ => dispatched new = 1%nat /\ failures new = 0%nat
    | Throw _ => dispatched new = 0%nat /\ failures new = 1%nat
    end.
Proof.
  unfold boostOnce, obtainProxy, dispatch, call_fetch. unfold_steps.
  destruct (proxyHandler st) as [h|].
  - destruct (getProxy h) as [[proxy|what] h']; cbn [outcome_of_reply].
    + cbn [world journal].
      destruct (fetch _ (world st)) as [d w'].
      destruct d; intros H; injection H as <- <-; cbn [journal];
        (eexists [_; _]; split; [reflexivity|]; split;
         [repeat constructor | now split]).
    + intros H. injection H as <- <-. cbn [journal].
      exists [GetProxy (Failed what)]. split; [reflexivity|]. split;
        [repeat constructor | now split].
  - destruct (fetch _ (world st)) as [d w'].
    destruct d; intros H; injection H as <- <-; cbn [journal];
      (eexists [_]; split; [reflexivity|]; split;
       [repeat constructor | now split]).
Qed.

Lemma boostLoop_effect (target : jsstring) (views : Z) (fuel : nat) :
  forall (i : Z) (st st' : VintedScraper) (o : outcome unit),
    boostLoop fuel target views i st = Some (o, st') ->
    o = Ok tt /\
    exists new,
      journal st' = new ++ journal st /\
      unauthenticated target new /\
      dispatched new = Z.to_nat (views - i) /\
      (dispatched new + failures new < fuel)%nat.
Proof.
  induction fuel as [|fuel IH]; intros i st st' o H; [discriminate|].
  cbn [boostLoop] in H. destruct (i <? views)%Z eqn:Ei.
  - apply Z.ltb_lt in Ei.
    destruct (boostOnce target st) as [[[]|e] s1] eqn:Hb;
      destruct (boostOnce_effect _ _ _ _ Hb) as (new & Hj & Hu & Hd & Hf);
      destruct (IH _ _ _ _ H) as (-> & new' & Hj' & Hu' & Hd' & Hfuel);
      (split; [reflexivity|]); exists (new' ++ new);
        (split; [rewrite Hj', Hj; apply app_assoc|]);
        (split; [apply Forall_app; now split|]);
        rewrite dispatched_app, failures_app, Hd', Hd, Hf; split; lia.
  - apply Z.ltb_ge in Ei. unfold finish, ret in H. injection H as <- <-.
    split; [reflexivity|]. exists []. repeat split; try apply Forall_nil.
    + cbn. lia.
    + cbn. lia.
Qed.

Lemma boostLoop_terminates (target : jsstring) (views : Z) :
  (forall h, exists proxy h', getProxy h = (Returned proxy, h')) ->
  (forall req w what, fst (fetch req w) <> Raised what) ->
  forall (n : nat) (i : Z) (st : VintedScraper),
    Z.to_nat (views - i) = n ->
    exists st', boostLoop (S n) target views i st = Some (Ok tt, st').
Proof.
  intros Hproxy Hfetch.
  assert (Honce : forall st, exists st', boostOnce target st = (Ok tt, st')).
  { intros st. unfold boostOnce, obtainProxy, dispatch, call_fetch. unfold_steps.
    destruct (proxyHandler st) as [h|].
    - destruct (Hproxy h) as (proxy & h' & ->). cbn [outcome_of_reply world].
      match goal with
      | |- context [fetch ?r ?w] =>
        pose proof (Hfetch r w) as Hn; destruct (fetch r w) as [[what| |] w']
      end; [now contradiction (Hn what) | now eexists | now eexists].
    - match goal with
      | |- context [fetch ?r ?w] =>
        pose proof (Hfetch r w) as Hn; destruct (fetch r w) as [[what| |] w']
      end; [now contradiction (Hn what) | now eexists | now eexists]. }
  induction n as [|n IH]; intros i st Hn; cbn [boostLoop].
  - assert (Ei : (i <? views)%Z = false) by (apply Z.ltb_ge; lia).
    rewrite Ei. now eexists.
  - assert (Ei : (i <? views)%Z = true) by (apply Z.ltb_lt; lia).
    rewrite Ei. destruct (Honce st) as [s1 ->].
    apply IH. lia.
Qed.

(** C6. [boostItem] never reports an error, and by the time it returns
    exactly [views] requests have left (none for a negative count), all
    of them to the given URL and without a cookie; when no attempt fails
    on the spot it returns after exactly that many attempts; and an
    attempt that fails on the spot, in [getProxy()] or in starting the
    request, is taken again with the counter unchanged. *)
Theorem boostItem_dispatches (target : jsstring) (views : Z) :
  (forall fuel st o st',
      boostItem fuel target views st = Some (o, st') ->
      o = Ok tt /\
      exists new,
        journal st' = new ++ journal st /\
        unauthenticated target new /\
        dispatched new = Z.to_nat views)
  /\
  ((forall h, exists proxy h', getProxy h = (Returned proxy, h')) ->
   (forall req w what, fst (fetch req w) <> Raised what) ->
   forall st,
   exists st' new,
     boostItem (S (Z.to_nat views)) target views st = Some (Ok tt, st') /\
     journal st' = new ++ journal st /\
     dispatched new = Z.to_nat views /\
     failures new = 0%nat)
  /\
  (forall fuel i st e st1,
      (i < views)%Z ->
      boostOnce target st = (Throw e, st1) ->
      boostLoop (S fuel) target views i st = boostLoop fuel target views i st1).
Proof.
  split; [|split].
  - intros fuel st o st' H.
    destruct (boostLoop_effect _ _ _ _ _ _ _ H) as (Ho & new & Hj & Hu & Hd & _).
    split; [exact Ho|]. exists new. rewrite Z.sub_0_r in Hd. now repeat split.
  - intros Hproxy Hfetch st.
    destruct (boostLoop_terminates target views Hproxy Hfetch
                (Z.to_nat views) 0%Z st (f_equal Z.to_nat (Z.sub_0_r views)))
      as [st' H].
    destruct (boostLoop_effect _ _ _ _ _ _ _ H) as (_ & new & Hj & _ & Hd & Hfuel).
    rewrite Z.sub_0_r in Hd.
    exists st', new. repeat split; try assumption. lia.
  - intros fuel i st e st1 Hi Hb. cbn [boostLoop].
    apply Z.ltb_lt in Hi. rewrite Hi, Hb.
    now replace (i - 1 + 1)%Z with i by lia.
Qed.

End HandlerFacts.

(** ** The query normaliser *)

Lemma organize_rejects (params : list jsstring) :
  forall paramsObject,
    existsb malformed params = true ->
    exists param,
      In param params /\ malformed param = true /\
      organize params paramsObject =
      Throw (Error (lit "Invalid URI parameters: " ++ param)).
Proof.
  induction params as [|param rest IH]; intros paramsObject H; [discriminate|].
  cbn [organize existsb] in *. destruct (malformed param) eqn:E.
  - exists param. repeat split; [now left | exact E].
  - match goal with
    | |- context [organize rest ?o] => destruct (IH o H) as (p & Hin & Hp & Ho)
    end.
    exists p. repeat split; [now right | exact Hp | exact Ho].
Qed.

Lemma organize_accepts (params : list jsstring) :
  forall paramsObject,
    existsb malformed params = false ->
    exists result, organize params paramsObject = Ok result.
Proof.
  induction params as [|param rest IH]; intros paramsObject H; cbn [organize].
  - now eexists.
  - cbn [existsb] in H. apply orb_false_iff in H as [-> H]. now apply IH.
Qed.






(** ** The theorems at work on scripted collaborators *)

Import Script.

Lemma stale_token_retry_unbounded_witness :
  exists st',
    retries 2 endpoint refusedTwice = Some st' /\
    request 3 endpoint refusedTwice = request 1 endpoint st' /\
    request 2 endpoint refusedTwice = None.
Proof.
  eexists.
  refine ((fun H => conj H
             (stale_token_retry_unbounded 2 1 endpoint refusedTwice _ H)) _).
  vm_compute. reflexivity.
Defined.

(** C1, as stated, fails: refused twice, the call renews the cookie a
    second time, makes a third attempt and returns its payload; no error
    is raised for the token refused twice. *)
Lemma twice_refused_is_retried_again :
  match request 3 endpoint refusedTwice with
  | Some (Ok json, st') =>
    json = parsedPayload /\
    acquisitions (journal st') = 2%nat /\
    attempts (journal st') = 3%nat /\
    sessionCookie st' = Some (lit "T2")
  | _ => False
  end.
Proof. vm_compute. repeat split. Qed.

(** A site that refuses every token keeps the call going for ever. *)
Lemma persistent_refusal_never_returns (fuel : nat) :
  forall st : @VintedScraper rejecting,
    proxyHandler st = None -> request fuel endpoint st = None.
Proof.
  induction fuel as [|fuel IH]; intros st Hh; [reflexivity|].
  rewrite request_attempt.
  destruct st as [h c [] j]. cbn in Hh. subst h.
  destruct c as [[|x token]|];
    (match goal with
     | |- match ?a with _ => _ end = None =>
       let r := eval vm_compute in a in change a with r
     end; cbv iota; now apply IH).
Qed.

Lemma request_classifies_witness :
  (* the rate limit message wins over a body that parses and holds a [<] *)
  request 1 endpoint
          (answered None (json "{'error':'Request rate limit exceeded','html':'<p>'}"))
  = Some (Throw (Error (lit "Request rate limit exceeded")),
          snd (call_fetch
                 {| url := endpoint; cookie := Some (lit "_vinted_fr_session=T0");
                    agent := None |}
                 (answered None
                    (json "{'error':'Request rate limit exceeded','html':'<p>'}"))))
  /\
  (* and over a body that parses to a string *)
  request 1 endpoint (answered None (json "'Request rate limit exceeded'"))
  = Some (Throw (Error (lit "Request rate limit exceeded")),
          snd (call_fetch
                 {| url := endpoint; cookie := Some (lit "_vinted_fr_session=T0");
                    agent := None |}
                 (answered None (json "'Request rate limit exceeded'"))))
  /\
  (* a [<] wins over a body that parses *)
  request 1 endpoint (answered None (json "{'title':'a<b'}"))
  = Some (Throw (Error (lit "Bad Gateway")),
          snd (call_fetch
                 {| url := endpoint; cookie := Some (lit "_vinted_fr_session=T0");
                    agent := None |}
                 (answered None (json "{'title':'a<b'}"))))
  /\
  (* the sentinel [not_found] *)
  request 1 endpoint (answered None (json "{'message_code':'not_found'}"))
  = Some (Throw (Error (lit "not_found")),
          snd (call_fetch
                 {| url := endpoint; cookie := Some (lit "_vinted_fr_session=T0");
                    agent := None |}
                 (answered None (json "{'message_code':'not_found'}"))))
  /\
  (* a body that does not parse *)
  request 1 endpoint (answered None (lit "{'id':1}"))
  = Some (Throw SyntaxError,
          snd (call_fetch
                 {| url := endpoint; cookie := Some (lit "_vinted_fr_session=T0");
                    agent := None |}
                 (answered None (lit "{'id':1}"))))
  /\
  (* any other object is returned, with the proxy used noted on it *)
  request 1 endpoint (answered (Some [lit "http://p1:80"]) payload)
  = Some (Ok (JObject [(lit "id", JNumber (lit "1"));
                       (lit "proxy", JString (lit "http://p1:80"))]),
          snd (call_fetch
                 {| url := endpoint; cookie := Some (lit "_vinted_fr_session=T0");
                    agent := Some (lit "http://p1:80") |}
                 (snd (obtainProxy
                         (answered (Some [lit "http://p1:80"]) payload))))).
Proof.
  split; [|split; [|split; [|split; [|split]]]];
    match goal with
    | |- request 1 endpoint ?st = _ =>
      pose proof (request_classifies (node := scripted) 0 endpoint st _ _ _ _ _
                    eq_refl eq_refl eq_refl) as H
    end;
    match type of H with
    | match ?c with _ => _ end =>
      let c' := eval vm_compute in c in change c with c' in H
    end;
    cbv iota beta in H;
    first [exact H | exact (H eq_refl)].
Defined.



(** The dot of [(www.)] in the pattern stands for any code unit: a host
    that merely starts with [www] and ends in [vinted.<tld>] gets through. *)
Lemma unescaped_dot_accepts_other_host :
  specifiedPattern (lit "https://wwwxvinted.be/catalog?x=1") = false
  /\ getQueryParameters (lit "https://wwwxvinted.be/catalog?x=1") = Ok (lit "x=1").
Proof. split; vm_compute; reflexivity. Qed.

Lemma stale_then_success_witness :
  exists s2 s4 s6 : @VintedScraper scripted,
    request 2 endpoint refusedOnce
    = Some (Ok (annotated (lit "http://p3:80") parsedPayload), s6)
    /\ sessionCookie s2 = Some (lit "T0")
    /\ fetchSessionCookie s2 = (Ok tt, withSessionCookie s4 (lit "T1"))
    /\ sessionCookie s6 = Some (lit "T1").
Proof.
  do 3 eexists.
  refine (stale_then_success (node := scripted) 0 endpoint refusedOnce
            refusedOnce _ _ _ _ _ _ (lit "T0")
            (lit "lang=fr; path=/, _vinted_fr_session=T1; path=/")
            (lit "T1; path=/")
            (lit "http://p1:80") (lit "http://p2:80") (lit "http://p3:80")
            _ _ _ parsedPayload
            eq_refl eq_refl eq_refl eq_refl eq_refl eq_refl eq_refl eq_refl
            eq_refl _ eq_refl eq_refl eq_refl eq_refl);
    vm_compute; discriminate.
Defined.

Lemma boostItem_dispatches_witness :
  (* three requests leave, two failed attempts notwithstanding *)
  (exists st',
      boostItem 6 endpoint 3 flaky = Some (Ok tt, st') /\
      exists new,
        journal st' = new ++ journal flaky /\
        unauthenticated endpoint new /\
        dispatched new = 3%nat)
  /\
  (* with collaborators that never fail, three attempts suffice *)
  (exists st' new,
      boostItem 4 endpoint 3 calm = Some (Ok tt, st') /\
      journal st' = new ++ journal calm /\
      dispatched new = 3%nat /\
      failures new = 0%nat)
  /\
  (* the failed first attempt is taken again with the counter at 0 *)
  boostLoop 6 endpoint 3 0 flaky
  = boostLoop 5 endpoint 3 0 (snd (boostOnce endpoint flaky)).
Proof.
  destruct (boostItem_dispatches (node := scripted) endpoint 3) as (H1 & _ & H3).
  destruct (boostItem_dispatches (node := steady) endpoint 3) as (_ & H2 & _).
  split; [|split].
  - eexists.
    refine ((fun H => conj H (proj2 (H1 6%nat flaky _ _ H))) _).
    vm_compute. reflexivity.
  - apply H2.
    + intros h. exists (lit "http://p1:80"), h. reflexivity.
    + intros req w what. discriminate.
  - apply (H3 5%nat 0%Z flaky (Foreign (lit "ERR_INVALID_URL"))).
    + reflexivity.
    + reflexivity.
Defined.

Lemma session_acquisition_witness :
  (* no header: the acquisition fails, and the token held stays *)
  fst (fetchSessionCookie (greeted (Some (lit "T0")) None))
  = Throw (Error (lit "Cannot fetch cookie"))
  /\
  (* a header with the cookie: its value replaces the token held *)
  fetchSessionCookie
    (greeted (Some (lit "T0"))
             (Some (lit "lang=fr; path=/, _vinted_fr_session=T1; path=/")))
  = (Ok tt,
     withSessionCookie
       (snd (call_fetch
               {| url := lit "https://vinted.de"; cookie := None; agent := None |}
               (greeted (Some (lit "T0"))
                        (Some (lit "lang=fr; path=/, _vinted_fr_session=T1; path=/")))))
       (lit "T1")).
Proof.
  split.
  - apply (session_acquisition (node := scripted)
             (greeted (Some (lit "T0")) None) _ _ [] _ eq_refl eq_refl).
    exact I.
  - apply (proj2 (session_acquisition (node := scripted)
                    (greeted (Some (lit "T0"))
                             (Some (lit "lang=fr; path=/, _vinted_fr_session=T1; path=/")))
                    _ _ [] _ eq_refl eq_refl)
                 (lit "lang=fr; path=/, _vinted_fr_session=T1; path=/")
                 (lit "T1; path=/") eq_refl eq_refl).
Defined.

(** C7, as stated, fails: when the cookie name comes again before the
    next [;], the value stored stops there and is not the text up to the
    [;]; and with a header that contains the name but never the name
    followed by [=], the acquisition fails although the header is there
    and contains the name. *)
Lemma cookie_value_stops_at_second_name :
  sessionCookie
    (snd (fetchSessionCookie
            (greeted None
                     (Some (lit "_vinted_fr_session=a_vinted_fr_session=b; path=/")))))
  = Some (lit "a")
  /\ specifiedCookieValue (lit "_vinted_fr_session=a_vinted_fr_session=b; path=/")
     = Some (lit "a_vinted_fr_session=b")
  /\ includes (lit "_vinted_fr_session_v2=abc") (lit "_vinted_fr_session") = true
  /\ fst (fetchSessionCookie
            (greeted None (Some (lit "_vinted_fr_session_v2=abc"))))
     = Throw TypeError.
Proof. repeat split; vm_compute; reflexivity. Qed.

Lemma classification_failure_keeps_token_witness :
  exists st',
    request 2 endpoint refusedThenMissing
    = Some (Throw (Error (lit "not_found")), st')
    /\ sessionCookie st' = Some (lit "T1")
    /\ exists req res rest token,
        journal st' = Fetch req (Responded res) :: rest /\
        url req = endpoint /\
        sessionCookie st' = Some token /\
        cookie req = Some (lit "_vinted_fr_session=" ++ token).
Proof.
  eexists. split; [vm_compute; reflexivity|]. split; [reflexivity|].
  apply (classification_failure_keeps_token (node := scripted) 2 endpoint
           refusedThenMissing _ (Error (lit "not_found")));
    [vm_compute; reflexivity | reflexivity].
Defined.

(** * Further properties of the class *)

(** ** What the normaliser accepts *)

(** X1. The normaliser returns a query string exactly when the input
    percent-decodes, the decoded text matches the pattern and splits in
    two on [?], and every parameter of the rewritten query splits in two
    on [=]. *)
Theorem getQueryParameters_accepts (source : jsstring) :
  (exists queryString, getQueryParameters source = Ok queryString) <->
  (exists URI,
      decodeURI source = Some URI /\
      matchesVintedURI URI = true /\
      length (split URI (lit "?")) = 2%nat /\
      existsb malformed
              (split (pluralize (nth 1 (split URI (lit "?")) [])) (lit "&"))
      = false).
Proof.
  unfold getQueryParameters. split.
  - intros [q H]. destruct (decodeURI source) as [URI|]; [|discriminate].
    exists URI. split; [reflexivity|].
    destruct (matchesVintedURI URI); [|discriminate]. split; [reflexivity|].
    cbn [negb] in H.
    destruct (length (split URI (lit "?")) =? 2)%nat eqn:El; [|discriminate].
    apply Nat.eqb_eq in El. split; [exact El|].
    destruct (existsb malformed
                (split (pluralize (nth 1 (split URI (lit "?")) [])) (lit "&")))
             eqn:Ex; [|reflexivity].
    destruct (organize_rejects _ [] Ex) as (p & _ & _ & Ho).
    cbn [negb] in H. rewrite Ho in H. discriminate.
  - intros (URI & -> & -> & Hl & Hx). rewrite Hl. cbn [negb Nat.eqb].
    destruct (organize_accepts _ [] Hx) as [o ->]. now eexists.
Qed.

Lemma organize_first_malformed (good : list jsstring) (param : jsstring)
      (rest : list jsstring) :
  forall paramsObject,
    existsb malformed good = false ->
    malformed param = true ->
    organize (good ++ param :: rest) paramsObject
    = Throw (Error (lit "Invalid URI parameters: " ++ param)).
Proof.
  induction good as [|g good IH]; intros paramsObject Hg Hp; cbn [app organize].
  - now rewrite Hp.
  - cbn [existsb] in Hg. apply orb_false_iff in Hg as [-> Hg]. now apply IH.
Qed.

(** X2. When some parameter does not split in two on [=], the error names
    the first such parameter, in the form the substitutions gave it. *)
Theorem first_malformed_parameter_is_named (source URI : jsstring)
        (good : list jsstring) (param : jsstring) (rest : list jsstring) :
  decodeURI source = Some URI ->
  matchesVintedURI URI = true ->
  length (split URI (lit "?")) = 2%nat ->
  split (pluralize (nth 1 (split URI (lit "?")) [])) (lit "&")
  = good ++ param :: rest ->
  existsb malformed good = false ->
  malformed param = true ->
  getQueryParameters source
  = Throw (Error (lit "Invalid URI parameters: " ++ param)).
Proof.
  intros Hd Hm Hl Hs Hg Hp. unfold getQueryParameters.
  rewrite Hd, Hm, Hl, Hs. cbn [negb Nat.eqb].
  now rewrite (organize_first_malformed good param rest [] Hg Hp).
Qed.

Lemma first_malformed_parameter_is_named_witness :
  getQueryParameters (lit "https://www.vinted.be/catalog?a=1&brand[]&c")
  = Throw (Error (lit "Invalid URI parameters: brands")).
Proof.
  apply (first_malformed_parameter_is_named
           (lit "https://www.vinted.be/catalog?a=1&brand[]&c")
           (lit "https://www.vinted.be/catalog?a=1&brand[]&c")
           [lit "a=1"] (lit "brands") [lit "c"]); reflexivity.
Defined.

(** ** Percent-escapes and separators *)

Lemma reserved_facts (c : N) :
  existsb (N.eqb c) uriReserved = true ->
  (c < 128)%N /\ hexDigit c = None /\ c <> 37%N.
Proof.
  intros H. apply existsb_exists in H as (x & Hin & Hx).
  apply N.eqb_eq in Hx. subst x. vm_compute in Hin.
  repeat (destruct Hin as [Hin|Hin];
          [subst c; repeat split; try reflexivity; discriminate|]).
  contradiction.
Qed.

Lemma count_utf16Encode (cp c : N) :
  (128 <= cp)%N -> (c < 128)%N -> count_occ N.eq_dec (utf16Encode cp) c = 0%nat.
Proof.
  intros Hcp Hc. unfold utf16Encode. destruct (cp <? 65536)%N; cbn [count_occ].
  - destruct (N.eq_dec cp c); [lia | reflexivity].
  - assert (Hfar : forall k q, (128 <= k)%N -> (k + q)%N <> c) by (intros; lia).
    destruct (N.eq_dec (55296 + (cp - 65536) / 1024) c) as [E|];
      [now apply Hfar in E|].
    destruct (N.eq_dec (56320 + (cp - 65536) mod 1024) c) as [E|];
      [now apply Hfar in E | reflexivity].
Qed.

Lemma count_other (x c : N) (l : list N) :
  x <> c -> count_occ N.eq_dec (x :: l) c = count_occ N.eq_dec l c.
Proof. intros H. now apply count_occ_cons_neq. Qed.

Lemma hexDigit_not (h c a : N) : hexDigit h = Some a -> hexDigit c = None -> h <> c.
Proof. intros Hh Hc E. subst h. congruence. Qed.

Lemma decode_cons (pend : option (nat * N * N)) (c : N) (t : jsstring) :
  decode pend (c :: t) =
  if negb (c =? 37)%N then
    match pend with
    | None => option_map (cons c) (decode None t)
    | Some _ => None
    end
  else
    match t with
    | h1 :: h2 :: t' =>
      match hexDigit h1, hexDigit h2 with
      | Some a, Some b =>
        let B := (16 * a + b)%N in
        match pend with
        | None =>
          if (B <? 128)%N then
            option_map
              (app (if existsb (N.eqb B) uriReserved then [c; h1; h2] else [B]))
              (decode None t')
          else if (B <? 192)%N then None
          else if (B <? 224)%N then decode (Some (1%nat, (B - 192)%N, 128%N)) t'
          else if (B <? 240)%N then decode (Some (2%nat, (B - 224)%N, 2048%N)) t'
          else if (B <? 248)%N then decode (Some (3%nat, (B - 240)%N, 65536%N)) t'
          else None
        | Some (k, acc, least) =>
          if ((128 <=? B) && (B <? 192))%N then
            let acc' := (acc * 64 + (B - 128))%N in
            match k with
            | O => None
            | S O =>
              if validCodePoint acc' least
              then option_map (app (utf16Encode acc')) (decode None t')
              else None
            | S k' => decode (Some (k', acc', least)) t'
            end
          else None
        end
      | _, _ => None
      end
    | _ => None
    end.
Proof. reflexivity. Qed.

(** A reserved character occurs in the decoded text as often as in the
    source: its escapes are kept as written, and nothing decodes to it. *)
Lemma decode_reserved_count (c : N) :
  existsb (N.eqb c) uriReserved = true ->
  forall (n : nat) (s : jsstring),
    (length s <= n)%nat ->
    forall pend u,
      match pend with
      | Some (_, _, least) => (128 <= least)%N
      | None => True
      end ->
      decode pend s = Some u ->
      count_occ N.eq_dec u c = count_occ N.eq_dec s c.
Proof.
  intros Hres. destruct (reserved_facts c Hres) as (Hc & Hhex & Hpct).
  induction n as [|n IH]; intros s Hlen pend u Hpend H.
  - destruct s; [|cbn in Hlen; lia]. cbn in H.
    destruct pend; [discriminate|]. now injection H as <-.
  - destruct s as [|x t].
    + cbn in H. destruct pend; [discriminate|]. now injection H as <-.
    + rewrite decode_cons in H. cbn [length] in Hlen.
      destruct (x =? 37)%N eqn:Ex; unfold negb in H.
      * apply N.eqb_eq in Ex. subst x.
        destruct t as [|h1 [|h2 t']]; try discriminate.
        destruct (hexDigit h1) as [a|] eqn:E1; [|discriminate].
        destruct (hexDigit h2) as [b|] eqn:E2; [|discriminate].
        cbn [length] in Hlen.
        assert (Hsrc : forall l, count_occ N.eq_dec (37%N :: h1 :: h2 :: l) c
                                 = count_occ N.eq_dec l c).
        { intros l. rewrite !count_other; [reflexivity | | |].
          - now apply (hexDigit_not h2 c b).
          - now apply (hexDigit_not h1 c a).
          - now apply not_eq_sym. }
        rewrite Hsrc.
        assert (Hrec : forall pend' u',
                   match pend' with
                   | Some (_, _, least) => (128 <= least)%N
                   | None => True
                   end ->
                   decode pend' t' = Some u' ->
                   count_occ N.eq_dec u' c = count_occ N.eq_dec t' c).
        { intros pend' u'. apply IH. lia. }
        cbv zeta in H.
        destruct pend as [[[k acc] least]|].
        -- destruct ((128 <=? 16 * a + b) && (16 * a + b <? 192))%N; [|discriminate].
           destruct k as [|[|k]]; [discriminate| |].
           ++ destruct (validCodePoint (acc * 64 + (16 * a + b - 128)) least) eqn:Ev;
                [|discriminate].
              destruct (decode None t') as [u'|] eqn:Ed; [|discriminate].
              unfold option_map in H.
              match type of H with
              | Some ?v = Some _ => assert (Hu : u = v) by congruence; subst u
              end.
              rewrite count_occ_app, (Hrec None u' I Ed).
              rewrite count_utf16Encode; [reflexivity | | exact Hc].
              unfold validCodePoint in Ev.
              apply andb_prop in Ev as [Ev _]. apply andb_prop in Ev as [Ev _].
              apply N.leb_le in Ev. cbn in Hpend.
              exact (N.le_trans _ _ _ Hpend Ev).
           ++ exact (Hrec (Some (S k, _, least)) u Hpend H).
        -- destruct (16 * a + b <? 128)%N eqn:EB.
           ++ destruct (decode None t') as [u'|] eqn:Ed; [|discriminate].
              unfold option_map in H.
              match type of H with
              | Some ?v = Some _ => assert (Hu : u = v) by congruence; subst u
              end.
              rewrite count_occ_app, (Hrec None u' I Ed).
              destruct (existsb (N.eqb (16 * a + b)) uriReserved) eqn:ER.
              ** now rewrite (Hsrc []).
              ** cbn [count_occ].
                 destruct (N.eq_dec (16 * a + b) c) as [E|]; [|reflexivity].
                 rewrite E in ER. congruence.
           ++ destruct (16 * a + b <? 192)%N; [discriminate|].
              destruct (16 * a + b <? 224)%N;
                [exact (Hrec (Some (1%nat, _, 128%N)) u (N.le_refl 128) H)|].
              destruct (16 * a + b <? 240)%N;
                [exact (Hrec (Some (2%nat, _, 2048%N)) u ltac:(cbn; lia) H)|].
              destruct (16 * a + b <? 248)%N;
                [exact (Hrec (Some (3%nat, _, 65536%N)) u ltac:(cbn; lia) H)
                | discriminate].
      * apply N.eqb_neq in Ex. destruct pend; [discriminate|].
        destruct (decode None t) as [u'|] eqn:Ed; [|discriminate].
        unfold option_map in H.
              match type of H with
              | Some ?v = Some _ => assert (Hu : u = v) by congruence; subst u
              end.
        assert (Hu : count_occ N.eq_dec u' c = count_occ N.eq_dec t c)
          by (apply (IH t ltac:(lia) None u' I Ed)).
        cbn [count_occ]. destruct (N.eq_dec x c); now rewrite Hu.
Qed.

Lemma split_scan_single_length (c : N) (s : jsstring) :
  forall cur, length (split_scan [c] 0 cur s) = S (count_occ N.eq_dec s c).
Proof.
  induction s as [|x t IH]; intros cur; [reflexivity|].
  cbn [split_scan startsWith length Nat.sub count_occ].
  destruct (N.eq_dec x c) as [->|Hne].
  - rewrite N.eqb_refl. cbn [andb length]. now rewrite IH.
  - assert (E : (c =? x)%N = false) by (apply N.eqb_neq; congruence).
    rewrite E. cbn [andb]. apply IH.
Qed.

Lemma split_single_length (c : N) (s : jsstring) :
  length (split s [c]) = S (count_occ N.eq_dec s c).
Proof. apply split_scan_single_length. Qed.

(** X3. Percent-decoding never makes or removes a separator: every
    reserved character ([; / ? : @ & = + $ , #]) occurs in the decoded URL
    exactly as often as it is written in the input, so the decoded URL
    splits in two on [?] exactly when the input holds one [?]. *)
Theorem escapes_never_act_as_separators (source URI : jsstring) :
  decodeURI source = Some URI ->
  (forall c, existsb (N.eqb c) uriReserved = true ->
             count_occ N.eq_dec URI c = count_occ N.eq_dec source c)
  /\ (length (split URI (lit "?")) = 2%nat <->
      count_occ N.eq_dec source 63%N = 1%nat).
Proof.
  intros Hd.
  assert (Hcount : forall c, existsb (N.eqb c) uriReserved = true ->
                             count_occ N.eq_dec URI c = count_occ N.eq_dec source c).
  { intros c Hc.
    exact (decode_reserved_count c Hc (length source) source (le_n _) None URI I Hd). }
  split; [exact Hcount|].
  change (lit "?") with [63%N]. rewrite split_single_length.
  rewrite (Hcount 63%N eq_refl). lia.
Qed.

Lemma escapes_never_act_as_separators_witness :
  decodeURI (lit "https://www.vinted.be/catalog?q=a%3Fb%26c%20d")
  = Some (lit "https://www.vinted.be/catalog?q=a%3Fb%26c d")
  /\ (length (split (lit "https://www.vinted.be/catalog?q=a%3Fb%26c d") (lit "?"))
      = 2%nat
  <-> count_occ N.eq_dec (lit "https://www.vinted.be/catalog?q=a%3Fb%26c%20d") 63%N
      = 1%nat).
Proof.
  refine ((fun H => conj H
             (proj2 (escapes_never_act_as_separators
                       (lit "https://www.vinted.be/catalog?q=a%3Fb%26c%20d")
                       (lit "https://www.vinted.be/catalog?q=a%3Fb%26c d") H))) _).
  vm_compute. reflexivity.
Defined.

(** ** The substitutions *)

Lemma replaceAll_brackets_cons (x : N) (t : jsstring) :
  replaceAll_scan (lit "[]") (lit "s") 0 (x :: t) =
  if startsWith (x :: t) (lit "[]")
  then 115%N :: replaceAll_scan (lit "[]") (lit "s") 1 t
  else x :: replaceAll_scan (lit "[]") (lit "s") 0 t.
Proof. reflexivity. Qed.

Lemma includes_cons (x : N) (t p : jsstring) :
  includes (x :: t) p = startsWith (x :: t) p || includes t p.
Proof. reflexivity. Qed.

Lemma startsWith_brackets (x : N) (t : jsstring) :
  startsWith (x :: t) (lit "[]") = (91 =? x)%N && startsWith t (lit "]").
Proof. reflexivity. Qed.

Lemma startsWith_bracket (x : N) (t : jsstring) :
  startsWith (x :: t) (lit "]") = (93 =? x)%N.
Proof. cbn. apply andb_true_r. Qed.

Lemma no_brackets_after_scan (n : nat) :
  forall s : jsstring,
    (length s <= n)%nat ->
    includes (replaceAll_scan (lit "[]") (lit "s") 0 s) (lit "[]") = false /\
    (startsWith (replaceAll_scan (lit "[]") (lit "s") 0 s) (lit "]") = true ->
     startsWith s (lit "]") = true).
Proof.
  induction n as [|n IH]; intros s Hlen.
  - destruct s; [|cbn in Hlen; lia]. split; [reflexivity | discriminate].
  - destruct s as [|x t]; [split; [reflexivity | discriminate]|].
    cbn [length] in Hlen. rewrite replaceAll_brackets_cons.
    destruct (startsWith (x :: t) (lit "[]")) eqn:Em.
    + rewrite startsWith_brackets in Em.
      destruct t as [|y t']; [rewrite andb_false_r in Em; discriminate|].
      change (replaceAll_scan (lit "[]") (lit "s") 1 (y :: t'))
        with (replaceAll_scan (lit "[]") (lit "s") 0 t').
      destruct (IH t' ltac:(cbn in Hlen; lia)) as [Hin _].
      split.
      * now rewrite includes_cons, startsWith_brackets, Hin.
      * now rewrite startsWith_bracket.
    + destruct (IH t ltac:(lia)) as [Hin Hhead].
      split.
      * rewrite includes_cons, Hin, orb_false_r, startsWith_brackets.
        rewrite startsWith_brackets in Em.
        destruct (91 =? x)%N; [|reflexivity]. cbn [andb] in *.
        destruct (startsWith (replaceAll_scan (lit "[]") (lit "s") 0 t) (lit "]"))
                 eqn:Eo; [|reflexivity].
        specialize (Hhead eq_refl). congruence.
      * rewrite !startsWith_bracket. trivial.
Qed.

(** X4. After the three substitutions the query holds no [[]] any more:
    every array-style key has been given its plural form. *)
Theorem pluralize_leaves_no_brackets (query : jsstring) :
  includes (pluralize query) (lit "[]") = false.
Proof.
  unfold pluralize, replaceAll.
  exact (proj1 (no_brackets_after_scan _ _ (le_n _))).
Qed.

(** ** The shape of the normalised query *)

Lemma split_scan_chars (c : N) (Q : N -> Prop) (s : jsstring) :
  forall cur,
    (forall x, In x cur -> Q x /\ x <> c) ->
    (forall x, In x s -> Q x) ->
    Forall (fun seg => forall x, In x seg -> Q x /\ x <> c)
           (split_scan [c] 0 cur s).
Proof.
  induction s as [|y t IH]; intros cur Hcur Hs; cbn [split_scan].
  - constructor; [|constructor]. intros x Hx. apply Hcur. now apply in_rev.
  - cbn [startsWith length Nat.sub]. rewrite andb_true_r.
    destruct (c =? y)%N eqn:E.
    + constructor.
      * intros x Hx. apply Hcur. now apply in_rev.
      * apply IH; [intros x [] | intros x Hx; apply Hs; now right].
    + apply IH.
      * intros x [<-|Hx]; [|now apply Hcur].
        split; [apply Hs; now left|]. apply N.eqb_neq in E. congruence.
      * intros x Hx. apply Hs. now right.
Qed.

Lemma split_chars (c : N) (Q : N -> Prop) (s seg : jsstring) :
  (forall x, In x s -> Q x) ->
  In seg (split s [c]) ->
  forall x, In x seg -> Q x /\ x <> c.
Proof.
  intros Hs Hin.
  pose proof (split_scan_chars c Q s [] (fun x (H : In x []) => match H with end) Hs)
    as H.
  rewrite Forall_forall in H. exact (H seg Hin).
Qed.

Lemma split_scan_free (c : N) (p : jsstring) :
  forall cur, (forall x, In x p -> x <> c) ->
              split_scan [c] 0 cur p = [rev cur ++ p].
Proof.
  induction p as [|y t IH]; intros cur Hp; cbn [split_scan].
  - now rewrite app_nil_r.
  - cbn [startsWith]. rewrite andb_true_r.
    assert (E : (c =? y)%N = false).
    { apply N.eqb_neq. intros ->. now apply (Hp y (or_introl eq_refl)). }
    rewrite E, IH by (intros x Hx; apply Hp; now right).
    cbn [rev]. now rewrite <- app_assoc.
Qed.

Lemma split_scan_at (c : N) (p rest : jsstring) :
  forall cur, (forall x, In x p -> x <> c) ->
              split_scan [c] 0 cur (p ++ c :: rest)
              = (rev cur ++ p) :: split_scan [c] 0 [] rest.
Proof.
  induction p as [|y t IH]; intros cur Hp; cbn [app split_scan].
  - cbn [startsWith length Nat.sub]. rewrite N.eqb_refl. cbn [andb].
    now rewrite app_nil_r.
  - cbn [startsWith]. rewrite andb_true_r.
    assert (E : (c =? y)%N = false).
    { apply N.eqb_neq. intros ->. now apply (Hp y (or_introl eq_refl)). }
    rewrite E, IH by (intros x Hx; apply Hp; now right).
    cbn [rev]. now rewrite <- app_assoc.
Qed.

(** Splitting what was joined gives the parts back, when no part holds
    the separator. *)
Lemma split_join (c : N) (parts : list jsstring) :
  parts <> [] ->
  Forall (fun p => forall x, In x p -> x <> c) parts ->
  split (join [c] parts) [c] = parts.
Proof.
  intros Hne Hfree. unfold split.
  induction parts as [|p rest IH]; [contradiction|].
  inversion Hfree as [|? ? Hp Hrest]; subst.
  destruct rest as [|p' rest'].
  - cbn [join]. now rewrite split_scan_free.
  - change (join [c] (p :: p' :: rest')) with (p ++ c :: join [c] (p' :: rest')).
    rewrite split_scan_at by assumption. cbn [rev app].
    f_equal. apply IH; [discriminate | assumption].
Qed.

Lemma ownProperty_None (o : object) (k : jsstring) :
  ownProperty o k = None -> ~ In k (map fst o).
Proof.
  induction o as [|[k' v] r IH]; cbn [ownProperty map fst In]; [tauto|].
  destruct (streq k' k) eqn:E; [discriminate|].
  intros H [Hk|Hk]; [|now apply IH].
  apply streq_neq in E. contradiction.
Qed.

Lemma ownProperty_In (o : object) (k : jsstring) :
  In k (map fst o) -> exists v, ownProperty o k = Some v /\ In (k, v) o.
Proof.
  induction o as [|[k' v] r IH]; cbn [ownProperty map fst In]; [tauto|].
  destruct (streq k' k) eqn:E.
  - apply streq_eq in E. subst k'. intros _. exists v. split; [reflexivity | now left].
  - intros [Hk|Hk]; [apply streq_neq in E; contradiction|].
    destruct (IH Hk) as (v' & Hv & Hin). exists v'. split; [exact Hv | now right].
Qed.

Lemma replaceOwn_keys (o : object) (k v : jsstring) :
  map fst (replaceOwn o k v) = map fst o.
Proof.
  induction o as [|[k' v'] r IH]; [reflexivity|]. cbn [replaceOwn].
  destruct (streq k' k); cbn [map fst]; [reflexivity | now rewrite IH].
Qed.

Lemma replaceOwn_plain (o : object) (k v : jsstring) :
  plain v ->
  Forall (fun kv => plain (fst kv) /\ plain (snd kv)) o ->
  Forall (fun kv => plain (fst kv) /\ plain (snd kv)) (replaceOwn o k v).
Proof.
  intros Hv. induction 1 as [|[k' v'] r [Hk' Hv'] Hr IH]; cbn [replaceOwn];
    [constructor|].
  destruct (streq k' k); constructor; try assumption; now split.
Qed.

Lemma setProperty_tidy (o : object) (k v : jsstring) :
  tidy o -> plain k -> plain v -> tidy (setProperty o k v).
Proof.
  intros [Hnd Hpl] Hk Hv. unfold setProperty.
  destruct (ownProperty o k) eqn:E.
  - split; [now rewrite replaceOwn_keys | now apply replaceOwn_plain].
  - destruct (streq k (lit "__proto__")); [now split|].
    split.
    + rewrite map_app. cbn [map fst].
      apply NoDup_app; [assumption | repeat constructor; intros [] | ].
      intros x Hx [Hk'|[]]. subst x. now apply (ownProperty_None o k E).
    + apply Forall_app. split; [assumption|].
      constructor; [split; assumption | constructor].
Qed.

Lemma plain_app (a b : jsstring) : plain a -> plain b -> plain (a ++ b).
Proof.
  intros Ha Hb x Hx. apply in_app_or in Hx as [Hx|Hx]; [now apply Ha | now apply Hb].
Qed.

Lemma plain_literal (s : jsstring) :
  forallb (fun x => negb (x =? 38)%N && negb (x =? 61)%N) s = true -> plain s.
Proof.
  intros H x Hx. rewrite forallb_forall in H. specialize (H x Hx).
  apply andb_prop in H as [H1 H2].
  apply negb_true_iff in H1, H2. apply N.eqb_neq in H1, H2. now split.
Qed.

Lemma toString_plain (o : object) (k : jsstring) :
  tidy o -> plain k -> plain (toString (getProperty o k)).
Proof.
  intros [_ Hpl] Hk. unfold getProperty.
  destruct (ownProperty o k) as [v|] eqn:E.
  - cbn [toString]. clear Hk.
    induction o as [|[k' v'] r IH]; [discriminate|]. cbn [ownProperty] in E.
    inversion Hpl as [|? ? [_ Hv'] Hr]; subst.
    destruct (streq k' k); [injection E as <-; exact Hv' | now apply IH].
  - destruct (streq k (lit "__proto__")); [now apply plain_literal|].
    unfold prototypeMethod.
    destruct (streq k (lit "constructor")); [now apply plain_literal|].
    destruct (existsb (streq k) _); [|now apply plain_literal].
    cbn [toString]. unfold nativeSource.
    apply plain_app; [now apply plain_literal|].
    apply plain_app; [exact Hk | now apply plain_literal].
Qed.

Lemma organize_tidy (params : list jsstring) :
  forall o o',
    Forall (fun p => forall x, In x p -> x <> 38%N) params ->
    tidy o ->
    organize params o = Ok o' ->
    tidy o'.
Proof.
  induction params as [|param rest IH]; intros o o' Hp Ho H; cbn [organize] in H.
  - now injection H as <-.
  - inversion Hp as [|? ? Hparam Hrest]; subst.
    unfold malformed in H.
    destruct (length (split param (lit "=")) =? 2)%nat eqn:El; [|discriminate].
    cbn [negb] in H. apply Nat.eqb_eq in El.
    destruct (split param (lit "=")) as [|key [|value [|]]] eqn:Es;
      try discriminate.
    cbn [nth] in H.
    assert (Hseg : forall seg, In seg [key; value] -> plain seg).
    { intros seg Hin x Hx. rewrite <- Es in Hin.
      destruct (split_chars 61%N (fun x => x <> 38%N) param seg Hparam Hin x Hx).
      now split. }
    assert (Hk : plain key) by (apply Hseg; now left).
    assert (Hv : plain value) by (apply Hseg; right; now left).
    apply (IH _ _ Hrest) in H; [exact H|].
    destruct (truthy (getProperty o key)).
    + apply setProperty_tidy; [assumption | assumption |].
      apply plain_app; [now apply toString_plain|].
      apply plain_app; [now apply plain_literal | assumption].
    + now apply setProperty_tidy.
Qed.

Lemma insertIndex_keys (n : N) (k : jsstring) (l : list (N * jsstring)) :
  Permutation (map snd (insertIndex n k l)) (k :: map snd l).
Proof.
  induction l as [|[m k'] r IH]; cbn [insertIndex]; [reflexivity|].
  destruct (n <? m)%N; [reflexivity|].
  cbn [map snd]. rewrite IH. apply perm_swap.
Qed.

Lemma indexKeys_keys (o : object) :
  Permutation (map snd (indexKeys o))
    (filter (fun k => match arrayIndex k with Some _ => true | None => false end)
            (map fst o)).
Proof.
  induction o as [|[k v] r IH]; [reflexivity|].
  change (indexKeys ((k, v) :: r))
    with (match arrayIndex k with
          | Some n => insertIndex n k (indexKeys r)
          | None => indexKeys r
          end).
  cbn [map fst filter].
  destruct (arrayIndex k) as [n|]; [|exact IH].
  rewrite insertIndex_keys. now apply perm_skip.
Qed.

(** [Object.keys] lists every own key once: it only reorders them. *)
Lemma Object_keys_own (o : object) : Permutation (Object_keys o) (map fst o).
Proof.
  unfold Object_keys. rewrite indexKeys_keys.
  induction (map fst o) as [|k r IH]; [reflexivity|].
  cbn [filter]. destruct (arrayIndex k).
  - cbn [app]. now apply perm_skip.
  - rewrite <- Permutation_middle. now apply perm_skip.
Qed.

Lemma join_cons (sep p : jsstring) (rest : list jsstring) :
  join sep (p :: rest) = p ++ flat_map (fun q => sep ++ q) rest.
Proof.
  revert p. induction rest as [|q rest IH]; intros p.
  - cbn [join flat_map]. now rewrite app_nil_r.
  - change (join sep (p :: q :: rest)) with (p ++ sep ++ join sep (q :: rest)).
    rewrite IH. cbn [flat_map]. now rewrite <- !app_assoc.
Qed.

Lemma formatParams_from (keys : list jsstring) (o : object) :
  forall finalParams,
    finalParams <> [] ->
    formatParams keys o finalParams
    = finalParams
        ++ flat_map (fun q => lit "&" ++ q)
             (map parameter (map (entry o) (filter listed keys))).
Proof.
  induction keys as [|k rest IH]; intros acc Hacc; cbn [formatParams filter].
  - cbn [map flat_map]. now rewrite app_nil_r.
  - fold (listed k). destruct (listed k).
    + destruct acc as [|a acc']; [contradiction|].
      cbn [streq negb]. rewrite IH by (destruct acc'; discriminate).
      cbn [map flat_map]. unfold parameter, entry. cbn [fst snd].
      now rewrite <- !app_assoc.
    + now apply IH.
Qed.

(** The loop over the keys builds the [&]-join of [key=value] over the
    keys other than [time]. *)
Lemma formatParams_join (keys : list jsstring) (o : object) :
  formatParams keys o []
  = join (lit "&") (map parameter (map (entry o) (filter listed keys))).
Proof.
  induction keys as [|k rest IH]; [reflexivity|].
  cbn [formatParams filter]. fold (listed k). destruct (listed k).
  - cbn [streq negb app map]. rewrite join_cons.
    rewrite formatParams_from.
    + reflexivity.
    + unfold parameter, entry. cbn [fst snd].
      destruct k; discriminate.
  - exact IH.
Qed.

(** X5. Whatever [#getQueryParameters] returns is the [&]-join of
    [key=value] over pairwise distinct keys, none of them [time], in which
    neither a key nor a value holds [&] or [=]; so splitting a non-empty
    result on [&] and each part on [=] gives exactly these keys and values
    back. *)
Theorem normalized_query_parses_back (source queryString : jsstring) :
  getQueryParameters source = Ok queryString ->
  exists pairs : list (jsstring * jsstring),
    queryString = join (lit "&") (map parameter pairs)
    /\ NoDup (map fst pairs)
    /\ ~ In (lit "time") (map fst pairs)
    /\ Forall (fun kv => plain (fst kv) /\ plain (snd kv)) pairs
    /\ (pairs <> [] -> split queryString (lit "&") = map parameter pairs)
    /\ Forall (fun kv => split (parameter kv) (lit "=") = [fst kv; snd kv])
              pairs.
Proof.
  unfold getQueryParameters. intros H.
  destruct (decodeURI source) as [URI|]; [|discriminate].
  destruct (negb (matchesVintedURI URI)); [discriminate|].
  destruct (negb (length (split URI (lit "?")) =? 2)%nat); [discriminate|].
  cbv zeta in H.
  set (params := split (pluralize (nth 1 (split URI (lit "?")) [])) (lit "&")) in H.
  destruct (organize params []) as [o|e] eqn:Eo; [|discriminate].
  injection H as <-.
  assert (Hparams : Forall (fun p => forall x, In x p -> x <> 38%N) params).
  { apply Forall_forall. intros p Hp x Hx.
    exact (proj2 (split_chars 38%N (fun _ => True) _ p (fun _ _ => I) Hp x Hx)). }
  assert (Ho : tidy o).
  { apply (organize_tidy params [] o Hparams); [|exact Eo].
    split; constructor. }
  set (keys := filter listed (Object_keys o)).
  assert (Hkeys : forall k, In k keys -> In k (map fst o) /\ k <> lit "time").
  { intros k Hk. apply filter_In in Hk as [Hk Hl]. split.
    - exact (Permutation_in _ (Object_keys_own o) Hk).
    - intros ->. discriminate Hl. }
  assert (Hfst : map fst (map (entry o) keys) = keys).
  { rewrite map_map. unfold entry. cbn [fst]. apply map_id. }
  assert (Hplain : Forall (fun kv => plain (fst kv) /\ plain (snd kv))
                          (map (entry o) keys)).
  { apply Forall_forall. intros kv Hkv.
    apply in_map_iff in Hkv as (k & <- & Hk).
    destruct (Hkeys k Hk) as [Hin _].
    assert (Hpk : plain k).
    { destruct Ho as [_ Hf]. rewrite Forall_forall in Hf.
      apply in_map_iff in Hin as ([k' v'] & Ek & Hin). cbn [fst] in Ek. subst k'.
      exact (proj1 (Hf _ Hin)). }
    unfold entry. cbn [fst snd]. split; [exact Hpk|].
    now apply toString_plain. }
  exists (map (entry o) keys).
  split; [apply formatParams_join|].
  split.
  { rewrite Hfst. apply NoDup_filter.
    apply (Permutation_NoDup (Permutation_sym (Object_keys_own o))).
    exact (proj1 Ho). }
  split.
  { rewrite Hfst. intros Hin. now apply (proj2 (Hkeys _ Hin)). }
  split; [exact Hplain|].
  split.
  - intros Hne. rewrite formatParams_join. fold keys.
    apply (split_join 38%N).
    + destruct (map (entry o) keys); [contradiction | discriminate].
    + apply Forall_forall. intros p Hp x Hx.
      apply in_map_iff in Hp as (kv & <- & Hkv).
      rewrite Forall_forall in Hplain. destruct (Hplain kv Hkv) as [Hk Hv].
      unfold parameter in Hx.
      apply in_app_or in Hx as [Hx|Hx]; [exact (proj1 (Hk x Hx))|].
      destruct Hx as [<-|Hx]; [discriminate | exact (proj1 (Hv x Hx))].
  - apply Forall_forall. intros kv Hkv.
    rewrite Forall_forall in Hplain. destruct (Hplain kv Hkv) as [Hk Hv].
    apply (split_join 61%N [fst kv; snd kv]); [discriminate|].
    constructor; [intros x Hx; exact (proj2 (Hk x Hx))|].
    constructor; [intros x Hx; exact (proj2 (Hv x Hx)) | constructor].
Qed.

Lemma normalized_query_parses_back_witness :
  getQueryParameters
    (lit "https://www.vinted.be/catalog?catalog[]=1&time=9&brand[]=5&catalog[]=2")
  = Ok (lit "catalog_ids=1,2&brands=5")
  /\ exists pairs : list (jsstring * jsstring),
       lit "catalog_ids=1,2&brands=5" = join (lit "&") (map parameter pairs)
       /\ NoDup (map fst pairs)
       /\ ~ In (lit "time") (map fst pairs)
       /\ Forall (fun kv => plain (fst kv) /\ plain (snd kv)) pairs
       /\ (pairs <> [] ->
           split (lit "catalog_ids=1,2&brands=5") (lit "&") = map parameter pairs)
       /\ Forall (fun kv => split (parameter kv) (lit "=") = [fst kv; snd kv])
                 pairs.
Proof.
  refine ((fun H => conj H (normalized_query_parses_back _ _ H)) _).
  vm_compute. reflexivity.
Defined.

(** ** The session token along a call *)

Lemma tokenTrace_app (target : jsstring) (l1 l2 : list event) :
  forall held mid final,
    tokenTrace target held l1 = Some mid ->
    tokenTrace target mid l2 = Some final ->
    tokenTrace target held (l1 ++ l2) = Some final.
Proof.
  induction l1 as [|e l1 IH]; intros held mid final H1 H2; cbn [app].
  - cbn [tokenTrace] in H1. injection H1 as <-. exact H2.
  - cbn [tokenTrace] in *. destruct e as [r|req d].
    + exact (IH _ _ _ H1 H2).
    + destruct (cookie req) as [c|].
      * destruct held as [token|]; [|discriminate].
        destruct (streq (url req) target
                  && streq c (lit "_vinted_fr_session=" ++ token));
          [exact (IH _ _ _ H1 H2) | discriminate].
      * destruct (streq (url req) (lit "https://vinted.de"));
          [exact (IH _ _ _ H1 H2) | discriminate].
Qed.

Section TokenFacts.

Context {node : Collaborators}.

Ltac run_steps :=
  unfold andThen, bind, finish, throw, ret, lift, readSessionCookie,
    await_fetch, dispatch, setSessionCookie in *.

Lemma advances_refl (target : jsstring) (st : VintedScraper) :
  advances target st st.
Proof. exists []. split; reflexivity. Qed.

Lemma advances_trans (target : jsstring) (s1 s2 s3 : VintedScraper) :
  advances target s1 s2 -> advances target s2 s3 -> advances target s1 s3.
Proof.
  intros (n1 & Hj1 & Hr1) (n2 & Hj2 & Hr2). exists (n2 ++ n1). split.
  - rewrite Hj2, Hj1. apply app_assoc.
  - unfold replays in *. rewrite rev_app_distr.
    exact (tokenTrace_app target _ _ _ _ _ Hr1 Hr2).
Qed.

Lemma obtainProxy_advances (target : jsstring) (st st' : VintedScraper)
      (o : outcome jsstring) :
  obtainProxy st = (o, st') -> advances target st st'.
Proof.
  unfold obtainProxy. destruct (proxyHandler st) as [h|].
  - destruct (getProxy h) as [r h']. intros H. injection H as <- <-.
    exists [GetProxy r]. split; reflexivity.
  - intros H. injection H as <- <-. apply advances_refl.
Qed.

(** What one acquisition does: it asks for a proxy if there is a source,
    sends one request without a cookie to the root of the site unless
    the proxy source failed, and takes the token of the response if it
    has one; in every other case the token held stays. *)
Lemma fetchSessionCookie_token (st st' : VintedScraper) (o : outcome unit) :
  fetchSessionCookie st = (o, st') ->
  exists pre,
    (pre = [] \/ exists r, pre = [GetProxy r])
    /\ ((journal st' = pre ++ journal st
         /\ sessionCookie st' = sessionCookie st
         /\ exists what, o = Throw (Foreign what))
        \/
        exists proxy d,
          journal st' =
          Fetch {| url := lit "https://vinted.de"; cookie := None;
                   agent := agentFor proxy |} d :: pre ++ journal st
          /\ match d with
             | Raised what | Rejected what =>
               o = Throw (Foreign what) /\ sessionCookie st' = sessionCookie st
             | Responded res =>
               match extractCookie res with
               | Some token => o = Ok tt /\ sessionCookie st' = Some token
               | None =>
                 (o = Throw (Error (lit "Cannot fetch cookie"))
                  \/ o = Throw TypeError)
                 /\ sessionCookie st' = sessionCookie st
               end
             end).
Proof.
  unfold fetchSessionCookie. run_steps.
  destruct (obtainProxy st) as [[proxy|e] s1] eqn:Hp.
  - destruct (call_fetch {| url := lit "https://vinted.de"; cookie := None;
                            agent := agentFor proxy |} s1) as [d s2] eqn:Hf.
    apply obtainProxy_cases in Hp as [Hc Hp].
    apply call_fetch_frame in Hf as (Hc' & Hh & Hj).
    assert (Hmid : exists pre, (pre = [] \/ exists r, pre = [GetProxy r])
                               /\ journal s1 = pre ++ journal st).
    { destruct (proxyHandler st).
      - destruct Hp as (r & _ & Hj1 & _). exists [GetProxy r].
        split; [right; now exists r | exact Hj1].
      - destruct Hp as [_ ->]. exists []. split; [now left | reflexivity]. }
    destruct Hmid as (pre & Hpre & Hj1).
    rewrite Hj1 in Hj. rewrite <- Hc, <- Hc'.
    intros H. exists pre. split; [exact Hpre|]. right. exists proxy, d.
    revert H. unfold extractCookie.
    destruct d as [what|what|res].
    + intros H. injection H as <- <-. now repeat split.
    + intros H. injection H as <- <-. now repeat split.
    + destruct (set_cookie res) as [header|].
      * destruct (includes header (lit "_vinted_fr_session")); cbn [negb].
        -- destruct (at_index (split header (lit "_vinted_fr_session=")) 1).
           ++ intros H. injection H as <- <-. now repeat split.
           ++ intros H. injection H as <- <-.
              split; [exact Hj|]. split; [now right | reflexivity].
        -- intros H. injection H as <- <-.
           split; [exact Hj|]. split; [now left | reflexivity].
      * intros H. injection H as <- <-.
        split; [exact Hj|]. split; [now left | reflexivity].
  - intros H. injection H as <- <-.
    apply obtainProxy_cases in Hp as [Hc Hp].
    destruct (proxyHandler st).
    + destruct Hp as (r & Hr & Hj1 & _). destruct r as [p0|what]; [discriminate|].
      injection Hr as ->. exists [GetProxy (Failed what)].
      split; [right; now eexists|]. left.
      split; [exact Hj1|]. split; [exact Hc|]. now exists what.
    + destruct Hp as [Ho _]. discriminate.
Qed.

Lemma fetchSessionCookie_advances (target : jsstring) (st st' : VintedScraper)
      (o : outcome unit) :
  fetchSessionCookie st = (o, st') -> advances target st st'.
Proof.
  intros H. apply fetchSessionCookie_token in H as (pre & Hpre & H).
  assert (Hrev : forall held l, tokenTrace target held (rev pre ++ l)
                                = tokenTrace target held l).
  { intros held l. destruct Hpre as [->|[r ->]]; reflexivity. }
  destruct H as [(Hj & Hc & _)|(proxy & d & Hj & Hd)].
  - exists pre. split; [exact Hj|]. unfold replays.
    rewrite <- (app_nil_r (rev pre)), Hrev, Hc. reflexivity.
  - eexists (_ :: pre). split; [exact Hj|]. unfold replays.
    cbn [rev]. rewrite Hrev. cbn [tokenTrace cookie url].
    change (streq (lit "https://vinted.de") (lit "https://vinted.de")) with true.
    cbv iota.
    destruct d as [what|what|res].
    + now rewrite (proj2 Hd).
    + now rewrite (proj2 Hd).
    + destruct (extractCookie res); now rewrite (proj2 Hd).
Qed.

Lemma ensureSession_advances (target : jsstring) (st st' : VintedScraper)
      (o : outcome unit) :
  ensureSession st = (o, st') -> advances target st st'.
Proof.
  unfold ensureSession. destruct (noSession (sessionCookie st)).
  - apply fetchSessionCookie_advances.
  - intros H. injection H as <- <-. apply advances_refl.
Qed.

Lemma attempt_advances (target : jsstring) (st st' : VintedScraper)
      (o : outcome pass) :
  attempt target st = (o, st') -> advances target st st'.
Proof.
  unfold attempt. run_steps. unfold Step.
  destruct (ensureSession st) as [[[]|e0] s1] eqn:He;
    pose proof (ensureSession_advances target _ _ _ He) as A1.
  2:{ intros H. injection H as <- <-. exact A1. }
  destruct (ensureSession_effect _ _ _ He) as (_ & _ & token & Htok).
  destruct (obtainProxy s1) as [[proxy|e1] s2] eqn:Hp;
    pose proof (obtainProxy_advances target _ _ _ Hp) as A2;
    pose proof (advances_trans target _ _ _ A1 A2) as A12.
  2:{ intros H. injection H as <- <-. exact A12. }
  destruct (obtainProxy_frame _ _ _ Hp) as [Hc2 _].
  match goal with
  | |- context [call_fetch ?r s2] => set (req := r)
  end.
  destruct (call_fetch req s2) as [d s3] eqn:Hf.
  assert (A3 : advances target s2 s3).
  { apply call_fetch_frame in Hf as (Hc3 & _ & Hj3).
    exists [Fetch req d]. split; [exact Hj3|].
    unfold replays. subst req. rewrite Hc3, !Hc2, !Htok.
    cbn [rev app tokenTrace cookie url cookieText]. now rewrite !streq_refl. }
  pose proof (advances_trans target _ _ _ A12 A3) as A.
  clear A1 A2 A3 A12 He Hp Hf.
  destruct d as [what|what|res];
    try (intros H; injection H as <- <-; exact A).
  destruct (includes (text res) (lit "Request rate limit exceeded"));
    [intros H; injection H as <- <-; exact A|].
  destruct (includes (text res) (lit "<"));
    [intros H; injection H as <- <-; exact A|].
  destruct (JSON_parse (text res)) as [parsed|];
    [|intros H; injection H as <- <-; exact A].
  destruct (negb (streq proxy []));
    [destruct (set_proxy parsed proxy) as [json|e2]
    |pose (json := parsed); change parsed with json at 1];
    try (intros H; injection H as <- <-; exact A);
    (destruct (get_message_code json) as [message_code|e3];
     [|intros H; injection H as <- <-; exact A]);
    (destruct (strictEquals message_code (lit "invalid_authentication_token"));
     [destruct (fetchSessionCookie s3) as [[[]|e4] s4] eqn:Hrenew;
      pose proof (fetchSessionCookie_advances target _ _ _ Hrenew) as A4;
      intros H; injection H as <- <-;
      exact (advances_trans target _ _ _ A A4)
     |destruct (strictEquals message_code (lit "not_found"));
      intros H; injection H as <- <-; exact A]).
Qed.

(** A call of [#request] sends nothing but acquisition requests, without
    a cookie and to the root of the site, and requests to its URL that
    carry the token held when they leave; and the token changes by
    nothing but the answer to an acquisition. *)
Lemma request_advances (fuel : nat) (target : jsstring) :
  forall (st st' : VintedScraper) (o : outcome jsvalue),
    request fuel target st = Some (o, st') -> advances target st st'.
Proof.
  induction fuel as [|fuel IH]; intros st st' o H; [discriminate|].
  rewrite request_attempt in H.
  destruct (attempt target st) as [[[json|]|e] s1] eqn:Ha;
    pose proof (attempt_advances target _ _ _ Ha) as A.
  - injection H as <- <-. exact A.
  - exact (advances_trans target _ _ _ A (IH _ _ _ H)).
  - injection H as <- <-. exact A.
Qed.


Lemma tokenTrace_fetches (target : jsstring) (chronicle : list event) :
  forall held final,
    tokenTrace target held chronicle = Some final ->
    forall req d,
      In (Fetch req d) chronicle ->
      (cookie req = None /\ url req = lit "https://vinted.de")
      \/ (url req = target
          /\ exists token, cookie req = Some (lit "_vinted_fr_session=" ++ token)).
Proof.
  induction chronicle as [|e rest IH]; intros held final H req d Hin;
    [contradiction|].
  cbn [tokenTrace] in H. destruct e as [r|req0 d0].
  - destruct Hin as [Hin|Hin]; [discriminate | exact (IH _ _ H _ _ Hin)].
  - destruct (cookie req0) as [c|] eqn:Ec.
    + destruct held as [token|]; [|discriminate].
      destruct (streq (url req0) target) eqn:Eu; [|discriminate].
      destruct (streq c (lit "_vinted_fr_session=" ++ token)) eqn:Et;
        [|discriminate].
      cbn [andb] in H.
      destruct Hin as [Hin|Hin]; [|exact (IH _ _ H _ _ Hin)].
      injection Hin as <- <-. right.
      apply streq_eq in Eu, Et. split; [exact Eu|]. exists token.
      rewrite Ec, Et. reflexivity.
    + destruct (streq (url req0) (lit "https://vinted.de")) eqn:Eu; [|discriminate].
      destruct Hin as [Hin|Hin]; [|exact (IH _ _ H _ _ Hin)].
      injection Hin as <- <-. left. apply streq_eq in Eu. now split.
Qed.

Lemma tokenTrace_first (target : jsstring) (chronicle : list event) :
  forall final,
    tokenTrace target None chronicle = Some final ->
    match firstFetch chronicle with
    | Some (req, d) => url req = lit "https://vinted.de" /\ cookie req = None
    | None => final = None
    end.
Proof.
  induction chronicle as [|e rest IH]; intros final H; cbn [tokenTrace firstFetch] in *.
  - congruence.
  - destruct e as [r|req d]; [exact (IH _ H)|].
    destruct (cookie req); [discriminate|].
    destruct (streq (url req) (lit "https://vinted.de")) eqn:Eu; [|discriminate].
    apply streq_eq in Eu. now split.
Qed.

(** X6. Within one call of [#request], whatever its depth and however it
    ends, the journal grows by events that replay as follows: a request
    without a cookie goes to the root of the site and is an acquisition,
    whose answer alone can change the token; a request with a cookie goes
    to the URL of the call and carries the token held at that moment,
    never the text of a missing one. *)
Theorem request_token_discipline (fuel : nat) (target : jsstring)
        (st st' : VintedScraper) (o : outcome jsvalue) :
  request fuel target st = Some (o, st') ->
  exists new,
    journal st' = new ++ journal st
    /\ tokenTrace target (sessionCookie st) (rev new) = Some (sessionCookie st')
    /\ forall req d,
        In (Fetch req d) new ->
        (cookie req = None /\ url req = lit "https://vinted.de")
        \/ (url req = target
            /\ exists token,
                cookie req = Some (lit "_vinted_fr_session=" ++ token)).
Proof.
  intros H. destruct (request_advances fuel target st st' o H) as (new & Hj & Hr).
  exists new. split; [exact Hj|]. split; [exact Hr|].
  intros req d Hin. apply (tokenTrace_fetches target _ _ _ Hr req d).
  now apply in_rev in Hin.
Qed.

Lemma split_scan_first_in (sep : jsstring) (s : jsstring) :
  forall skip cur, In (nth 0 (split_scan sep skip cur s) [])
                      (split_scan sep skip cur s).
Proof.
  induction s as [|c t IH]; intros skip cur; cbn [split_scan].
  - now left.
  - destruct skip as [|k]; [|apply IH].
    destruct (startsWith (c :: t) sep); [now left | apply IH].
Qed.

Lemma extractCookie_clean (res : Response) (token : jsstring) :
  extractCookie res = Some token -> ~ In 59%N token.
Proof.
  unfold extractCookie.
  destruct (set_cookie res) as [header|]; [|discriminate].
  destruct (includes header (lit "_vinted_fr_session")); [|discriminate].
  destruct (at_index (split header (lit "_vinted_fr_session=")) 1)
    as [segment|]; [|discriminate].
  intros H. injection H as <-. intros Hin.
  pose proof (split_scan_first_in (lit ";") segment 0 []) as Hfirst.
  destruct (split_chars 59%N (fun _ => True) segment _ (fun _ _ => I) Hfirst
                        59%N Hin) as [_ Hne].
  now apply Hne.
Qed.

(** X7. The outcomes of [#fetchSessionCookie].  When it returns, the site
    has answered and the token now held is the one cut from that answer,
    which holds no [;].  When it throws, the token held before is still
    held, and the error is "Cannot fetch cookie", a [TypeError], or what
    a collaborator raised. *)
Theorem fetchSessionCookie_outcomes (st st' : VintedScraper) (o : outcome unit) :
  fetchSessionCookie st = (o, st') ->
  match o with
  | Ok _ =>
    exists req res rest token,
      journal st' = Fetch req (Responded res) :: rest
      /\ url req = lit "https://vinted.de"
      /\ cookie req = None
      /\ extractCookie res = Some token
      /\ sessionCookie st' = Some token
      /\ ~ In 59%N token
  | Throw e =>
    sessionCookie st' = sessionCookie st
    /\ (e = Error (lit "Cannot fetch cookie") \/ e = TypeError
        \/ exists what, e = Foreign what)
  end.
Proof.
  intros H. apply fetchSessionCookie_token in H as (pre & _ & H).
  destruct H as [(_ & Hc & what & ->)|(proxy & d & Hj & Hd)].
  - split; [exact Hc|]. right. right. now exists what.
  - destruct d as [what|what|res].
    + destruct Hd as [-> Hc]. split; [exact Hc|]. right. right. now exists what.
    + destruct Hd as [-> Hc]. split; [exact Hc|]. right. right. now exists what.
    + destruct (extractCookie res) as [token|] eqn:Ex.
      * destruct Hd as [-> Hc]. eexists _, res, _, token.
        split; [exact Hj|]. split; [reflexivity|]. split; [reflexivity|].
        split; [exact Ex|]. split; [exact Hc|].
        now apply (extractCookie_clean res).
      * destruct Hd as [[->| ->] Hc]; (split; [exact Hc|]); tauto.
Qed.

(** X8. A payload that is not an object.  When the body of the answer
    parses to [null] the call ends in a [TypeError]; when it parses to a
    number, a string or a boolean the call ends in a [TypeError] if a
    proxy was used, and returns the value as it is if none was. *)
Theorem primitive_payload (fuel : nat) (target : jsstring)
        (st st1 st2 st3 : VintedScraper) (proxy : jsstring) (res : Response)
        (parsed : jsvalue) :
  ensureSession st = (Ok tt, st1) ->
  obtainProxy st1 = (Ok proxy, st2) ->
  call_fetch
    {| url := target;
       cookie := Some (lit "_vinted_fr_session=" ++ cookieText (sessionCookie st2));
       agent := agentFor proxy |} st2 = (Responded res, st3) ->
  includes (text res) (lit "Request rate limit exceeded") = false ->
  includes (text res) (lit "<") = false ->
  JSON_parse (text res) = Some parsed ->
  isObject parsed = false ->
  request (S fuel) target st
  = Some (match parsed with
          | JNull => Throw TypeError
          | _ => if negb (streq proxy []) then Throw TypeError else Ok parsed
          end, st3).
Proof.
  intros He Hp Hf Hrate Hlt Hparse Hobj.
  rewrite request_attempt. unfold attempt. run_steps.
  rewrite He, Hp, Hf, Hrate, Hlt, Hparse.
  destruct parsed; try discriminate; destruct (negb (streq proxy []));
    reflexivity.
Qed.

(** X9. [boostItem] has nothing to do with the session: it leaves the
    token alone whatever happens, it asks the proxy source before each
    request when there is one and sends every request through the proxy
    just obtained, and without a source it asks for no proxy at all. *)
Theorem boostItem_leaves_session (fuel : nat) (target : jsstring) (views : Z)
        (st st' : VintedScraper) (o : outcome unit) :
  boostItem fuel target views st = Some (o, st') ->
  sessionCookie st' = sessionCookie st
  /\ (proxyHandler st = None <-> proxyHandler st' = None)
  /\ exists new, journal st' = new ++ journal st /\ shaped (proxyHandler st) new.
Proof.
  unfold boostItem. generalize 0%Z as i. revert st.
  induction fuel as [|fuel IH]; intros st i H; [discriminate|].
  cbn [boostLoop] in H. destruct (i <? views)%Z.
  - assert (Honce : forall o1 s1,
               boostOnce target st = (o1, s1) ->
               sessionCookie s1 = sessionCookie st
               /\ (proxyHandler st = None <-> proxyHandler s1 = None)
               /\ exists new, journal s1 = new ++ journal st
                              /\ shaped (proxyHandler st) new).
    { intros o1 s1. unfold boostOnce. run_steps.
      destruct (obtainProxy st) as [[proxy|e] s0] eqn:Hp.
      - match goal with
        | |- context [call_fetch ?r s0] => set (req := r)
        end.
        destruct (call_fetch req s0) as [d s2] eqn:Hf.
        destruct (proxied_fetch st s0 s2 proxy req d Hp Hf eq_refl)
          as (Hc & Hh & new & Hj & Hs & _).
        intros H1.
        assert (s1 = s2) by (destruct d; now injection H1 as _ <-). subst s1.
        split; [exact Hc|]. split; [exact Hh|].
        eexists (_ :: _). split; [exact Hj | exact Hs].
      - intros H1. injection H1 as _ <-.
        destruct (obtainProxy_failed _ _ _ Hp) as (_ & Hh & Hnew).
        destruct (obtainProxy_frame _ _ _ Hp) as [Hc _].
        now split; [|split]. }
    destruct (boostOnce target st) as [[[]|e] s1] eqn:Hb;
      destruct (Honce _ _ eq_refl) as (Hc & Hh & new & Hj & Hs);
      destruct (IH _ _ H) as (Hc' & Hh' & new' & Hj' & Hs');
      (split; [congruence|]); (split; [tauto|]);
      exists (new' ++ new);
      (split; [rewrite Hj', Hj; apply app_assoc|]);
      (apply shaped_app; [|exact Hs]);
      (apply (shaped_same (proxyHandler s1)); [tauto | exact Hs']).
  - unfold finish, ret in H. injection H as _ <-.
    split; [reflexivity|]. split; [reflexivity|].
    exists []. split; [reflexivity | apply shaped_nil].
Qed.

(** X10. When every attempt fails on the spot, [boostItem] never returns:
    the counter is put back each time, so for a positive number of views
    the loop goes on at every depth. *)
Theorem boostItem_stuck (target : jsstring) (views : Z)
        (stuck : VintedScraper -> Prop) :
  (forall st, stuck st ->
              exists e st', boostOnce target st = (Throw e, st') /\ stuck st') ->
  (0 < views)%Z ->
  forall fuel st, stuck st -> boostItem fuel target views st = None.
Proof.
  intros Hstuck Hviews fuel. unfold boostItem.
  induction fuel as [|fuel IH]; intros st Hst; [reflexivity|].
  cbn [boostLoop].
  assert (E : (0 <? views)%Z = true) by now apply Z.ltb_lt.
  rewrite E. destruct (Hstuck st Hst) as (e & st1 & -> & Hst1).
  change (0 - 1 + 1)%Z with 0%Z. now apply IH.
Qed.

Lemma request_shaped (fuel : nat) (target : jsstring) :
  forall (st st' : VintedScraper) (o : outcome jsvalue),
    request fuel target st = Some (o, st') ->
    (proxyHandler st = None <-> proxyHandler st' = None)
    /\ exists new, journal st' = new ++ journal st /\ shaped (proxyHandler st) new.
Proof.
  induction fuel as [|fuel IH]; intros st st' o H; [discriminate|].
  rewrite request_attempt in H.
  destruct (attempt target st) as [[[json|]|e] s1] eqn:Ha;
    destruct (attempt_effect _ _ _ _ Ha) as (Hh & new & Hj & Hs & _).
  - injection H as _ <-. split; [exact Hh|]. now exists new.
  - destruct (IH _ _ _ H) as (Hh' & new' & Hj' & Hs').
    split; [tauto|]. exists (new' ++ new).
    split; [rewrite Hj', Hj; apply app_assoc|].
    apply shaped_app; [|exact Hs].
    apply (shaped_same (proxyHandler s1)); [tauto | exact Hs'].
  - injection H as _ <-. split; [exact Hh|]. now exists new.
Qed.

(** X11. The first call on a new instance, through any of the three
    endpoints.  The instance has a proxy source exactly when an array of
    proxies was given, an empty one included, and the whole journal has
    the matching shape; and the first request that leaves, if any does,
    is the acquisition of a session, without a cookie and to the root of
    the site. *)
Theorem new_instance_first_contact
        (newProxyHandler : list jsstring -> ProxyHandler)
        (proxies : option (list jsstring)) (w : World)
        (fuel : nat) (id : Z) (source : jsstring) (run : Run jsvalue)
        (o : outcome jsvalue) (st' : VintedScraper) :
  In run [search fuel source; fetchUser fuel id; fetchItem fuel id] ->
  run (construct newProxyHandler proxies w) = Some (o, st') ->
  (proxies = None <-> proxyHandler st' = None)
  /\ shaped (option_map newProxyHandler proxies) (journal st')
  /\ match firstFetch (rev (journal st')) with
     | Some (req, d) => url req = lit "https://vinted.de" /\ cookie req = None
     | None => sessionCookie st' = None
     end.
Proof.
  intros Hrun H.
  set (st := construct newProxyHandler proxies w) in *.
  assert (Hnone : proxies = None <-> proxyHandler st = None)
    by (subst st; destruct proxies; cbn; split; congruence).
  assert (Hreq : forall target,
             request fuel target st = Some (o, st') ->
             (proxies = None <-> proxyHandler st' = None)
             /\ shaped (option_map newProxyHandler proxies) (journal st')
             /\ match firstFetch (rev (journal st')) with
                | Some (req, d) =>
                  url req = lit "https://vinted.de" /\ cookie req = None
                | None => sessionCookie st' = None
                end).
  { intros target Hr.
    destruct (request_shaped _ _ _ _ _ Hr) as (Hh & new & Hj & Hs).
    destruct (request_advances _ _ _ _ _ Hr) as (new' & Hj' & Hrep).
    change (journal st) with (@nil event) in Hj, Hj'.
    rewrite app_nil_r in Hj, Hj'. subst new new'.
    split; [tauto|]. split; [exact Hs|].
    exact (tokenTrace_first target _ _ Hrep). }
  destruct Hrun as [<-|[<-|[<-|[]]]].
  - unfold search in H. destruct (getQueryParameters source) as [q|e].
    + exact (Hreq _ H).
    + injection H as _ <-. split; [exact Hnone|].
      split; [apply shaped_nil | reflexivity].
  - exact (Hreq _ H).
  - exact (Hreq _ H).
Qed.

(** ** Failures of the collaborators *)

Lemma concludes_trans {A B} (a : A) (o : outcome B) (s1 s2 s3 : VintedScraper) :
  concludes (Ok a) s1 s2 -> concludes o s2 s3 -> concludes o s1 s3.
Proof.
  intros (n1 & Hj1 & Hq1) (n2 & Hj2 & He2). exists (n2 ++ n1).
  split; [rewrite Hj2, Hj1; apply app_assoc|].
  cbn [ending] in Hq1.
  destruct o as [b|[message| | | |what]]; cbn [ending] in *;
    try (apply Forall_app; now split).
  destruct He2 as (e & rest & -> & Hr & Hq).
  exists e, (rest ++ n1). split; [reflexivity|]. split; [exact Hr|].
  apply Forall_app. now split.
Qed.

Lemma concludes_cast {A B} (e : exn) (s1 s2 : VintedScraper) :
  concludes (@Throw A e) s1 s2 -> concludes (@Throw B e) s1 s2.
Proof. intros H. exact H. Qed.

Lemma concludes_quiet {A B} (a : A) (o : outcome B) (s1 s2 : VintedScraper) :
  (forall what, o <> Throw (Foreign what)) ->
  concludes (Ok a) s1 s2 -> concludes o s1 s2.
Proof.
  intros Ho (new & Hj & Hq). exists new. split; [exact Hj|].
  destruct o as [b|[message| | | |what]]; try exact Hq.
  now contradiction (Ho what).
Qed.

Lemma obtainProxy_concludes (st st' : VintedScraper) (o : outcome jsstring) :
  obtainProxy st = (o, st') -> concludes o st st'.
Proof.
  unfold obtainProxy. destruct (proxyHandler st) as [h|].
  - destruct (getProxy h) as [[proxy|what] h']; intros H; injection H as <- <-.
    + exists [GetProxy (Returned proxy)]. split; [reflexivity|].
      repeat constructor.
    + exists [GetProxy (Failed what)]. split; [reflexivity|].
      exists (GetProxy (Failed what)), []. repeat split. constructor.
  - intros H. injection H as <- <-. exists []. split; [reflexivity | constructor].
Qed.

Lemma await_fetch_concludes (req : Request) (st st' : VintedScraper)
      (o : outcome Response) :
  await_fetch req st = (o, st') -> concludes o st st'.
Proof.
  unfold await_fetch.
  destruct (call_fetch req st) as [d s1] eqn:Hf.
  apply call_fetch_frame in Hf as (_ & _ & Hj).
  destruct d as [what|what|res]; intros H; injection H as <- <-;
    eexists [_]; (split; [exact Hj|]).
  - exists (Fetch req (Raised what)), []. repeat split. constructor.
  - exists (Fetch req (Rejected what)), []. repeat split. constructor.
  - repeat constructor.
Qed.

Lemma fetchSessionCookie_concludes (st st' : VintedScraper) (o : outcome unit) :
  fetchSessionCookie st = (o, st') -> concludes o st st'.
Proof.
  unfold fetchSessionCookie, bind.
  destruct (obtainProxy st) as [[proxy|e] s1] eqn:Hp;
    pose proof (obtainProxy_concludes _ _ _ Hp) as C1.
  2:{ intros H. injection H as <- <-. exact (concludes_cast e _ _ C1). }
  match goal with
  | |- context [await_fetch ?r s1] => set (req := r)
  end.
  destruct (await_fetch req s1) as [[res|e] s2] eqn:Hf;
    pose proof (await_fetch_concludes _ _ _ _ Hf) as C2.
  2:{ intros H. injection H as <- <-.
      exact (concludes_trans proxy _ _ _ _ C1 (concludes_cast e _ _ C2)). }
  pose proof (concludes_trans proxy _ _ _ _ C1 C2) as C.
  unfold throw, setSessionCookie.
  destruct (set_cookie res) as [header|].
  - destruct (negb (includes header (lit "_vinted_fr_session"))).
    + intros H. injection H as <- <-.
      apply (concludes_quiet res); [discriminate | exact C].
    + destruct (at_index (split header (lit "_vinted_fr_session=")) 1).
      * intros H. injection H as <- <-.
        destruct C as (new & Hj & Hq). exists new. split; [exact Hj | exact Hq].
      * intros H. injection H as <- <-.
        apply (concludes_quiet res); [discriminate | exact C].
  - intros H. injection H as <- <-.
    apply (concludes_quiet res); [discriminate | exact C].
Qed.

Lemma ensureSession_concludes (st st' : VintedScraper) (o : outcome unit) :
  ensureSession st = (o, st') -> concludes o st st'.
Proof.
  unfold ensureSession. destruct (noSession (sessionCookie st)).
  - apply fetchSessionCookie_concludes.
  - intros H. injection H as <- <-. exists []. split; [reflexivity | constructor].
Qed.

Lemma set_proxy_throws (parsed : jsvalue) (proxy : jsstring) (e : exn) :
  set_proxy parsed proxy = Throw e -> e = TypeError.
Proof. destruct parsed; cbn; congruence. Qed.

Lemma get_message_code_throws (json : jsvalue) (e : exn) :
  get_message_code json = Throw e -> e = TypeError.
Proof. destruct json; cbn; congruence. Qed.

Lemma attempt_concludes (target : jsstring) (st st' : VintedScraper)
      (o : outcome pass) :
  attempt target st = (o, st') -> concludes o st st'.
Proof.
  unfold attempt, bind. unfold Step.
  destruct (ensureSession st) as [[[]|e0] s1] eqn:He;
    pose proof (ensureSession_concludes _ _ _ He) as C1.
  2:{ intros H. injection H as <- <-. exact (concludes_cast e0 _ _ C1). }
  destruct (obtainProxy s1) as [[proxy|e1] s2] eqn:Hp;
    pose proof (obtainProxy_concludes _ _ _ Hp) as C2.
  2:{ intros H. injection H as <- <-.
      exact (concludes_trans tt _ _ _ _ C1 (concludes_cast e1 _ _ C2)). }
  pose proof (concludes_trans tt _ _ _ _ C1 C2) as C12.
  unfold readSessionCookie.
  match goal with
  | |- context [await_fetch ?r s2] => set (req := r)
  end.
  destruct (await_fetch req s2) as [[res|e2] s3] eqn:Hf;
    pose proof (await_fetch_concludes _ _ _ _ Hf) as C3.
  2:{ intros H. injection H as <- <-.
      exact (concludes_trans proxy _ _ _ _ C12 (concludes_cast e2 _ _ C3)). }
  pose proof (concludes_trans proxy _ _ _ _ C12 C3) as C.
  clear C1 C2 C12 C3 He Hp Hf.
  assert (Hend : forall o0 : outcome pass,
             (forall what, o0 <> Throw (Foreign what)) ->
             (o0, s3) = (o, st') -> concludes o st st').
  { intros o0 Ho H. injection H as <- <-. now apply (concludes_quiet res). }
  unfold throw, ret, lift.
  destruct (includes (text res) (lit "Request rate limit exceeded"));
    [apply Hend; discriminate|].
  destruct (includes (text res) (lit "<")); [apply Hend; discriminate|].
  destruct (JSON_parse (text res)) as [parsed|]; [|apply Hend; discriminate].
  assert (Hjson : forall json,
             match get_message_code json with
             | Ok a =>
               (if strictEquals a (lit "invalid_authentication_token")
                then
                  fun st0 : VintedScraper =>
                    match fetchSessionCookie st0 with
                    | (Ok _, st'0) => (Ok Retry, st'0)
                    | (Throw e, st'0) => (Throw e, st'0)
                    end
                else
                  if strictEquals a (lit "not_found")
                  then fun st0 : VintedScraper =>
                         (Throw (Error (lit "not_found")), st0)
                  else fun st0 : VintedScraper => (Ok (Return json), st0)) s3
             | Throw e => (Throw e, s3)
             end = (o, st') -> concludes o st st').
  { intros json.
    destruct (get_message_code json) as [message_code|e3] eqn:Eg.
    - destruct (strictEquals message_code (lit "invalid_authentication_token")).
      + destruct (fetchSessionCookie s3) as [[[]|e4] s4] eqn:Hrenew;
          pose proof (fetchSessionCookie_concludes _ _ _ Hrenew) as C4;
          intros H; injection H as <- <-.
        * apply (concludes_quiet tt); [discriminate|].
          exact (concludes_trans res _ _ _ _ C C4).
        * exact (concludes_trans res _ _ _ _ C (concludes_cast e4 _ _ C4)).
      + destruct (strictEquals message_code (lit "not_found"));
          apply Hend; discriminate.
    - apply get_message_code_throws in Eg. subst e3. apply Hend. discriminate. }
  destruct (negb (streq proxy [])).
  - destruct (set_proxy parsed proxy) as [json|e2] eqn:Es.
    + apply Hjson.
    + apply set_proxy_throws in Es. subst e2. apply Hend. discriminate.
  - apply Hjson.
Qed.

Lemma request_concludes (fuel : nat) (target : jsstring) :
  forall (st st' : VintedScraper) (o : outcome jsvalue),
    request fuel target st = Some (o, st') -> concludes o st st'.
Proof.
  induction fuel as [|fuel IH]; intros st st' o H; [discriminate|].
  rewrite request_attempt in H.
  destruct (attempt target st) as [[[json|]|e] s1] eqn:Ha;
    pose proof (attempt_concludes target _ _ _ Ha) as C.
  - injection H as <- <-. apply (concludes_quiet (Return json)); [discriminate|].
    exact C.
  - exact (concludes_trans Retry _ _ _ _ C (IH _ _ _ H)).
  - injection H as <- <-. exact (concludes_cast e _ _ C).
Qed.

(** X14. [#request] passes on what a collaborator throws, and stops
    there: when it ends in the error of a collaborator, the latest event
    of the journal is the call that raised this very error, and no call
    before it had failed; and when it ends in any other way, no call to
    a collaborator has failed at all.  Nothing is caught and nothing is
    tried again after a failure. *)
Theorem request_passes_on_failures (fuel : nat) (target : jsstring)
        (st st' : VintedScraper) (o : outcome jsvalue) :
  request fuel target st = Some (o, st') ->
  exists new,
    journal st' = new ++ journal st
    /\ match o with
       | Throw (Foreign what) =>
         exists e rest,
           new = e :: rest /\ raisedBy e = Some what /\ quiet rest
       | _ => quiet new
       end.
Proof.
  intros H.
  destruct (request_concludes fuel target st st' o H) as (new & Hj & Hend).
  exists new. split; [exact Hj|].
  destruct o as [json|[message| | | |what]]; exact Hend.
Qed.

(** ** The proxy of each attempt *)

Lemma agentFor_through (proxy : jsstring) (req : Request) :
  agent req = agentFor proxy -> through proxy req.
Proof. destruct proxy; intros H; exact H. Qed.

Lemma fresh_own (l : list event) : fresh_proxies l -> own_proxies l.
Proof.
  induction 1 as [|what l H IH|req d proxy l Ha H IH]; constructor;
    try assumption. now apply agentFor_through.
Qed.

(** C10. Every attempt of a call, the one after a stale token included
    and however the call ends, asks the proxy source for a proxy of its
    own and goes through it; the [proxy] noted on a payload returned is
    the one the last attempt obtained and went through; and without a
    proxy source no proxy is asked for, every request goes direct, and
    the payload is returned as parsed, with nothing noted on it. *)
Theorem payload_carries_last_proxy (fuel : nat) (target : jsstring)
        (st st' : VintedScraper) (o : outcome jsvalue) :
  request fuel target st = Some (o, st') ->
  exists new,
    journal st' = new ++ journal st /\
    match proxyHandler st with
    | Some _ =>
      own_proxies new /\
      forall json,
        o = Ok json ->
        exists req res proxy rest parsed,
          new = Fetch req (Responded res) :: GetProxy (Returned proxy) :: rest /\
          url req = target /\
          through proxy req /\
          JSON_parse (text res) = Some parsed /\
          json = annotated proxy parsed
    | None =>
      direct new /\
      forall json,
        o = Ok json ->
        exists req res rest,
          new = Fetch req (Responded res) :: rest /\
          url req = target /\
          agent req = None /\
          JSON_parse (text res) = Some json
    end.
Proof.
  intros H.
  destruct (request_shaped fuel target st st' o H) as (_ & new & Hj & Hs).
  exists new. split; [exact Hj|].
  assert (Hlast : forall json,
             o = Ok json ->
             match proxyHandler st with
             | Some _ =>
               exists req res proxy rest parsed,
                 new = Fetch req (Responded res) :: GetProxy (Returned proxy) :: rest /\
                 url req = target /\
                 agent req = agentFor proxy /\
                 JSON_parse (text res) = Some parsed /\
                 json = annotated proxy parsed
             | None =>
               exists req res rest,
                 new = Fetch req (Responded res) :: rest /\
                 url req = target /\
                 agent req = None /\
                 JSON_parse (text res) = Some json
             end).
  { intros json ->.
    destruct (payload_of_last_attempt fuel target st st' json H)
      as (new' & Hj' & Hlast).
    assert (new' = new) by (apply (app_inv_tail (journal st)); congruence).
    subst new'. destruct (proxyHandler st); [exact (proj2 Hlast) | exact (proj2 Hlast)]. }
  destruct (proxyHandler st); cbn [shaped] in Hs.
  - split; [now apply fresh_own|]. intros json Ho.
    destruct (Hlast json Ho) as (req & res & proxy & rest & parsed & Hn & Hu & Ha & Hp & Hjs).
    exists req, res, proxy, rest, parsed.
    split; [exact Hn|]. split; [exact Hu|]. split; [now apply agentFor_through|].
    now split.
  - split; [exact Hs|]. exact Hlast.
Qed.

End TokenFacts.

(** ** The annotation and the identifiers *)

Lemma member_define (ms : list (jsstring * jsvalue)) (k : jsstring)
      (v : jsvalue) :
  member (define ms k v) k = Some v.
Proof.
  induction ms as [|[k0 v0] r IH]; cbn [define member].
  - now rewrite streq_refl.
  - destruct (streq k0 k) eqn:E; cbn [member]; rewrite E; [reflexivity | exact IH].
Qed.

Lemma define_define (ms : list (jsstring * jsvalue)) (k : jsstring)
      (v v' : jsvalue) :
  define (define ms k v) k v' = define ms k v'.
Proof.
  induction ms as [|[k0 v0] r IH]; cbn [define].
  - now rewrite streq_refl.
  - destruct (streq k0 k) eqn:E; cbn [define]; rewrite E; [reflexivity|].
    now rewrite IH.
Qed.

(** X12. [json.proxy = proxy], when it does not throw: reading [proxy]
    back gives the proxy, whatever the payload held under that name; every other
    named property and every element is what the payload had; and a
    second assignment replaces the first. *)
Theorem proxy_annotation_overwrites (parsed json : jsvalue) (proxy : jsstring) :
  set_proxy parsed proxy = Ok json ->
  ownMember json (lit "proxy") = Some (JString proxy)
  /\ (forall k, k <> lit "proxy" -> ownMember json k = ownMember parsed k)
  /\ elementsOf json = elementsOf parsed
  /\ forall proxy', set_proxy json proxy' = set_proxy parsed proxy'.
Proof.
  intros H.
  assert (Hother : forall ms k, k <> lit "proxy" ->
             member (define ms (lit "proxy") (JString proxy)) k = member ms k).
  { intros ms k Hk. apply member_define_other. apply streq_neq. congruence. }
  destruct parsed; try discriminate; injection H as <-;
    cbn [ownMember elementsOf set_proxy].
  - split; [apply member_define|]. split; [intros k Hk; now apply Hother|].
    split; [reflexivity|]. intros proxy'. now rewrite define_define.
  - split; [apply member_define|]. split; [intros k Hk; now apply Hother|].
    split; [reflexivity|]. intros proxy'. now rewrite define_define.
Qed.

Lemma lit_inj (s1 s2 : string) : lit s1 = lit s2 -> s1 = s2.
Proof.
  unfold lit. intros H.
  apply (f_equal (map ascii_of_N)) in H. rewrite !map_map in H.
  rewrite !(map_ext _ (fun a => a) ascii_N_embedding), !map_id in H.
  apply (f_equal string_of_list_ascii) in H.
  now rewrite !string_of_list_ascii_of_string in H.
Qed.

Lemma to_int_proper (z : Z) :
  Z.to_int z <> Decimal.Pos Decimal.Nil /\ Z.to_int z <> Decimal.Neg Decimal.Nil.
Proof.
  split; intros H; pose proof (f_equal Z.of_int H) as E;
    rewrite DecimalZ.of_to in E; cbn in E; subst z; discriminate H.
Qed.

(** Different identifiers are written differently. *)
Lemma decimal_inj (a b : Z) : decimal a = decimal b -> a = b.
Proof.
  unfold decimal. intros H. apply lit_inj in H.
  apply (f_equal DecimalString.NilZero.int_of_string) in H.
  destruct (to_int_proper a) as [Ha1 Ha2], (to_int_proper b) as [Hb1 Hb2].
  rewrite !DecimalString.NilZero.isi in H by assumption.
  injection H as H. apply (f_equal Z.of_int) in H.
  now rewrite !DecimalZ.of_to in H.
Qed.

Lemma numberToString_safe (id : Z) :
  (Z.abs id <= 9007199254740992)%Z -> numberToString id = decimal id.
Proof.
  intros H. unfold numberToString. apply Z.leb_le in H. now rewrite H.
Qed.

Example numberToString_on_small_inputs :
  numberToString 0 = lit "0"
  /\ numberToString 42 = lit "42"
  /\ numberToString (-7) = lit "-7"
  /\ numberToString 9007199254740992 = lit "9007199254740992"
  /\ numberToString 9007199254740993 = lit "9007199254740992"
  /\ numberToString 9007199254740995 = lit "9007199254740996"
  /\ numberToString (2 ^ 63) = lit "9223372036854776000"
  /\ numberToString (2 ^ 64) = lit "18446744073709552000"
  /\ numberToString (- 2 ^ 64) = lit "-18446744073709552000"
  /\ numberToString (10 ^ 20) = lit "100000000000000000000"
  /\ numberToString 123456789012345678901 = lit "123456789012345680000"
  /\ numberToString (10 ^ 21) = lit "1e+21"
  /\ numberToString (10 ^ 23) = lit "1e+23"
  /\ numberToString (2 ^ 70) = lit "1.1805916207174113e+21"
  /\ numberToString 123456789012345678901234567890 = lit "1.2345678901234568e+29"
  /\ numberToString (2 ^ 1024 - 2 ^ 971) = lit "1.7976931348623157e+308"
  /\ numberToString (2 ^ 1024) = lit "Infinity"
  /\ numberToString (- 2 ^ 1024) = lit "-Infinity".
Proof.
  repeat match goal with |- _ /\ _ => split end; vm_compute; reflexivity.
Qed.

(** X13. [fetchUser] and [fetchItem] ask, acquisitions apart, for nothing
    but the URL that ends in the identifier as a template prints it; up
    to 2^53 in absolute value that URL stands for this identifier alone;
    and no user URL is an item URL, the two being on different hosts. *)
Theorem identifier_endpoints {node : Collaborators} (fuel : nat) (id : Z)
        (st st' : VintedScraper) (o : outcome jsvalue) :
  (fetchUser fuel id st = Some (o, st') ->
   exists new,
     journal st' = new ++ journal st
     /\ forall req d,
         In (Fetch req d) new -> cookie req <> None ->
         url req = lit "https://www.vinted.be/api/v2/users/" ++ numberToString id)
  /\ (fetchItem fuel id st = Some (o, st') ->
      exists new,
        journal st' = new ++ journal st
        /\ forall req d,
            In (Fetch req d) new -> cookie req <> None ->
            url req = lit "https://www.vinted.de/api/v2/items/" ++ numberToString id)
  /\ forall id',
      ((Z.abs id <= 9007199254740992)%Z ->
       (Z.abs id' <= 9007199254740992)%Z ->
       (lit "https://www.vinted.be/api/v2/users/" ++ numberToString id'
        = lit "https://www.vinted.be/api/v2/users/" ++ numberToString id ->
        id' = id)
       /\ (lit "https://www.vinted.de/api/v2/items/" ++ numberToString id'
           = lit "https://www.vinted.de/api/v2/items/" ++ numberToString id ->
           id' = id))
      /\ lit "https://www.vinted.be/api/v2/users/" ++ numberToString id
         <> lit "https://www.vinted.de/api/v2/items/" ++ numberToString id'.
Proof.
  assert (Hreq : forall target,
             request fuel target st = Some (o, st') ->
             exists new,
               journal st' = new ++ journal st
               /\ forall req d,
                   In (Fetch req d) new -> cookie req <> None ->
                   url req = target).
  { intros target H.
    destruct (request_advances fuel target st st' o H) as (new & Hj & Hr).
    exists new. split; [exact Hj|]. intros req d Hin Hc.
    apply in_rev in Hin.
    destruct (tokenTrace_fetches target _ _ _ Hr req d Hin) as [[Hn _]|[Hu _]];
      [contradiction | exact Hu]. }
  split; [apply Hreq|]. split; [apply Hreq|].
  intros id'. split.
  - intros Hid Hid'. rewrite !(numberToString_safe id Hid).
    rewrite !(numberToString_safe id' Hid').
    split; intros H; apply app_inv_head in H; now apply decimal_inj.
  - intros H. apply (f_equal (fun s => nth 19 s 0%N)) in H. lazy in H.
    discriminate H.
Qed.

(** ** Instances of the properties *)

Import Scenes.

Lemma request_token_discipline_witness :
  exists st',
    request 3 endpoint refusedTwice = Some (Ok parsedPayload, st')
    /\ exists new,
        journal st' = new ++ journal refusedTwice
        /\ tokenTrace endpoint (Some (lit "T0")) (rev new)
           = Some (sessionCookie st')
        /\ forall req d,
            In (Fetch req d) new ->
            (cookie req = None /\ url req = lit "https://vinted.de")
            \/ (url req = endpoint
                /\ exists token,
                    cookie req = Some (lit "_vinted_fr_session=" ++ token)).
Proof.
  eexists.
  refine ((fun H => conj H
             (request_token_discipline (node := scripted) 3 endpoint
                refusedTwice _ _ H)) _).
  vm_compute. reflexivity.
Defined.

Lemma fetchSessionCookie_outcomes_witness :
  exists st',
    fetchSessionCookie (greeted (Some (lit "T0")) (Some (lit "lang=fr; path=/")))
    = (Throw (Error (lit "Cannot fetch cookie")), st')
    /\ sessionCookie st'
       = sessionCookie (greeted (Some (lit "T0")) (Some (lit "lang=fr; path=/")))
    /\ (Error (lit "Cannot fetch cookie") = Error (lit "Cannot fetch cookie")
        \/ Error (lit "Cannot fetch cookie") = TypeError
        \/ exists what, Error (lit "Cannot fetch cookie") = Foreign what).
Proof.
  eexists.
  refine ((fun H => conj H
             (fetchSessionCookie_outcomes (node := scripted) _ _ _ H)) _).
  vm_compute. reflexivity.
Defined.

Lemma primitive_payload_witness :
  (exists st3,
      request 1 endpoint (answered None (lit "5"))
      = Some (Ok (JNumber (lit "5")), st3))
  /\ (exists st3,
         request 1 endpoint (answered (Some [lit "http://p1:80"]) (lit "5"))
         = Some (Throw TypeError, st3))
  /\ (exists st3,
         request 1 endpoint (answered None (lit "null"))
         = Some (Throw TypeError, st3)).
Proof.
  split; [|split]; eexists.
  - exact (primitive_payload (node := scripted) 0 endpoint
             (answered None (lit "5")) _ _ _ [] _ (JNumber (lit "5"))
             eq_refl eq_refl eq_refl eq_refl eq_refl eq_refl eq_refl).
  - exact (primitive_payload (node := scripted) 0 endpoint
             (answered (Some [lit "http://p1:80"]) (lit "5")) _ _ _
             (lit "http://p1:80") _ (JNumber (lit "5"))
             eq_refl eq_refl eq_refl eq_refl eq_refl eq_refl eq_refl).
  - exact (primitive_payload (node := scripted) 0 endpoint
             (answered None (lit "null")) _ _ _ [] _ JNull
             eq_refl eq_refl eq_refl eq_refl eq_refl eq_refl eq_refl).
Defined.

Lemma boostItem_leaves_session_witness :
  exists st',
    boostItem 6 endpoint 3 flaky = Some (Ok tt, st')
    /\ sessionCookie st' = sessionCookie flaky
    /\ (proxyHandler flaky = None <-> proxyHandler st' = None)
    /\ exists new,
        journal st' = new ++ journal flaky /\ shaped (proxyHandler flaky) new.
Proof.
  eexists.
  refine ((fun H => conj H
             (boostItem_leaves_session (node := scripted) 6 endpoint 3 flaky
                _ _ H)) _).
  vm_compute. reflexivity.
Defined.

Lemma boostItem_stuck_witness :
  (0 < 3)%Z
  /\ proxyHandler unprovided = Some []
  /\ forall fuel, boostItem fuel endpoint 3 unprovided = None.
Proof.
  split; [reflexivity|]. split; [reflexivity|]. intros fuel.
  apply (boostItem_stuck (node := scripted) endpoint 3
           (fun st => proxyHandler st = Some [])).
  - intros [h c w j] H. cbn in H. subst h.
    eexists _, _. split; reflexivity.
  - reflexivity.
  - reflexivity.
Defined.

Lemma new_instance_first_contact_witness :
  exists o st',
    fetchItem 1 5 proxied = Some (o, st')
    /\ (Some [lit "http://p1:80"; lit "http://p2:80"] = None
        <-> proxyHandler st' = None)
    /\ fresh_proxies (journal st')
    /\ match firstFetch (rev (journal st')) with
       | Some (req, d) => url req = lit "https://vinted.de" /\ cookie req = None
       | None => sessionCookie st' = None
       end.
Proof.
  do 2 eexists.
  refine ((fun H => conj H
             (new_instance_first_contact (node := scripted)
                (fun proxies => proxies)
                (Some [lit "http://p1:80"; lit "http://p2:80"])
                [cookies (lit "_vinted_fr_session=T1; path=/"); body payload]
                1 5 [] (fetchItem 1 5) _ _
                (or_intror (or_intror (or_introl eq_refl))) H)) _).
  vm_compute. reflexivity.
Defined.

Lemma proxy_annotation_overwrites_witness :
  set_proxy (JObject [(lit "proxy", JString (lit "theirs")); (lit "id", JNumber (lit "1"))])
            (lit "http://p1:80")
  = Ok (JObject [(lit "proxy", JString (lit "http://p1:80"));
                 (lit "id", JNumber (lit "1"))])
  /\ ownMember (JObject [(lit "proxy", JString (lit "http://p1:80"));
                         (lit "id", JNumber (lit "1"))]) (lit "proxy")
     = Some (JString (lit "http://p1:80")).
Proof.
  refine ((fun H => conj H (proj1 (proxy_annotation_overwrites _ _ _ H))) _).
  reflexivity.
Defined.

Lemma identifier_endpoints_witness :
  exists o st',
    fetchUser 1 42 newcomer = Some (o, st')
    /\ exists new,
        journal st' = new ++ journal newcomer
        /\ forall req d,
            In (Fetch req d) new -> cookie req <> None ->
            url req = lit "https://www.vinted.be/api/v2/users/42".
Proof.
  do 2 eexists.
  refine ((fun H => conj H
             (proj1 (identifier_endpoints (node := scripted) 1 42 newcomer _ _) H))
            _).
  vm_compute. reflexivity.
Defined.

Lemma request_passes_on_failures_witness :
  exists st',
    request 1 endpoint (start None (Some (lit "T0")) [])
    = Some (Throw (Foreign (lit "ECONNRESET")), st')
    /\ exists new,
        journal st' = new ++ []
        /\ exists e rest,
            new = e :: rest /\ raisedBy e = Some (lit "ECONNRESET") /\ quiet rest.
Proof.
  eexists.
  refine ((fun H => conj H
             (request_passes_on_failures (node := scripted) 1 endpoint
                (start None (Some (lit "T0")) []) _ _ H)) _).
  vm_compute. reflexivity.
Defined.

(** ** The order of the parameters *)

Lemma ownProperty_seen (o : object) (k : jsstring) :
  existsb (fun k' => streq k' k) (map fst o)
  = match ownProperty o k with Some _ => true | None => false end.
Proof.
  induction o as [|[k' v] r IH]; [reflexivity|].
  cbn [map fst existsb ownProperty].
  destruct (streq k' k); [reflexivity | exact IH].
Qed.

Lemma setProperty_keys (o : object) (k v : jsstring) :
  k <> lit "__proto__" ->
  map fst (setProperty o k v)
  = if existsb (fun k' => streq k' k) (map fst o)
    then map fst o else map fst o ++ [k].
Proof.
  intros Hk. rewrite ownProperty_seen. unfold setProperty.
  destruct (ownProperty o k).
  - apply replaceOwn_keys.
  - apply streq_neq in Hk. rewrite Hk. now rewrite map_app.
Qed.

Lemma organize_keys (params : list jsstring) :
  forall o o',
    organize params o = Ok o' ->
    Forall (fun k => k <> lit "__proto__") (map keyOf params) ->
    map fst o' = firsts (map fst o) (map keyOf params).
Proof.
  induction params as [|param rest IH]; intros o o' H Hk; cbn [organize] in H.
  - now injection H as <-.
  - destruct (malformed param); [discriminate|]. cbv zeta in H.
    cbn [map] in Hk. inversion Hk as [|? ? Hkey Hrest]; subst.
    rewrite (IH _ _ H Hrest). cbn [map firsts]. f_equal.
    fold (keyOf param).
    destruct (truthy (getProperty o (keyOf param)));
      now apply setProperty_keys.
Qed.

Lemma firsts_from (keys : list jsstring) :
  forall seen k, In k (firsts seen keys) -> In k seen \/ In k keys.
Proof.
  induction keys as [|k0 rest IH]; intros seen k H; cbn [firsts] in H.
  - now left.
  - apply IH in H as [H|H]; [|right; now right].
    destruct (existsb (fun k' => streq k' k0) seen); [now left|].
    apply in_app_or in H as [H|[<-|[]]]; [now left | right; now left].
Qed.

Lemma Object_keys_named (o : object) :
  Forall (fun k => arrayIndex k = None) (map fst o) ->
  Object_keys o = map fst o.
Proof.
  intros H. unfold Object_keys.
  assert (Hidx : indexKeys o = []).
  { induction o as [|[k v] r IH]; [reflexivity|].
    cbn [map fst] in H. inversion H as [|? ? Hk Hr]; subst.
    change (indexKeys ((k, v) :: r))
      with (match arrayIndex k with
            | Some n => insertIndex n k (indexKeys r)
            | None => indexKeys r
            end).
    rewrite Hk. now apply IH. }
  rewrite Hidx. cbn [map app].
  induction (map fst o) as [|k r IH]; [reflexivity|].
  inversion H as [|? ? Hk Hr]; subst.
  cbn [filter]. rewrite Hk. f_equal. now apply IH.
Qed.

(** X15. When no key of the query is an array index or [__proto__], the
    parameters of the result come in the order in which their keys first
    appear in the query, with [time] left out. *)
Theorem parameters_keep_their_order (source URI queryString : jsstring) :
  decodeURI source = Some URI ->
  getQueryParameters source = Ok queryString ->
  Forall (fun k => arrayIndex k = None /\ k <> lit "__proto__")
         (map keyOf (split (pluralize (nth 1 (split URI (lit "?")) []))
                           (lit "&"))) ->
  exists pairs : list (jsstring * jsstring),
    queryString = join (lit "&") (map parameter pairs)
    /\ map fst pairs
       = filter listed
           (firsts [] (map keyOf (split (pluralize (nth 1 (split URI (lit "?")) []))
                                        (lit "&")))).
Proof.
  unfold getQueryParameters. intros -> H Hkeys.
  destruct (negb (matchesVintedURI URI)); [discriminate|].
  destruct (negb (length (split URI (lit "?")) =? 2)%nat); [discriminate|].
  cbv zeta in H.
  set (params := split (pluralize (nth 1 (split URI (lit "?")) [])) (lit "&")) in *.
  destruct (organize params []) as [o|e] eqn:Eo; [|discriminate].
  injection H as <-.
  assert (Hproto : Forall (fun k => k <> lit "__proto__") (map keyOf params)).
  { rewrite Forall_forall in *. intros k Hk. exact (proj2 (Hkeys k Hk)). }
  pose proof (organize_keys params [] o Eo Hproto) as Ho. cbn [map] in Ho.
  assert (Hnamed : Forall (fun k => arrayIndex k = None) (map fst o)).
  { rewrite Ho. rewrite Forall_forall in *. intros k Hk.
    apply firsts_from in Hk as [[]|Hk]. exact (proj1 (Hkeys k Hk)). }
  exists (map (entry o) (filter listed (Object_keys o))).
  split; [apply formatParams_join|].
  rewrite map_map. unfold entry. cbn [fst]. rewrite map_id.
  now rewrite (Object_keys_named o Hnamed), Ho.
Qed.

Lemma parameters_keep_their_order_witness :
  exists pairs : list (jsstring * jsstring),
    lit "b=1,3&a=2" = join (lit "&") (map parameter pairs)
    /\ map fst pairs
       = filter listed
           (firsts []
              (map keyOf
                 (split (pluralize
                           (nth 1 (split (lit "https://www.vinted.be/catalog?b=1&a=2&time=4&b=3")
                                         (lit "?")) []))
                        (lit "&")))).
Proof.
  apply (parameters_keep_their_order
           (lit "https://www.vinted.be/catalog?b=1&a=2&time=4&b=3")
           (lit "https://www.vinted.be/catalog?b=1&a=2&time=4&b=3")
           (lit "b=1,3&a=2")).
  - vm_compute. reflexivity.
  - vm_compute. reflexivity.
  - match goal with
    | |- Forall ?P ?l => let l' := eval vm_compute in l in change (Forall P l')
    end.
    repeat (constructor; [split; [reflexivity | discriminate]|]).
    constructor.
Defined.

(** ** [decodeURI] on a string without escapes *)

(** X16. A string without [%] is decoded to itself. *)
Theorem decodeURI_without_escapes (source : jsstring) :
  ~ In 37%N source -> decodeURI source = Some source.
Proof.
  unfold decodeURI. induction source as [|c t IH]; intros H; [reflexivity|].
  rewrite decode_cons.
  assert (E : (c =? 37)%N = false).
  { apply N.eqb_neq. intros ->. apply H. now left. }
  rewrite E. cbn [negb]. rewrite IH; [reflexivity|].
  intros Hin. apply H. now right.
Qed.

Lemma decodeURI_without_escapes_witness :
  decodeURI (lit "https://www.vinted.be/catalog?x=1")
  = Some (lit "https://www.vinted.be/catalog?x=1").
Proof.
  apply decodeURI_without_escapes.
  intros H. vm_compute in H.
  repeat (destruct H as [H|H]; [discriminate H|]). exact H.
Defined.

(** ** The merge of the parameters *)

Lemma organize_app (a b : list jsstring) :
  forall o,
    organize (a ++ b) o
    = match organize a o with
      | Ok o' => organize b o'
      | Throw e => Throw e
      end.
Proof.
  induction a as [|p a IH]; intros o; [reflexivity|].
  cbn [app organize]. destruct (malformed p); [reflexivity | apply IH].
Qed.

Lemma firsts_app (a b : list jsstring) :
  forall seen, firsts seen (a ++ b) = firsts (firsts seen a) b.
Proof.
  induction a as [|k a IH]; intros seen; [reflexivity|].
  cbn [app firsts]. apply IH.
Qed.

Lemma seen_In (k : jsstring) (l : list jsstring) :
  existsb (fun k' => streq k' k) l = true <-> In k l.
Proof.
  rewrite existsb_exists. split.
  - intros (x & Hx & E). apply streq_eq in E. now subst x.
  - intros H. exists k. split; [exact H | apply streq_refl].
Qed.

Lemma firsts_NoDup (keys : list jsstring) :
  forall seen, NoDup seen -> NoDup (firsts seen keys).
Proof.
  induction keys as [|k rest IH]; intros seen H; cbn [firsts]; [exact H|].
  apply IH. destruct (existsb (fun k' => streq k' k) seen) eqn:E; [exact H|].
  apply NoDup_app; [exact H | repeat constructor; intros [] |].
  intros x Hx [<-|[]]. apply seen_In in Hx. congruence.
Qed.

Lemma firsts_keeps (keys : list jsstring) :
  forall seen k, In k seen -> In k (firsts seen keys).
Proof.
  induction keys as [|k0 rest IH]; intros seen k H; cbn [firsts]; [exact H|].
  apply IH. destruct (existsb (fun k' => streq k' k0) seen); [exact H|].
  apply in_or_app. now left.
Qed.

Lemma firsts_holds (keys : list jsstring) :
  forall seen k, In k keys -> In k (firsts seen keys).
Proof.
  induction keys as [|k0 rest IH]; intros seen k H; [contradiction|].
  cbn [firsts]. destruct H as [<-|H]; [|now apply IH].
  apply firsts_keeps.
  destruct (existsb (fun k' => streq k' k0) seen) eqn:E.
  - now apply seen_In.
  - apply in_or_app. right. now left.
Qed.

Lemma join_snoc (sep v : jsstring) (l : list jsstring) :
  l <> [] -> join sep (l ++ [v]) = join sep l ++ sep ++ v.
Proof.
  induction l as [|p l IH]; intros H; [contradiction|].
  destruct l as [|q l]; [reflexivity|].
  change (join sep ((p :: q :: l) ++ [v]))
    with (p ++ sep ++ join sep ((q :: l) ++ [v])).
  rewrite IH by discriminate.
  change (join sep (p :: q :: l)) with (p ++ sep ++ join sep (q :: l)).
  now rewrite <- !app_assoc.
Qed.

Lemma merged_snoc (values : list jsstring) (v : jsstring) :
  merged (values ++ [v])
  = match merged values with
    | [] => v
    | _ :: _ => merged values ++ lit "," ++ v
    end.
Proof.
  unfold merged. induction values as [|w values IH].
  - destruct v; reflexivity.
  - destruct w as [|c w]; [exact IH|].
    change (skipEmpty (((c :: w) :: values) ++ [v]))
      with (((c :: w) :: values) ++ [v]).
    change (skipEmpty ((c :: w) :: values)) with ((c :: w) :: values).
    rewrite join_snoc by discriminate.
    destruct values as [|q values']; [reflexivity|].
    change (join (lit ",") ((c :: w) :: q :: values'))
      with (c :: (w ++ lit "," ++ join (lit ",") (q :: values'))).
    reflexivity.
Qed.

Lemma valuesOf_snoc (k k0 v : jsstring) (pairs : list (jsstring * jsstring)) :
  valuesOf k (pairs ++ [(k0, v)])
  = valuesOf k pairs ++ (if streq k0 k then [v] else []).
Proof.
  unfold valuesOf. rewrite filter_app, map_app. cbn [filter fst].
  now destruct (streq k0 k).
Qed.

Lemma valuesOf_absent (k : jsstring) (pairs : list (jsstring * jsstring)) :
  ~ In k (map fst pairs) -> valuesOf k pairs = [].
Proof.
  unfold valuesOf. induction pairs as [|[k0 v0] r IH]; intros H; [reflexivity|].
  cbn [filter fst]. destruct (streq k0 k) eqn:E.
  - apply streq_eq in E. subst k0. exfalso. apply H. now left.
  - apply IH. intros Hin. apply H. now right.
Qed.

(** Reading and replacing a key in an object that is given key by key. *)
Lemma ownProperty_map (h : jsstring -> jsstring) (keys : list jsstring)
      (k : jsstring) :
  ownProperty (map (fun k' => (k', h k')) keys) k
  = if existsb (fun k' => streq k' k) keys then Some (h k) else None.
Proof.
  induction keys as [|k0 r IH]; [reflexivity|].
  cbn [map ownProperty existsb]. destruct (streq k0 k) eqn:E.
  - apply streq_eq in E. now subst k0.
  - exact IH.
Qed.

Lemma replaceOwn_map (h : jsstring -> jsstring) (keys : list jsstring)
      (k x : jsstring) :
  NoDup keys ->
  replaceOwn (map (fun k' => (k', h k')) keys) k x
  = map (fun k' => (k', if streq k' k then x else h k')) keys.
Proof.
  induction 1 as [|k0 r Hk0 Hr IH]; [reflexivity|].
  cbn [map replaceOwn]. destruct (streq k0 k) eqn:E.
  - apply streq_eq in E. subst k0. f_equal.
    apply map_ext_in. intros k' Hin.
    destruct (streq k' k) eqn:E'; [|reflexivity].
    apply streq_eq in E'. now subst k'.
  - now rewrite IH.
Qed.

Lemma inherits_nothing (o : object) (k : jsstring) :
  ownProperty o k = None -> getProperty o k = getProperty [] k.
Proof. unfold getProperty. now intros ->. Qed.

Lemma specifiedMerge_snoc (pairs : list (jsstring * jsstring)) (k v : jsstring) :
  specifiedMerge (pairs ++ [(k, v)])
  = map (fun k0 => (k0, merged (valuesOf k0 (pairs ++ [(k, v)]))))
        (if existsb (fun k' => streq k' k) (firsts [] (map fst pairs))
         then firsts [] (map fst pairs)
         else firsts [] (map fst pairs) ++ [k]).
Proof.
  unfold specifiedMerge. rewrite (map_app fst), firsts_app. reflexivity.
Qed.

(** One turn of the loop over the parameters takes the merge of the pairs
    met so far to the merge with one pair more. *)
Lemma organize_step (pairs : list (jsstring * jsstring)) (k v : jsstring) :
  getProperty [] k = Undefined ->
  (if truthy (getProperty (specifiedMerge pairs) k)
   then setProperty (specifiedMerge pairs) k
          (toString (getProperty (specifiedMerge pairs) k) ++ lit "," ++ v)
   else setProperty (specifiedMerge pairs) k v)
  = specifiedMerge (pairs ++ [(k, v)]).
Proof.
  intros Hk. rewrite specifiedMerge_snoc.
  pose proof (firsts_NoDup (map fst pairs) [] (NoDup_nil _)) as Hnd.
  set (F := firsts [] (map fst pairs)) in *.
  assert (Hown : ownProperty (specifiedMerge pairs) k
                 = if existsb (fun k' => streq k' k) F
                   then Some (merged (valuesOf k pairs)) else None)
    by apply (ownProperty_map (fun k' => merged (valuesOf k' pairs))).
  destruct (existsb (fun k' => streq k' k) F) eqn:E.
  - unfold getProperty, setProperty. rewrite Hown.
    cbn [toString].
    assert (Hnew : (if truthy (Str (merged (valuesOf k pairs)))
                    then merged (valuesOf k pairs) ++ lit "," ++ v
                    else v)
                   = merged (valuesOf k pairs ++ [v])).
    { rewrite merged_snoc. now destruct (merged (valuesOf k pairs)). }
    assert (Hgoal : forall x,
               x = merged (valuesOf k pairs ++ [v]) ->
               replaceOwn (specifiedMerge pairs) k x
               = map (fun k0 => (k0, merged (valuesOf k0 (pairs ++ [(k, v)])))) F).
    { intros x ->. unfold specifiedMerge. fold F.
      rewrite (replaceOwn_map (fun k' => merged (valuesOf k' pairs)) F k _ Hnd).
      apply map_ext. intros k'. rewrite valuesOf_snoc.
      destruct (streq k' k) eqn:E'.
      - apply streq_eq in E'. subst k'. now rewrite streq_refl.
      - assert (E2 : streq k k' = false).
        { apply streq_neq. intros ->. now rewrite streq_refl in E'. }
        now rewrite E2, app_nil_r. }
    destruct (truthy (Str (merged (valuesOf k pairs)))); now apply Hgoal.
  - assert (Hnone : ownProperty (specifiedMerge pairs) k = None) by exact Hown.
    rewrite (inherits_nothing _ _ Hnone), Hk. cbn [truthy].
    unfold setProperty. rewrite Hnone.
    assert (Hp : streq k (lit "__proto__") = false).
    { destruct (streq k (lit "__proto__")) eqn:Ep; [|reflexivity].
      apply streq_eq in Ep. subst k. discriminate Hk. }
    rewrite Hp, (map_app _ F). cbn [map]. unfold specifiedMerge. fold F.
    assert (Hout : ~ In k F) by (intros Hin; apply seen_In in Hin; congruence).
    f_equal.
    + apply map_ext_in. intros k' Hin. rewrite valuesOf_snoc.
      assert (E2 : streq k k' = false)
        by (apply streq_neq; intros ->; contradiction).
      now rewrite E2, app_nil_r.
    + rewrite valuesOf_snoc, streq_refl, valuesOf_absent.
      * cbn [app]. unfold merged. now destruct v.
      * intros Hin. apply Hout. now apply firsts_holds.
Qed.

Lemma organize_specified (params : list jsstring) :
  forall o,
    Forall (fun param => ordinary (keyOf param) = true) params ->
    organize params [] = Ok o ->
    o = specifiedMerge (map pairOf params).
Proof.
  induction params as [|param params IH] using rev_ind; intros o Hord H.
  - now injection H as <-.
  - rewrite organize_app in H.
    apply Forall_app in Hord as [Hord Hlast].
    destruct (organize params []) as [o1|e]; [|discriminate].
    rewrite (IH o1 Hord eq_refl) in H. cbn [organize] in H.
    destruct (malformed param); [discriminate|]. cbv zeta in H.
    injection H as <-. rewrite map_app. cbn [map]. unfold pairOf at 3.
    apply organize_step.
    inversion Hlast as [|? ? Hk _]; subst. unfold ordinary in Hk.
    destruct (arrayIndex (keyOf param)); [discriminate|].
    fold (keyOf param).
    now destruct (getProperty [] (keyOf param)).
Qed.

Lemma filter_keyed (h : jsstring -> jsstring) (f : jsstring -> bool)
      (keys : list jsstring) :
  filter (fun kv => f (fst kv)) (map (fun k => (k, h k)) keys)
  = map (fun k => (k, h k)) (filter f keys).
Proof.
  induction keys as [|k r IH]; [reflexivity|].
  cbn [map filter fst]. destruct (f k); cbn [map]; now rewrite IH.
Qed.

(** C4, as the code has it. The substitutions [catalog[]], [status[]],
    [[]] are applied to the query in this order; then, when no key is an
    array index or the name of something every object inherits, the
    result lists the keys other than [time] in the order of their first
    appearance, each once, as [key=value] joined by [&], the value being
    the values of the key in the order met, from its first non-empty one
    on, joined by commas. *)
Theorem normalize_renames_and_merges (source URI queryString : jsstring) :
  decodeURI source = Some URI ->
  getQueryParameters source = Ok queryString ->
  Forall (fun param => ordinary (keyOf param) = true)
         (split (pluralize (nth 1 (split URI (lit "?")) [])) (lit "&")) ->
  queryString
  = specifiedQuery
      (map pairOf (split (pluralize (nth 1 (split URI (lit "?")) [])) (lit "&"))).
Proof.
  unfold getQueryParameters. intros -> H Hord.
  destruct (negb (matchesVintedURI URI)); [discriminate|].
  destruct (negb (length (split URI (lit "?")) =? 2)%nat); [discriminate|].
  cbv zeta in H.
  set (params := split (pluralize (nth 1 (split URI (lit "?")) [])) (lit "&")) in *.
  destruct (organize params []) as [o|e] eqn:Eo; [|discriminate].
  injection H as <-.
  pose proof (organize_specified params o Hord Eo) as Ho.
  set (pairs := map pairOf params) in *.
  set (F := firsts [] (map fst pairs)).
  assert (Hkeys : map fst o = F).
  { rewrite Ho. unfold specifiedMerge. rewrite map_map. cbn [fst]. apply map_id. }
  assert (Hnamed : Forall (fun k => arrayIndex k = None) (map fst o)).
  { rewrite Hkeys. apply Forall_forall. intros k Hk.
    apply firsts_from in Hk as [[]|Hk].
    unfold pairs in Hk. rewrite map_map in Hk. cbn [pairOf fst] in Hk.
    apply in_map_iff in Hk as (param & <- & Hin).
    rewrite Forall_forall in Hord. specialize (Hord param Hin).
    unfold ordinary in Hord. now destruct (arrayIndex (keyOf param)). }
  rewrite formatParams_join, (Object_keys_named o Hnamed), Hkeys.
  unfold specifiedQuery. f_equal. f_equal.
  unfold specifiedMerge. fold F.
  rewrite (filter_keyed (fun k => merged (valuesOf k pairs)) listed F).
  apply map_ext_in. intros k Hk. apply filter_In in Hk as [Hk _].
  unfold entry, getProperty. rewrite Ho. unfold specifiedMerge. fold F.
  rewrite (ownProperty_map (fun k' => merged (valuesOf k' pairs)) F k).
  apply seen_In in Hk. now rewrite Hk.
Qed.

Lemma normalize_renames_and_merges_witness :
  (getQueryParameters
     (lit "https://www.vinted.be/catalog?catalog[]=1&catalog[]=2&time=999")
   = Ok (lit "catalog_ids=1,2")
   /\ lit "catalog_ids=1,2"
      = specifiedQuery [(lit "catalog_ids", lit "1"); (lit "catalog_ids", lit "2");
                        (lit "time", lit "999")]
   /\ includes (lit "catalog_ids=1,2") (lit "time=") = false)
  /\ (getQueryParameters (lit "https://www.vinted.be/catalog?status[]=1&brand[]=5")
      = Ok (lit "status_ids=1&brands=5")
      /\ lit "status_ids=1&brands=5"
         = specifiedQuery [(lit "status_ids", lit "1"); (lit "brands", lit "5")]).
Proof.
  assert (Hord : forall l : list jsstring,
             forallb (fun param => ordinary (keyOf param)) l = true ->
             Forall (fun param => ordinary (keyOf param) = true) l).
  { intros l H. apply Forall_forall. intros x Hx.
    rewrite forallb_forall in H. exact (H x Hx). }
  split.
  - assert (H : getQueryParameters
                  (lit "https://www.vinted.be/catalog?catalog[]=1&catalog[]=2&time=999")
                = Ok (lit "catalog_ids=1,2")) by (vm_compute; reflexivity).
    split; [exact H|]. split; [|vm_compute; reflexivity].
    change (lit "catalog_ids=1,2"
            = specifiedQuery
                (map pairOf
                   (split (pluralize
                             (nth 1 (split (lit "https://www.vinted.be/catalog?catalog[]=1&catalog[]=2&time=999")
                                           (lit "?")) []))
                          (lit "&")))).
    apply (normalize_renames_and_merges
             (lit "https://www.vinted.be/catalog?catalog[]=1&catalog[]=2&time=999")
             (lit "https://www.vinted.be/catalog?catalog[]=1&catalog[]=2&time=999")
             (lit "catalog_ids=1,2"));
      [vm_compute; reflexivity | exact H | apply Hord; vm_compute; reflexivity].
  - assert (H : getQueryParameters
                  (lit "https://www.vinted.be/catalog?status[]=1&brand[]=5")
                = Ok (lit "status_ids=1&brands=5")) by (vm_compute; reflexivity).
    split; [exact H|].
    change (lit "status_ids=1&brands=5"
            = specifiedQuery
                (map pairOf
                   (split (pluralize
                             (nth 1 (split (lit "https://www.vinted.be/catalog?status[]=1&brand[]=5")
                                           (lit "?")) []))
                          (lit "&")))).
    apply (normalize_renames_and_merges
             (lit "https://www.vinted.be/catalog?status[]=1&brand[]=5")
             (lit "https://www.vinted.be/catalog?status[]=1&brand[]=5")
             (lit "status_ids=1&brands=5"));
      [vm_compute; reflexivity | exact H | apply Hord; vm_compute; reflexivity].
Defined.

(** C4, as stated, fails: a value met while the value held for its key is
    still empty replaces it and is not joined to it. *)
Lemma empty_value_is_replaced_not_joined :
  getQueryParameters (lit "https://www.vinted.be/catalog?a=&a=3") = Ok (lit "a=3")
  /\ join (lit ",") [[]; lit "3"] = lit ",3"
  /\ lit "a=3" <> lit "a=" ++ join (lit ",") [[]; lit "3"].
Proof. split; [|split]; [vm_compute; reflexivity | reflexivity | discriminate]. Qed.

Lemma payload_carries_last_proxy_witness :
  (* a call that returns, after one renewal *)
  (exists st',
      request 2 endpoint refusedOnce
      = Some (Ok (JObject [(lit "id", JNumber (lit "1"));
                           (lit "proxy", JString (lit "http://p3:80"))]), st')
      /\ exists new,
          journal st' = new ++ [] /\
          own_proxies new /\
          forall json,
            Ok (JObject [(lit "id", JNumber (lit "1"));
                         (lit "proxy", JString (lit "http://p3:80"))]) = Ok json ->
            exists req res proxy rest parsed,
              new = Fetch req (Responded res) :: GetProxy (Returned proxy) :: rest /\
              url req = endpoint /\
              through proxy req /\
              JSON.parse (text res) = Some parsed /\
              json = annotated proxy parsed)
  /\
  (* a call that ends in an error *)
  (exists st',
      request 1 endpoint
              (answered (Some [lit "http://p1:80"])
                        (json "{'message_code':'not_found'}"))
      = Some (Throw (Error (lit "not_found")), st')
      /\ exists new,
          journal st' = new ++ [] /\
          own_proxies new /\
          forall json,
            Throw (Error (lit "not_found")) = Ok json ->
            exists req res proxy rest parsed,
              new = Fetch req (Responded res) :: GetProxy (Returned proxy) :: rest /\
              url req = endpoint /\
              through proxy req /\
              JSON.parse (text res) = Some parsed /\
              json = annotated proxy parsed).
Proof.
  split; eexists.
  - refine ((fun H => conj H
               (payload_carries_last_proxy (node := scripted) 2 endpoint refusedOnce
                  _ _ H)) _).
    vm_compute. reflexivity.
  - refine ((fun H => conj H
               (payload_carries_last_proxy (node := scripted) 1 endpoint
                  (answered (Some [lit "http://p1:80"])
                            (json "{'message_code':'not_found'}"))
                  _ _ H)) _).
    vm_compute. reflexivity.
Defined.
